(** * DaCe: matrix-multiply library node, map fission, FPGA global-to-local

    A shallow embedding of
    - [dace/libraries/blas/nodes/matmul.py]
    - [dace/transformation/dataflow/map_fission.py]
    - [dace/transformation/interstate/fpga_global_to_local.py]
    and the properties of these programs.

    Python values are embedded as follows.  A size (an [int] or a symbolic
    expression) is an element of a type [E] with the operations of the class
    [SymExpr]; lists and tuples are [list]; a dictionary keyed by names is a
    [gmap string]; graph nodes are addressed by handles ([nat]), which play
    the role of Python object identity; a raised exception is the [Raise]
    case of [res]. *)

From Stdlib Require Import ZArith Bool.
From stdpp Require Import base option list strings gmap pretty.

Open Scope string_scope.
Open Scope list_scope.
Open Scope Z_scope.

(** ** Python outcomes *)

Inductive exn : Type :=
| ValueError (msg : string)
| SyntaxError (msg : string)
| KeyError
| IndexError
| UnboundLocalError
| StopIteration
| TypeError
| RuntimeError.

Inductive res (A : Type) : Type :=
| Ok (a : A)
| Raise (e : exn).
Arguments Ok {A} a.
Arguments Raise {A} e.

#[global] Instance res_ret : MRet res := fun _ a => Ok a.
#[global] Instance res_bind : MBind res := fun _ _ f m =>
  match m with Ok a => f a | Raise e => Raise e end.
#[global] Instance res_fmap : FMap res := fun _ _ f m =>
  match m with Ok a => Ok (f a) | Raise e => Raise e end.

Definition is_ok {A} (r : res A) : bool :=
  match r with Ok _ => true | Raise _ => false end.

Lemma bind_ok {A B} (m : res A) (f : A → res B) (y : B) :
  m ≫= f = Ok y ↔ ∃ x, m = Ok x ∧ f x = Ok y.
Proof.
  destruct m as [x|e]; simpl; split.
  - intros Hf. by exists x.
  - by intros (x' & [= ->] & Hf).
  - discriminate.
  - by intros (x' & [=] & _).
Qed.

(** [d[k]] on a dictionary. *)
Definition getitem {V} (d : gmap string V) (k : option string) : res V :=
  match k with
  | None => Raise KeyError
  | Some k => match d !! k with Some v => Ok v | None => Raise KeyError end
  end.

Lemma getitem_Some {V} (d : gmap string V) (k : string) (v : V) :
  d !! k = Some v → getitem d (Some k) = Ok v.
Proof. intros Hk. unfold getitem. by rewrite Hk. Qed.

(** [l[i]] for [i >= 0] and [l[-k]] for [k >= 1] on a sequence. *)
Definition index {A} (l : list A) (i : nat) : res A :=
  match l !! i with Some x => Ok x | None => Raise IndexError end.

Definition index_neg {A} (l : list A) (k : nat) : res A :=
  if decide (1 <= k <= length l)%nat then index l (length l - k) else Raise IndexError.

Lemma index_neg_ok {A} (l : list A) (k : nat) :
  (1 <= k <= length l)%nat → ∃ x, index_neg l k = Ok x.
Proof.
  intros Hk. unfold index_neg, index. rewrite decide_True by done.
  destruct (l !! (length l - k)%nat) as [x|] eqn:Hx; [by exists x|].
  apply lookup_ge_None in Hx. lia.
Qed.

(** Reading a local variable that may not have been assigned. *)
Definition local {A} (v : option A) : res A :=
  match v with Some x => Ok x | None => Raise UnboundLocalError end.

(** ** Sizes *)

(** The operations the sources apply to sizes: [==]/[!=], the truth value
    ([if batch and ...]), the literals [0] and [1], and [*]. *)
Class SymExpr (E : Type) := {
  sym_eq_dec :: EqDecision E;
  truthy : E → bool;
  sym_zero : E;
  sym_one : E;
  sym_mul : E → E → E
}.

(** Python integers: zero is the only false integer. *)
#[global] Instance Z_SymExpr : SymExpr Z := {|
  truthy z := negb (Z.eqb z 0);
  sym_zero := 0;
  sym_one := 1;
  sym_mul := Z.mul
|}.

(** ** Data descriptors *)

Inductive StorageType : Type :=
| Default | CPU_Heap | GPU_Global | GPU_Shared | FPGA_Global | FPGA_Local | Register.

#[global] Instance StorageType_eq_dec : EqDecision StorageType.
Proof. solve_decision. Defined.

Inductive typeclass : Type :=
| int32 | int64 | float16 | float32 | float64 | complex64 | complex128.

#[global] Instance typeclass_eq_dec : EqDecision typeclass.
Proof. solve_decision. Defined.

Record Array (E : Type) : Type := mkArray {
  shape : list E;
  strides : list E;
  offset : list E;
  total_size : E;
  dtype : typeclass;
  storage : StorageType;
  transient : bool
}.
Arguments mkArray {E}.
Arguments shape {E}.
Arguments strides {E}.
Arguments offset {E}.
Arguments total_size {E}.
Arguments dtype {E}.
Arguments storage {E}.
Arguments transient {E}.

(** ** Memlets and edges *)

(** A subset is a list of per-dimension [(start, end, step)] ranges. *)
Definition Range (E : Type) : Type := list (E * E * E).

Record Memlet (E : Type) : Type := mkMemlet {
  data : option string;      (* [None] for an empty memlet *)
  subset : Range E
}.
Arguments mkMemlet {E}.
Arguments data {E}.
Arguments subset {E}.

Record Edge (E : Type) : Type := mkEdge {
  src : nat;
  src_conn : option string;
  dst : nat;
  dst_conn : option string;
  edata : Memlet E
}.
Arguments mkEdge {E}.
Arguments src {E}.
Arguments src_conn {E}.
Arguments dst {E}.
Arguments dst_conn {E}.
Arguments edata {E}.

#[global] Instance Memlet_eq_dec {E} `{EqDecision E} : EqDecision (Memlet E).
Proof. solve_decision. Defined.

#[global] Instance Edge_eq_dec {E} `{EqDecision E} : EqDecision (Edge E).
Proof. solve_decision. Defined.

(** ** Maps, nodes, states and SDFGs *)

Inductive ScheduleType : Type :=
| Sched_Default | Sequential | MPI | CPU_Multicore | GPU_Device | GPU_ThreadBlock | FPGA_Device.

(** The [Map] object shared by a map entry node and its exit node. *)
Record Map (E : Type) : Type := mkMap {
  label : string;
  params : list string;
  range : Range E;
  schedule : ScheduleType;
  unroll : bool
}.
Arguments mkMap {E}.
Arguments label {E}.
Arguments params {E}.
Arguments range {E}.
Arguments schedule {E}.
Arguments unroll {E}.

(** Nodes of a state.  A map entry or exit refers to its [Map] object by a
    handle into the table of the state, so that entry and exit share it.
    [Tasklet], [NestedSDFG] and [LibraryNode] are the code nodes. *)
Inductive Node (E : Type) : Type :=
| AccessNode (name : string)
| Tasklet (name : string)
| MapEntry (map : nat)
| MapExit (map : nat)
| NestedSDFG (name : string) (sdfg : SDFG E)
| LibraryNode (name : string) (dt : option typeclass)
with SDFG (E : Type) : Type :=
| mkSDFG (states : list (SDFGState E)) (arrs : gmap string (Array E))
with SDFGState (E : Type) : Type :=
| mkState (nds : list (nat * Node E)) (eds : list (Edge E))
          (mps : gmap nat (Map E)) (scp : gmap nat nat).
Arguments AccessNode {E}.
Arguments Tasklet {E}.
Arguments MapEntry {E}.
Arguments MapExit {E}.
Arguments NestedSDFG {E}.
Arguments LibraryNode {E}.
Arguments mkSDFG {E}.
Arguments mkState {E}.

(** [sdfg.nodes()]: the states, and [sdfg.arrays]. *)
Definition sdfg_states {E} (s : SDFG E) : list (SDFGState E) :=
  match s with mkSDFG sts _ => sts end.
Definition arrays {E} (s : SDFG E) : gmap string (Array E) :=
  match s with mkSDFG _ a => a end.

(** [state.nodes()] with the handle of each node, [state.edges()], the table
    of [Map] objects, and the scope dictionary of the state (node to the
    entry node of the innermost scope around it; no entry for a node at top
    level). *)
Definition nodes {E} (g : SDFGState E) : list (nat * Node E) :=
  match g with mkState n _ _ _ => n end.
Definition edges {E} (g : SDFGState E) : list (Edge E) :=
  match g with mkState _ e _ _ => e end.
Definition maps {E} (g : SDFGState E) : gmap nat (Map E) :=
  match g with mkState _ _ m _ => m end.
Definition scope {E} (g : SDFGState E) : gmap nat nat :=
  match g with mkState _ _ _ s => s end.

(** [graph.node(i)] *)
Definition node {E} (g : SDFGState E) (i : nat) : option (Node E) :=
  (λ p, snd (snd p)) <$> list_find (λ p, fst p = i) (nodes g).

Definition in_edges {E} (eds : list (Edge E)) (n : nat) : list (Edge E) :=
  filter (λ e, dst e = n) eds.

Definition out_edges {E} (eds : list (Edge E)) (n : nat) : list (Edge E) :=
  filter (λ e, src e = n) eds.

(** * Matrix multiplication library node *)

(** The label and element type of the library node with handle [i]. *)
Definition library_node {E} (g : SDFGState E) (i : nat)
  : option (string * option typeclass) :=
  match node g i with
  | Some (LibraryNode name dt) => Some (name, dt)
  | _ => None
  end.

Module MatMul.

Section BatchDetection.
Context {E : Type} `{SymExpr E}.

(** The dictionary [{'sa': .., 'sb': .., 'sc': .., 'b': ..}]; the empty
    dictionary is [None]. *)
Record BatchOpts : Type := mkBatchOpts {
  opt_sa : E;
  opt_sb : E;
  opt_sc : E;
  opt_b : E
}.

Definition too_large_msg : string :=
  "Tensor dimensions too large for (batched) matrix multiplication".
Definition mismatch_msg : string :=
  "Batch size mismatch for matrix multiplication".

Definition rank (a : Array E) : nat := length (shape a).

(** [batch and batch != s]: [batch] is [None] or a size. *)
Definition batch_differs (batch : option E) (s : E) : bool :=
  match batch with
  | None => false
  | Some bt => truthy bt && bool_decide (bt ≠ s)
  end.

(** [get_batchmm_opts(a, b, c)]; [c] is [None] or a descriptor. *)
Definition get_batchmm_opts (a b : Array E) (c : option (Array E))
  : res (option BatchOpts) :=
  if bool_decide (3 < rank a)%nat || bool_decide (3 < rank b)%nat
     || match c with Some c => bool_decide (3 < rank c)%nat | None => false end
  then Raise (ValueError too_large_msg)
  else if bool_decide (rank a <= 2)%nat && bool_decide (rank b <= 2)%nat
  then Ok None
  else
    '(batch, stride_a) ←
      (if bool_decide (rank a = 3%nat)
       then bt ← index (shape a) 0; st ← index (strides a) 0; Ok (Some bt, st)
       else Ok (None, sym_zero));
    '(batch, stride_b) ←
      (if bool_decide (rank b = 3%nat)
       then s ← index (shape b) 0;
            if batch_differs batch s then Raise (ValueError mismatch_msg)
            else st ← index (strides b) 0; Ok (Some s, st)
       else Ok (batch, sym_zero));
    '(batch, stride_c) ←
      (match c with
       | Some c =>
         if bool_decide (rank c = 3%nat)
         then s ← index (shape c) 0;
              if batch_differs batch s then Raise (ValueError mismatch_msg)
              else st ← index (strides c) 0; Ok (Some s, st)
         else Ok (batch, sym_zero)
       | None => Ok (batch, sym_zero)
       end);
    match batch with
    | None => Ok None
    | Some bt => Ok (Some (mkBatchOpts stride_a stride_b stride_c bt))
    end.

End BatchDetection.
Arguments BatchOpts E : clear implicits.

Section Node.
Context {E : Type} `{SymExpr E}.

(** [dc(memlet.subset)], [.squeeze()], [.size()]: the sizes of a subset once
    its dimensions of size 1 are dropped.  The subset classes are not part
    of the translated sources. *)
Variable squeezed_size : Range E → list E.

(** [dace.sdfg.find_input_arraynode(state, edge).data]: the name of the
    array read through an input edge. *)
Variable find_input_arraynode : SDFGState E → Edge E → res string.

(** [np.result_type] on element types. *)
Variable result_type : typeclass → typeclass → typeclass.

Definition two_inputs_msg : string :=
  "Expected exactly two inputs to matrix-matrix product".
Definition one_output_msg : string :=
  "Expected exactly one output from matrix-matrix product".
Definition matrices_msg : string :=
  "matrix-matrix product only supported on matrices".
Definition k_dim_msg : string :=
  "Inputs to matrix-matrix product must agree in the k-dimension".
Definition mn_dim_msg : string :=
  "Output to matrix-matrix product must agree in the m and n dimensions".
Definition bmn_dim_msg : string :=
  "Output to batch matrix-matrix product must agree in the b, m, and n dimensions".

(** The loop of [validate] over the input edges: it assigns [size0] on an
    edge into [_a] and [size1] on an edge into [_b]. *)
Definition input_sizes (ins : list (Edge E)) : option (list E) * option (list E) :=
  foldl (λ '(size0, size1) e,
           let size0 := if bool_decide (dst_conn e = Some "_a")
                        then Some (squeezed_size (subset (edata e))) else size0 in
           let size1 := if bool_decide (dst_conn e = Some "_b")
                        then Some (squeezed_size (subset (edata e))) else size1 in
           (size0, size1))
        (None, None) ins.

(** [MatMul.validate(self, sdfg, state)] *)
Definition validate (sdfg : SDFG E) (state : SDFGState E) (self : nat) : res unit :=
  let ins := in_edges (edges state) self in
  if bool_decide (length ins ≠ 2%nat) then Raise (ValueError two_inputs_msg) else
  let '(size0, size1) := input_sizes ins in
  let outs := out_edges (edges state) self in
  if bool_decide (length outs ≠ 1%nat) then Raise (ValueError one_output_msg) else
  eo ← index outs 0;
  let out_memlet := edata eo in
  e0 ← index ins 0;
  d0 ← getitem (arrays sdfg) (data (edata e0));
  e1 ← index ins 1;
  d1 ← getitem (arrays sdfg) (data (edata e1));
  d2 ← getitem (arrays sdfg) (data (edata eo));
  bopt ← get_batchmm_opts d0 d1 (Some d2);
  _ ← (if bool_decide (bopt = None :> option (BatchOpts E)) then
         s0 ← local size0;
         if bool_decide (length s0 ≠ 2%nat) then Raise (ValueError matrices_msg) else
         s1 ← local size1;
         if bool_decide (length s1 ≠ 2%nat) then Raise (ValueError matrices_msg) else
         Ok ()
       else Ok ());
  s0 ← local size0;
  k0 ← index_neg s0 1;
  s1 ← local size1;
  k1 ← index_neg s1 2;
  if bool_decide (k0 ≠ k1) then Raise (ValueError k_dim_msg) else
  let size2 := squeezed_size (subset out_memlet) in
  if bool_decide (length size2 ≠ 2%nat ∧ length size2 ≠ 3%nat)
  then Raise (ValueError matrices_msg) else
  match bopt with
  | None =>
    m ← index_neg s0 2;
    n ← index_neg s1 1;
    if bool_decide (size2 ≠ [m; n]) then Raise (ValueError mn_dim_msg) else Ok ()
  | Some o =>
    m ← index_neg s0 2;
    n ← index_neg s1 1;
    if bool_decide (size2 ≠ [opt_b o; m; n]) then Raise (ValueError bmn_dim_msg) else Ok ()
  end.

(** The result triple [(edge, outer_array, (size[-2], size[-1]))]. *)
Definition matmul_input : Type := Edge E * Array E * (E * E).

(* The message of the source, without the quotes around the names. *)
Definition inputs_not_found_msg : string :=
  "Matrix multiplication input connectors _a and _b not found.".

(** [_get_matmul_inputs(node, state, sdfg)] *)
Definition _get_matmul_inputs (node : nat) (state : SDFGState E) (sdfg : SDFG E)
  : res (matmul_input * matmul_input) :=
  '(res_a, res_b) ←
    foldl (λ (acc : res (option matmul_input * option matmul_input)) edge,
             '(res_a, res_b) ← acc;
             if bool_decide (dst_conn edge = Some "_a" ∨ dst_conn edge = Some "_b") then
               let size := squeezed_size (subset (edata edge)) in
               name ← find_input_arraynode state edge;
               outer_array ← getitem (arrays sdfg) (Some name);
               s2 ← index_neg size 2;
               s1 ← index_neg size 1;
               let r := (edge, outer_array, (s2, s1)) in
               if bool_decide (dst_conn edge = Some "_a")
               then Ok (Some r, res_b) else Ok (res_a, Some r)
             else Ok (res_a, res_b))
          (Ok (None, None)) (in_edges (edges state) node);
  match res_a, res_b with
  | Some ra, Some rb => Ok (ra, rb)
  | _, _ => Raise (ValueError inputs_not_found_msg)
  end.

(** Modelled from the spec: [sdfg.add_array(name, shape, dtype,
    storage=storage)], which the translated sources call but do not define
    (the descriptors of the new SDFG take the given shape, element type and
    storage): a non-transient array of that shape with the default
    (row-major) strides, zero offsets and the product of the shape as total
    size. *)
Definition default_strides (shp : list E) : list E :=
  (λ i, foldr sym_mul sym_one (drop (S i) shp)) <$> seq 0 (length shp).

(** Modelled from the spec: the descriptor that [sdfg.add_array] registers,
    with the strides of [default_strides]. *)
Definition add_array (shp : list E) (dt : typeclass) (st : StorageType) : Array E :=
  mkArray shp (default_strides shp) (const sym_zero <$> shp)
          (foldr sym_mul sym_one shp) dt st false.

(** The arguments of [state.add_mapped_tasklet]. *)
Record MappedTasklet : Type := mkMappedTasklet {
  mt_name : string;
  mt_map_ranges : list (string * E);              (* [p: 0:s] *)
  mt_inputs : list (string * (string * string));   (* connector, array, indices *)
  mt_code : string;
  mt_outputs : list (string * (string * string));
  mt_wcr : string;
  mt_wcr_identity : Z
}.

(** The SDFG that [make_sdfg] builds. *)
Record PureSDFG : Type := mkPureSDFG {
  p_name : string;
  p_state : string;
  p_arrays : list (string * Array E);
  p_tasklet : MappedTasklet
}.

Definition sizes_msg : string := "Matrix sizes must match".
Definition storage_msg : string := "Input matrices must have same storage".

(** [ExpandMatMulPure.make_sdfg(node, parent_state, parent_sdfg)];
    [node_label] is [node.label]. *)
Definition make_sdfg (node : nat) (node_label : string)
    (parent_state : SDFGState E) (parent_sdfg : SDFG E) : res PureSDFG :=
  '((edge_a, outer_array_a, shape_a), (edge_b, outer_array_b, shape_b)) ←
    _get_matmul_inputs node parent_state parent_sdfg;
  let sa := [fst shape_a; snd shape_a] in
  let sb := [fst shape_b; snd shape_b] in
  if bool_decide (length sa ≠ 2%nat ∨ length sb ≠ 2%nat ∨ snd shape_a ≠ fst shape_b)
  then Raise (SyntaxError sizes_msg) else
  let shape_c := [fst shape_a; snd shape_b] in
  let dtype_a := dtype outer_array_a in
  let dtype_b := dtype outer_array_b in
  let dtype_c := result_type dtype_a dtype_b in
  if bool_decide (storage outer_array_a ≠ storage outer_array_b)
  then Raise (ValueError storage_msg) else
  let storage := storage outer_array_a in
  let array_a := add_array sa dtype_a storage in
  let array_b := add_array sb dtype_b storage in
  let array_c := add_array shape_c dtype_c storage in
  a0 ← index (shape array_a) 0;
  b1 ← index (shape array_b) 1;
  a1 ← index (shape array_a) 1;
  Ok (mkPureSDFG (node_label +:+ "_sdfg") (node_label +:+ "_state")
        [("_a", array_a); ("_b", array_b); ("_c", array_c)]
        (mkMappedTasklet "_MatMult_"
           [("__i0", a0); ("__i1", b1); ("__i2", a1)]
           [("__a", ("_a", "__i0, __i2")); ("__b", ("_b", "__i2, __i1"))]
           "__c = __a * __b"
           [("__c", ("_c", "__i0, __i1"))]
           "lambda x, y: x + y" 0)).

(* The message of the source names the node. *)
Definition dtype_msg : string := "Data type must be set to expand the node.".

(** [ExpandMatMulPure.expansion(node, state, sdfg)] *)
Definition expansion (node : nat) (state : SDFGState E) (sdfg : SDFG E) : res PureSDFG :=
  match library_node state node with
  | Some (name, dt) =>
    _ ← validate sdfg state node;
    if bool_decide (dt = None) then Raise (ValueError dtype_msg)
    else make_sdfg node name state sdfg
  | None => Raise TypeError
  end.

End Node.

(** ** Properties of batch detection *)

Section BatchDetectionFacts.
Context {E : Type} `{SymExpr E}.

(** The leading dimension and stride of a rank-3 descriptor. *)
Definition leading (a : Array E) : option E := shape a !! 0%nat.
Definition leading_stride (a : Array E) : E := default sym_zero (strides a !! 0%nat).

(** [Array.validate]: strides are as many as dimensions. *)
Definition strides_ok (a : Array E) : Prop := length (strides a) = length (shape a).

Definition rank_le3 (c : option (Array E)) : Prop :=
  match c with Some c => (rank c <= 3)%nat | None => True end.

Lemma index0_shape (a : Array E) :
  rank a = 3%nat → ∃ s, shape a !! 0%nat = Some s ∧ index (shape a) 0 = Ok s.
Proof.
  unfold rank, index. destruct (shape a) as [|s l]; simpl; [discriminate|].
  intros _. by exists s.
Qed.

Lemma index0_strides (a : Array E) :
  rank a = 3%nat → strides_ok a → index (strides a) 0 = Ok (leading_stride a).
Proof.
  unfold rank, strides_ok, index, leading_stride. intros Hr Hs.
  destruct (strides a) as [|s l]; simpl in *; [lia | done].
Qed.

Lemma batch_differs_same (bt : option E) (s : E) :
  (∀ x, bt = Some x → x = s) → batch_differs bt s = false.
Proof.
  intros Hx. destruct bt as [x|]; simpl; [|done].
  rewrite (Hx x eq_refl). rewrite bool_decide_eq_false_2; [|tauto].
  apply andb_false_r.
Qed.

Lemma batch_differs_truthy (x s : E) :
  truthy x = true → x ≠ s → batch_differs (Some x) s = true.
Proof.
  intros Ht Hne. simpl. rewrite Ht. by rewrite bool_decide_eq_true_2.
Qed.

(** A descriptor of rank above 3 is refused, whatever the other two are. *)
Lemma get_batchmm_opts_too_large (a b : Array E) (c : option (Array E)) :
  (3 < rank a)%nat ∨ (3 < rank b)%nat ∨ (∃ c', c = Some c' ∧ (3 < rank c')%nat) →
  get_batchmm_opts a b c = Raise (ValueError too_large_msg).
Proof.
  intros Hbig. unfold get_batchmm_opts.
  destruct Hbig as [Ha|[Hb|(c' & -> & Hc)]].
  - by rewrite (bool_decide_eq_true_2 _ Ha).
  - rewrite (bool_decide_eq_true_2 _ Hb). by rewrite orb_true_r.
  - rewrite (bool_decide_eq_true_2 _ Hc). by rewrite orb_true_r.
Qed.

(** Both operands of rank at most 2: no batch parameters. *)
Lemma get_batchmm_opts_matrices (a b : Array E) (c : option (Array E)) :
  (rank a <= 2)%nat → (rank b <= 2)%nat → rank_le3 c →
  get_batchmm_opts a b c = Ok None.
Proof.
  intros Ha Hb Hc. unfold get_batchmm_opts.
  rewrite (bool_decide_eq_false_2 (3 < rank a)%nat) by lia.
  rewrite (bool_decide_eq_false_2 (3 < rank b)%nat) by lia.
  assert (match c with Some c0 => bool_decide (3 < rank c0)%nat | None => false end = false) as ->.
  { destruct c as [c0|]; [|done]. simpl in Hc. apply bool_decide_eq_false_2. lia. }
  simpl. by rewrite !bool_decide_eq_true_2 by lia.
Qed.

(** All descriptors of rank 3 among [a], [b], [c] lead with [bt]. *)
Definition agree_on (bt : E) (a b : Array E) (c : option (Array E)) : Prop :=
  (rank a = 3%nat → leading a = Some bt) ∧
  (rank b = 3%nat → leading b = Some bt) ∧
  (∀ c', c = Some c' → rank c' = 3%nat → leading c' = Some bt).

Definition stride_of (a : Array E) : E :=
  if bool_decide (rank a = 3%nat) then leading_stride a else sym_zero.

(** Some operand of rank 3 and one batch count everywhere: the strides and
    that batch count are returned. *)
Lemma get_batchmm_opts_batched (bt : E) (a b : Array E) (c : option (Array E)) :
  (rank a <= 3)%nat → (rank b <= 3)%nat → rank_le3 c →
  rank a = 3%nat ∨ rank b = 3%nat →
  strides_ok a → strides_ok b → (∀ c', c = Some c' → strides_ok c') →
  agree_on bt a b c →
  get_batchmm_opts a b c =
    Ok (Some (mkBatchOpts (stride_of a) (stride_of b)
                          (from_option stride_of sym_zero c) bt)).
Proof.
  intros Ha Hb Hc H3 Sa Sb Sc (Aa & Ab & Ac). unfold get_batchmm_opts.
  rewrite (bool_decide_eq_false_2 (3 < rank a)%nat) by lia.
  rewrite (bool_decide_eq_false_2 (3 < rank b)%nat) by lia.
  assert (match c with Some c0 => bool_decide (3 < rank c0)%nat | None => false end = false) as ->.
  { destruct c as [c0|]; [|done]. simpl in Hc. apply bool_decide_eq_false_2. lia. }
  assert (bool_decide (rank a <= 2)%nat && bool_decide (rank b <= 2)%nat = false) as ->.
  { destruct H3 as [H3|H3]; rewrite H3; [done|]. apply andb_false_r. }
  cbn [orb]. unfold stride_of.
  (* a *)
  assert (∃ ba, (if bool_decide (rank a = 3%nat)
                 then bt0 ← index (shape a) 0; st ← index (strides a) 0; Ok (Some bt0, st)
                 else Ok (None, sym_zero))
                = Ok (ba, if bool_decide (rank a = 3%nat) then leading_stride a else sym_zero)
                ∧ (∀ x, ba = Some x → x = bt)
                ∧ (rank a = 3%nat → ba = Some bt)) as (ba & -> & Hba & Hba3).
  { case_bool_decide as Hra.
    - destruct (index0_shape a Hra) as (s & Hs & ->).
      rewrite (index0_strides a Hra Sa). specialize (Aa Hra). unfold leading in Aa.
      exists (Some s). split; [done|]. split; [|intros _]; congruence.
    - exists None. split; [done|]. split; [congruence|done]. }
  cbn [mbind res_bind].
  (* b *)
  assert (∃ bb, (if bool_decide (rank b = 3%nat)
                 then s ← index (shape b) 0;
                      if batch_differs ba s then Raise (ValueError mismatch_msg)
                      else st ← index (strides b) 0; Ok (Some s, st)
                 else Ok (ba, sym_zero))
                = Ok (bb, if bool_decide (rank b = 3%nat) then leading_stride b else sym_zero)
                ∧ (∀ x, bb = Some x → x = bt)
                ∧ bb = Some bt) as (bb & -> & Hbb & Hbb3).
  { case_bool_decide as Hrb.
    - destruct (index0_shape b Hrb) as (s & Hs & ->).
      specialize (Ab Hrb). unfold leading in Ab. assert (s = bt) as -> by congruence.
      cbn [mbind res_bind]. rewrite (batch_differs_same ba bt Hba).
      rewrite (index0_strides b Hrb Sb). exists (Some bt). split; [done|].
      split; congruence.
    - exists ba. split; [done|]. split; [done|]. destruct H3; [auto|done]. }
  cbn [mbind res_bind]. subst bb.
  destruct c as [c0|]; cbn [from_option]; [|done].
  destruct (decide (rank c0 = 3%nat)) as [Hrc|Hrc];
    [rewrite !(bool_decide_eq_true_2 _ Hrc)
    |rewrite !(bool_decide_eq_false_2 _ Hrc); reflexivity].
  destruct (index0_shape c0 Hrc) as (s & Hs & ->).
  specialize (Ac c0 eq_refl Hrc). unfold leading in Ac. assert (s = bt) as -> by congruence.
  cbn [mbind res_bind]. rewrite (batch_differs_same (Some bt) bt) by congruence.
  by rewrite (index0_strides c0 Hrc (Sc c0 eq_refl)).
Qed.

(** Two operands of rank 3 whose leading dimensions differ are refused when
    the first one has a true value (any size but the integer zero). *)
Lemma get_batchmm_opts_mismatch_ab (a b : Array E) (c : option (Array E)) (x y : E) :
  rank a = 3%nat → rank b = 3%nat → rank_le3 c → strides_ok a →
  leading a = Some x → leading b = Some y → x ≠ y → truthy x = true →
  get_batchmm_opts a b c = Raise (ValueError mismatch_msg).
Proof.
  intros Ha Hb Hc Sa La Lb Hne Ht. unfold get_batchmm_opts.
  rewrite (bool_decide_eq_false_2 (3 < rank a)%nat) by lia.
  rewrite (bool_decide_eq_false_2 (3 < rank b)%nat) by lia.
  assert (match c with Some c0 => bool_decide (3 < rank c0)%nat | None => false end = false) as ->.
  { destruct c as [c0|]; [|done]. simpl in Hc. apply bool_decide_eq_false_2. lia. }
  rewrite (bool_decide_eq_false_2 (rank a <= 2)%nat) by lia. cbn [orb andb].
  rewrite (bool_decide_eq_true_2 _ Ha), (bool_decide_eq_true_2 _ Hb).
  destruct (index0_shape a Ha) as (s & Hs & ->).
  rewrite (index0_strides a Ha Sa). cbn [mbind res_bind].
  destruct (index0_shape b Hb) as (s' & Hs' & ->). cbn [mbind res_bind].
  unfold leading in *. assert (s = x) as -> by congruence. assert (s' = y) as -> by congruence.
  by rewrite (batch_differs_truthy x y Ht Hne).
Qed.

(** The output descriptor of rank 3 is compared with the batch count of the
    operands: a different leading dimension is refused when that batch count
    has a true value. *)
Lemma get_batchmm_opts_mismatch_c (bt y : E) (a b c : Array E) :
  (rank a <= 3)%nat → (rank b <= 3)%nat → rank c = 3%nat →
  rank a = 3%nat ∨ rank b = 3%nat →
  strides_ok a → strides_ok b → agree_on bt a b None →
  leading c = Some y → bt ≠ y → truthy bt = true →
  get_batchmm_opts a b (Some c) = Raise (ValueError mismatch_msg).
Proof.
  intros Ha Hb Hc H3 Sa Sb (Aa & Ab & _) Lc Hne Ht. unfold get_batchmm_opts.
  rewrite (bool_decide_eq_false_2 (3 < rank a)%nat) by lia.
  rewrite (bool_decide_eq_false_2 (3 < rank b)%nat) by lia.
  rewrite (bool_decide_eq_false_2 (3 < rank c)%nat) by lia.
  assert (bool_decide (rank a <= 2)%nat && bool_decide (rank b <= 2)%nat = false) as ->.
  { destruct H3 as [H3|H3]; rewrite H3; [done|]. apply andb_false_r. }
  cbn [orb]. rewrite (bool_decide_eq_true_2 _ Hc).
  destruct (index0_shape c Hc) as (s & Hs & ->).
  unfold leading in *. assert (s = y) as -> by congruence.
  destruct (decide (rank b = 3%nat)) as [Hrb|Hrb].
  - rewrite (bool_decide_eq_true_2 _ Hrb).
    destruct (index0_shape b Hrb) as (s' & Hs' & ->).
    assert (s' = bt) as -> by (specialize (Ab Hrb); congruence).
    rewrite (index0_strides b Hrb Sb).
    destruct (decide (rank a = 3%nat)) as [Hra|Hra].
    + rewrite (bool_decide_eq_true_2 _ Hra).
      destruct (index0_shape a Hra) as (s'' & Hs'' & ->).
      assert (s'' = bt) as -> by (specialize (Aa Hra); congruence).
      rewrite (index0_strides a Hra Sa). cbn [mbind res_bind].
      rewrite (batch_differs_same (Some bt) bt) by congruence.
      cbn [mbind res_bind]. by rewrite (batch_differs_truthy bt y Ht Hne).
    + rewrite (bool_decide_eq_false_2 _ Hra).
      cbn [mbind res_bind batch_differs]. cbn [mbind res_bind batch_differs].
      by rewrite Ht, (bool_decide_eq_true_2 _ Hne).
  - rewrite (bool_decide_eq_false_2 _ Hrb).
    destruct H3 as [Hra|?]; [|done].
    rewrite (bool_decide_eq_true_2 _ Hra).
    destruct (index0_shape a Hra) as (s'' & Hs'' & ->).
    assert (s'' = bt) as -> by (specialize (Aa Hra); congruence).
    rewrite (index0_strides a Hra Sa). cbn [mbind res_bind].
    by rewrite (batch_differs_truthy bt y Ht Hne).
Qed.

(** On descriptors with as many strides as dimensions, the only errors are
    the two [ValueError]s of the routine. *)
Lemma get_batchmm_opts_raises (a b : Array E) (c : option (Array E)) (e : exn) :
  strides_ok a → strides_ok b → (∀ c', c = Some c' → strides_ok c') →
  get_batchmm_opts a b c = Raise e →
  e = ValueError too_large_msg ∨ e = ValueError mismatch_msg.
Proof.
  intros Sa Sb Sc Hr. unfold get_batchmm_opts in Hr.
  destruct (_ || _) in Hr; [injection Hr as <-; by left|].
  destruct (_ && _) in Hr; [done|].
  assert (∃ p, (if bool_decide (rank a = 3%nat)
                then bt0 ← index (shape a) 0; st ← index (strides a) 0; Ok (Some bt0, st)
                else Ok (None, sym_zero)) = Ok p) as [[ba sta] Ha].
  { destruct (decide (rank a = 3%nat)) as [Hra|Hra].
    - rewrite (bool_decide_eq_true_2 _ Hra).
      destruct (index0_shape a Hra) as (s & _ & ->).
      rewrite (index0_strides a Hra Sa). by eexists.
    - rewrite (bool_decide_eq_false_2 _ Hra). by eexists. }
  rewrite Ha in Hr. cbn [mbind res_bind] in Hr.
  destruct (decide (rank b = 3%nat)) as [Hrb|Hrb].
  - rewrite (bool_decide_eq_true_2 _ Hrb) in Hr.
    destruct (index0_shape b Hrb) as (s & _ & Hs). rewrite Hs in Hr.
    cbn [mbind res_bind] in Hr.
    destruct (batch_differs ba s); [injection Hr as <-; by right|].
    rewrite (index0_strides b Hrb Sb) in Hr. cbn [mbind res_bind] in Hr.
    destruct c as [c0|]; [|done].
    destruct (decide (rank c0 = 3%nat)) as [Hrc|Hrc].
    + rewrite (bool_decide_eq_true_2 _ Hrc) in Hr.
      destruct (index0_shape c0 Hrc) as (s' & _ & Hs'). rewrite Hs' in Hr.
      cbn [mbind res_bind] in Hr.
      destruct (batch_differs (Some s) s'); [injection Hr as <-; by right|].
      by rewrite (index0_strides c0 Hrc (Sc c0 eq_refl)) in Hr.
    + by rewrite (bool_decide_eq_false_2 _ Hrc) in Hr.
  - rewrite (bool_decide_eq_false_2 _ Hrb) in Hr. cbn [mbind res_bind] in Hr.
    destruct c as [c0|]; [|by destruct ba].
    destruct (decide (rank c0 = 3%nat)) as [Hrc|Hrc].
    + rewrite (bool_decide_eq_true_2 _ Hrc) in Hr.
      destruct (index0_shape c0 Hrc) as (s' & _ & Hs'). rewrite Hs' in Hr.
      cbn [mbind res_bind] in Hr.
      destruct (batch_differs ba s'); [injection Hr as <-; by right|].
      by rewrite (index0_strides c0 Hrc (Sc c0 eq_refl)) in Hr.
    + rewrite (bool_decide_eq_false_2 _ Hrc) in Hr. by destruct ba.
Qed.

(** C10. With both operands of rank at most 2 the leading dimension of the
    output descriptor is never looked at: an absent output or one of rank up
    to 3 (a rank-3 output included) gives the empty dictionary without an
    error, and no output descriptor at all can cause a batch-size mismatch. *)
Theorem get_batchmm_opts_output_not_inspected (a b : Array E) :
  (rank a <= 2)%nat → (rank b <= 2)%nat →
  (∀ c, rank_le3 c → get_batchmm_opts a b c = Ok None) ∧
  (∀ c, get_batchmm_opts a b c ≠ Raise (ValueError mismatch_msg)).
Proof.
  intros Ha Hb. split.
  - intros c Hc. by apply get_batchmm_opts_matrices.
  - intros c. destruct c as [c0|].
    + destruct (decide (rank c0 <= 3)%nat) as [Hc|Hc].
      * by rewrite (get_batchmm_opts_matrices a b (Some c0) Ha Hb Hc).
      * rewrite get_batchmm_opts_too_large; [discriminate|].
        right; right. exists c0. split; [done|lia].
    + by rewrite (get_batchmm_opts_matrices a b None Ha Hb I).
Qed.

End BatchDetectionFacts.

Section NodeFacts.
Context {E : Type} `{SymExpr E}.
Variable squeezed_size : Range E → list E.
Variable find_input_arraynode : SDFGState E → Edge E → res string.
Variable result_type : typeclass → typeclass → typeclass.

Local Abbreviation validate := (validate squeezed_size).
Local Abbreviation input_sizes := (input_sizes squeezed_size).
Local Abbreviation _get_matmul_inputs :=
  (_get_matmul_inputs squeezed_size find_input_arraynode).
Local Abbreviation make_sdfg :=
  (make_sdfg squeezed_size find_input_arraynode result_type).

(** ** What [validate] accepts *)

(** The nodes on which [validate] returns: two input edges, one into [_a]
    and one into [_b]; one output edge; the arrays of the edges registered
    and accepted by batch detection; squeezed inputs of rank 2 when no batch
    is detected, and otherwise of any rank that has the two last sizes
    [validate] reads; equal contracted sizes; the squeezed output equal to
    [[m; n]], or to [[batch; m; n]] when batched. *)
Definition validate_contract (sdfg : SDFG E) (state : SDFGState E) (self : nat) : Prop :=
  ∃ e0 e1 eo ea eb d0 d1 d2 bopt m k n,
    in_edges (edges state) self = [e0; e1] ∧
    ((ea = e0 ∧ eb = e1) ∨ (ea = e1 ∧ eb = e0)) ∧
    dst_conn ea = Some "_a" ∧ dst_conn eb = Some "_b" ∧
    out_edges (edges state) self = [eo] ∧
    getitem (arrays sdfg) (data (edata e0)) = Ok d0 ∧
    getitem (arrays sdfg) (data (edata e1)) = Ok d1 ∧
    getitem (arrays sdfg) (data (edata eo)) = Ok d2 ∧
    get_batchmm_opts d0 d1 (Some d2) = Ok bopt ∧
    let size_a := squeezed_size (subset (edata ea)) in
    let size_b := squeezed_size (subset (edata eb)) in
    (bopt = None → length size_a = 2%nat ∧ length size_b = 2%nat) ∧
    index_neg size_a 2 = Ok m ∧ index_neg size_a 1 = Ok k ∧
    index_neg size_b 2 = Ok k ∧ index_neg size_b 1 = Ok n ∧
    squeezed_size (subset (edata eo)) =
      match bopt with None => [m; n] | Some o => [opt_b o; m; n] end.

Lemma input_sizes_two (e0 e1 : Edge E) :
  input_sizes [e0; e1] =
    (if bool_decide (dst_conn e1 = Some "_a") then Some (squeezed_size (subset (edata e1)))
     else if bool_decide (dst_conn e0 = Some "_a") then Some (squeezed_size (subset (edata e0)))
     else None,
     if bool_decide (dst_conn e1 = Some "_b") then Some (squeezed_size (subset (edata e1)))
     else if bool_decide (dst_conn e0 = Some "_b") then Some (squeezed_size (subset (edata e0)))
     else None).
Proof. reflexivity. Qed.

Lemma input_sizes_roles (e0 e1 : Edge E) (s0 s1 : list E) :
  local (fst (input_sizes [e0; e1])) = Ok s0 ∧ local (snd (input_sizes [e0; e1])) = Ok s1 ↔
  ∃ ea eb, ((ea = e0 ∧ eb = e1) ∨ (ea = e1 ∧ eb = e0)) ∧
           dst_conn ea = Some "_a" ∧ dst_conn eb = Some "_b" ∧
           s0 = squeezed_size (subset (edata ea)) ∧
           s1 = squeezed_size (subset (edata eb)).
Proof.
  rewrite input_sizes_two. cbn [fst snd]. split.
  - intros [Ha Hb].
    repeat case_bool_decide; simplify_eq/=;
      try congruence;
      [exists e0, e1 | exists e1, e0]; naive_solver.
  - intros (ea & eb & [[-> ->]|[-> ->]] & Ha & Hb & -> & ->);
      repeat case_bool_decide; simplify_eq/=; try congruence; done.
Qed.

(** A node in order: its two input edges, when it has two, go into [_a]
    and [_b]; the arrays of its edges are registered, with as many strides
    as dimensions; the squeezed input subsets have two dimensions or more. *)
Definition regular (sdfg : SDFG E) (state : SDFGState E) (self : nat) : Prop :=
  (∀ e0 e1, in_edges (edges state) self = [e0; e1] →
            ∃ ea eb, ((ea = e0 ∧ eb = e1) ∨ (ea = e1 ∧ eb = e0)) ∧
                     dst_conn ea = Some "_a" ∧ dst_conn eb = Some "_b") ∧
  (∀ e, e ∈ in_edges (edges state) self ++ out_edges (edges state) self →
        ∃ d, getitem (arrays sdfg) (data (edata e)) = Ok d ∧ strides_ok d) ∧
  (∀ e, e ∈ in_edges (edges state) self →
        (2 <= length (squeezed_size (subset (edata e))))%nat).

(** On a node in order, what [validate] raises is a [ValueError]. *)
Lemma validate_raises_value_error (sdfg : SDFG E) (state : SDFGState E) (self : nat)
    (e : exn) :
  regular sdfg state self → validate sdfg state self = Raise e →
  ∃ msg, e = ValueError msg.
Proof.
  intros (Hroles & Hreg & Hrank) Hv. unfold MatMul.validate in Hv.
  case_bool_decide as Hlen; [injection Hv as <-; by eexists|].
  destruct (in_edges (edges state) self) as [|e0 [|e1 [|? ?]]] eqn:Hins;
    try discriminate Hlen.
  clear Hlen. destruct (Hroles e0 e1 eq_refl) as (ea & eb & Hab & Hra & Hrb).
  destruct (proj2 (input_sizes_roles e0 e1 (squeezed_size (subset (edata ea)))
                     (squeezed_size (subset (edata eb))))) as [Hs0 Hs1].
  { exists ea, eb. repeat (split; [done|]). done. }
  assert ((2 <= length (squeezed_size (subset (edata ea))))%nat ∧
          (2 <= length (squeezed_size (subset (edata eb))))%nat) as [Hla Hlb].
  { split; apply Hrank; destruct Hab as [[-> ->]|[-> ->]];
      repeat constructor. }
  destruct (MatMul.input_sizes squeezed_size [e0; e1]) as [size0 size1].
  cbn [fst snd] in Hs0, Hs1.
  case_bool_decide as Hlen; [injection Hv as <-; by eexists|].
  destruct (out_edges (edges state) self) as [|eo [|? ?]] eqn:Houts;
    try discriminate Hlen.
  clear Hlen. cbn [index lookup list_lookup mbind res_bind] in Hv.
  destruct (Hreg e0) as (d0 & Hd0 & Sd0); [repeat constructor|].
  destruct (Hreg e1) as (d1 & Hd1 & Sd1); [repeat constructor|].
  destruct (Hreg eo) as (d2 & Hd2 & Sd2); [repeat constructor|].
  rewrite Hd0, Hd1, Hd2 in Hv. cbn [mbind res_bind] in Hv.
  destruct (get_batchmm_opts d0 d1 (Some d2)) as [bopt|e'] eqn:Hb.
  2:{ injection Hv as <-.
      destruct (get_batchmm_opts_raises d0 d1 (Some d2) e' Sd0 Sd1) as [->| ->];
        [by intros ? [= <-]|done| |]; by eexists. }
  cbn [mbind res_bind] in Hv. rewrite Hs0, Hs1 in Hv. cbn [mbind res_bind] in Hv.
  destruct (index_neg_ok (squeezed_size (subset (edata ea))) 1) as [k0 Hk0]; [lia|].
  destruct (index_neg_ok (squeezed_size (subset (edata ea))) 2) as [m Hm]; [lia|].
  destruct (index_neg_ok (squeezed_size (subset (edata eb))) 2) as [k1 Hk1]; [lia|].
  destruct (index_neg_ok (squeezed_size (subset (edata eb))) 1) as [n Hn]; [lia|].
  rewrite Hk0, Hk1, Hm, Hn in Hv.
  repeat (first [ discriminate Hv
                | injection Hv as <-; by eexists
                | case_bool_decide
                | destruct bopt
                | progress cbn [mbind res_bind] in Hv ]).
Qed.

(** [validate] returns exactly on the nodes of [validate_contract]; on
    every other node it raises, and on a node in order what it raises is a
    [ValueError]. *)
Lemma validate_succeeds_iff_contract (sdfg : SDFG E) (state : SDFGState E) (self : nat) :
  (validate sdfg state self = Ok () ↔ validate_contract sdfg state self) ∧
  (¬ validate_contract sdfg state self → ∃ e, validate sdfg state self = Raise e) ∧
  (regular sdfg state self → ¬ validate_contract sdfg state self →
   ∃ msg, validate sdfg state self = Raise (ValueError msg)).
Proof.
  assert (validate sdfg state self = Ok () ↔ validate_contract sdfg state self) as Hiff.
  { split.
    - unfold validate. intros Hv.
      case_bool_decide as Hlen; [discriminate|].
      destruct (in_edges (edges state) self) as [|e0 [|e1 [|? ?]]] eqn:Hins;
        try discriminate Hlen.
      clear Hlen.
      destruct (input_sizes [e0; e1]) as [size0 size1] eqn:Hsz.
      case_bool_decide as Hlen; [discriminate|].
      destruct (out_edges (edges state) self) as [|eo [|? ?]] eqn:Houts;
        try discriminate Hlen.
      clear Hlen. cbn [index lookup list_lookup mbind res_bind] in Hv.
      apply bind_ok in Hv as (d0 & Hd0 & Hv).
      apply bind_ok in Hv as (d1 & Hd1 & Hv).
      apply bind_ok in Hv as (d2 & Hd2 & Hv).
      apply bind_ok in Hv as (bopt & Hb & Hv).
      apply bind_ok in Hv as ([] & Hrk & Hv).
      apply bind_ok in Hv as (s0 & Hs0 & Hv).
      apply bind_ok in Hv as (k0 & Hk0 & Hv).
      apply bind_ok in Hv as (s1 & Hs1 & Hv).
      apply bind_ok in Hv as (k1 & Hk1 & Hv).
      case_bool_decide as Hk; [discriminate|]. subst k1.
      case_bool_decide as Hl2; [discriminate|]. clear Hl2.
      destruct (proj1 (input_sizes_roles e0 e1 s0 s1)) as
        (ea & eb & Hab & Hra & Hrb & -> & ->).
      { by rewrite Hsz. }
      assert (∃ m n, index_neg (squeezed_size (subset (edata ea))) 2 = Ok m ∧
                     index_neg (squeezed_size (subset (edata eb))) 1 = Ok n ∧
                     squeezed_size (subset (edata eo)) =
                       match bopt with None => [m; n] | Some o => [opt_b o; m; n] end)
        as (m & n & Hm & Hn & Hout).
      { destruct bopt as [o|];
          apply bind_ok in Hv as (m & Hm & Hv);
          apply bind_ok in Hv as (n & Hn & Hv);
          case_bool_decide as Ho; try discriminate;
          exists m, n; done. }
      exists e0, e1, eo, ea, eb, d0, d1, d2, bopt, m, k0, n.
      repeat (split; [done|]). cbn zeta. split; [|done].
      intros ->. rewrite bool_decide_eq_true_2 in Hrk by done.
      rewrite Hs0 in Hrk. cbn [mbind res_bind] in Hrk.
      case_bool_decide as Hl0; [discriminate|].
      rewrite Hs1 in Hrk. cbn [mbind res_bind] in Hrk.
      case_bool_decide as Hl1; [discriminate|]. done.
    - intros (e0 & e1 & eo & ea & eb & d0 & d1 & d2 & bopt & m & k & n &
              Hins & Hab & Hra & Hrb & Houts & Hd0 & Hd1 & Hd2 & Hb & Hrest).
      cbn zeta in Hrest. destruct Hrest as (Hrk & Hm & Hk & Hk' & Hn & Hout).
      destruct (proj2 (input_sizes_roles e0 e1 (squeezed_size (subset (edata ea)))
                         (squeezed_size (subset (edata eb))))) as [Hs0 Hs1].
      { exists ea, eb. repeat (split; [done|]). done. }
      unfold validate. rewrite Hins, Houts.
      destruct (input_sizes [e0; e1]) as [size0 size1]. cbn [fst snd] in Hs0, Hs1.
      cbn [length index lookup list_lookup mbind res_bind].
      rewrite !bool_decide_eq_false_2 by (intros ?; congruence).
      rewrite Hd0. cbn [mbind res_bind]. rewrite Hd1. cbn [mbind res_bind].
      rewrite Hd2. cbn [mbind res_bind]. rewrite Hb. cbn [mbind res_bind].
      rewrite Hs0, Hs1. cbn [mbind res_bind]. rewrite Hk, Hk', Hm, Hn, Hout.
      cbn [mbind res_bind].
      destruct bopt as [o|].
      + rewrite (bool_decide_eq_false_2 (Some o = None)) by done.
        cbn [mbind res_bind length].
        rewrite !bool_decide_eq_false_2 by (simpl; intuition (congruence || lia)). done.
      + destruct (Hrk eq_refl) as [-> ->].
        rewrite (bool_decide_eq_true_2 (None = None)) by done.
        cbn [mbind res_bind length].
        rewrite !bool_decide_eq_false_2 by (simpl; intuition (congruence || lia)). done. }
  split; [done|]. split.
  - intros Hn. destruct (validate sdfg state self) as [[]|e] eqn:Hv.
    + destruct Hn. by apply Hiff.
    + by exists e.
  - intros Hreg Hn. destruct (validate sdfg state self) as [[]|e] eqn:Hv.
    + destruct Hn. by apply Hiff.
    + destruct (validate_raises_value_error sdfg state self e Hreg Hv) as [msg ->].
      by exists msg.
Qed.

(** ** The portable expansion *)

Definition pure_sdfg (node_label : string) (m k n : E)
    (dtype_a dtype_b : typeclass) (st : StorageType) : PureSDFG :=
  mkPureSDFG (node_label +:+ "_sdfg") (node_label +:+ "_state")
    [("_a", add_array [m; k] dtype_a st);
     ("_b", add_array [k; n] dtype_b st);
     ("_c", add_array [m; n] (result_type dtype_a dtype_b) st)]
    (mkMappedTasklet "_MatMult_"
       [("__i0", m); ("__i1", n); ("__i2", k)]
       [("__a", ("_a", "__i0, __i2")); ("__b", ("_b", "__i2, __i1"))]
       "__c = __a * __b"
       [("__c", ("_c", "__i0, __i1"))]
       "lambda x, y: x + y" 0).

(** The descriptor registered under [name] in the built SDFG. *)
Definition p_array (p : PureSDFG) (name : string) : option (Array E) :=
  snd <$> (snd <$> list_find (λ q, fst q = name) (p_arrays p)).

(** What [make_sdfg] does with the two inputs it found: the shapes it
    compares are the pairs of the last two sizes, whatever the ranks were. *)
Lemma make_sdfg_from_inputs (node : nat) (lbl : string) (st : SDFGState E) (sd : SDFG E)
    (ea eb : Edge E) (A B : Array E) (m k k' n : E) :
  _get_matmul_inputs node st sd = Ok ((ea, A, (m, k)), (eb, B, (k', n))) →
  make_sdfg node lbl st sd =
    if bool_decide (k ≠ k') then Raise (SyntaxError sizes_msg)
    else if bool_decide (storage A ≠ storage B) then Raise (ValueError storage_msg)
    else Ok (pure_sdfg lbl m k n (dtype A) (dtype B) (storage A)).
Proof.
  intros Hin. unfold make_sdfg. rewrite Hin. cbn [mbind res_bind fst snd length].
  destruct (decide (k = k')) as [<-|Hk].
  - rewrite !(bool_decide_eq_false_2 (k ≠ k)) by tauto.
    rewrite bool_decide_eq_false_2 by (intros [?|[?|?]]; congruence).
    by case_bool_decide.
  - rewrite !(bool_decide_eq_true_2 (k ≠ k')) by done.
    rewrite bool_decide_eq_true_2; [done|]. auto.
Qed.

(** The inputs found on a node with one edge into [_a] followed by one edge
    into [_b]: the last two squeezed sizes of each, when there are two. *)
Lemma _get_matmul_inputs_two (node : nat) (st : SDFGState E) (sd : SDFG E)
    (ea eb : Edge E) (na nb : string) (A B : Array E) (m k k' n : E) :
  in_edges (edges st) node = [ea; eb] →
  dst_conn ea = Some "_a" → dst_conn eb = Some "_b" →
  find_input_arraynode st ea = Ok na → find_input_arraynode st eb = Ok nb →
  arrays sd !! na = Some A → arrays sd !! nb = Some B →
  index_neg (squeezed_size (subset (edata ea))) 2 = Ok m →
  index_neg (squeezed_size (subset (edata ea))) 1 = Ok k →
  index_neg (squeezed_size (subset (edata eb))) 2 = Ok k' →
  index_neg (squeezed_size (subset (edata eb))) 1 = Ok n →
  _get_matmul_inputs node st sd = Ok ((ea, A, (m, k)), (eb, B, (k', n))).
Proof.
  intros Hin Ha Hb Hfa Hfb HA HB Hm Hk Hk' Hn.
  unfold _get_matmul_inputs. rewrite Hin. cbn [foldl mbind res_bind].
  rewrite (bool_decide_eq_true_2 (dst_conn ea = Some "_a" ∨ _)) by auto.
  rewrite Hfa. cbn [mbind res_bind]. rewrite (getitem_Some _ _ _ HA).
  cbn [mbind res_bind]. rewrite Hm, Hk. cbn [mbind res_bind].
  rewrite (bool_decide_eq_true_2 _ Ha).
  rewrite (bool_decide_eq_true_2 (dst_conn eb = Some "_a" ∨ _)) by auto.
  rewrite Hfb. cbn [mbind res_bind]. rewrite (getitem_Some _ _ _ HB).
  cbn [mbind res_bind]. rewrite Hk', Hn. cbn [mbind res_bind].
  rewrite bool_decide_eq_false_2; [done|]. rewrite Hb. discriminate.
Qed.

(** Inputs of squeezed shapes [(m, k)] and [(k, n)] on arrays of one storage
    class: the output descriptor [_c] of the built SDFG has shape [(m, n)]. *)
Lemma make_sdfg_output_shape (node : nat) (lbl : string) (st : SDFGState E) (sd : SDFG E)
    (ea eb : Edge E) (na nb : string) (A B : Array E) (m k n : E) :
  in_edges (edges st) node = [ea; eb] →
  dst_conn ea = Some "_a" → dst_conn eb = Some "_b" →
  find_input_arraynode st ea = Ok na → find_input_arraynode st eb = Ok nb →
  arrays sd !! na = Some A → arrays sd !! nb = Some B →
  squeezed_size (subset (edata ea)) = [m; k] →
  squeezed_size (subset (edata eb)) = [k; n] →
  storage A = storage B →
  ∃ p, make_sdfg node lbl st sd = Ok p ∧ shape <$> p_array p "_c" = Some [m; n].
Proof.
  intros Hin Ha Hb Hfa Hfb HA HB Hsa Hsb Hst.
  rewrite (make_sdfg_from_inputs node lbl st sd ea eb A B m k k n).
  - rewrite bool_decide_eq_false_2 by tauto.
    rewrite bool_decide_eq_false_2 by tauto.
    eexists. split; [done|]. reflexivity.
  - eapply _get_matmul_inputs_two; eauto; rewrite ?Hsa, ?Hsb; reflexivity.
Qed.

(** Unequal inner sizes, or different storage classes, are refused. *)
Lemma make_sdfg_refuses (node : nat) (lbl : string) (st : SDFGState E) (sd : SDFG E)
    (ea eb : Edge E) (A B : Array E) (m k k' n : E) :
  _get_matmul_inputs node st sd = Ok ((ea, A, (m, k)), (eb, B, (k', n))) →
  (k ≠ k' → make_sdfg node lbl st sd = Raise (SyntaxError sizes_msg)) ∧
  (k = k' → storage A ≠ storage B →
   make_sdfg node lbl st sd = Raise (ValueError storage_msg)).
Proof.
  intros Hin. rewrite (make_sdfg_from_inputs _ _ _ _ _ _ _ _ _ _ _ _ Hin). split.
  - intros Hk. by rewrite bool_decide_eq_true_2.
  - intros -> Hs. rewrite bool_decide_eq_false_2 by tauto.
    by rewrite bool_decide_eq_true_2.
Qed.

End NodeFacts.

(** Concrete descriptors with integer sizes. *)
Definition array_of (shp str : list Z) : Array Z :=
  mkArray shp str (const 0 <$> shp) (foldr Z.mul 1 shp) float32 Default false.

Definition a_2x3 : Array Z := array_of [2; 3] [3; 1].
Definition b_3x4 : Array Z := array_of [3; 4] [4; 1].
Definition c_5x2x4 : Array Z := array_of [5; 2; 4] [8; 4; 1].
Definition a_0x2x2 : Array Z := array_of [0; 2; 2] [4; 2; 1].
Definition b_5x2x2 : Array Z := array_of [5; 2; 2] [4; 2; 1].

Lemma get_batchmm_opts_output_not_inspected_witness :
  get_batchmm_opts a_2x3 b_3x4 (Some c_5x2x4) = Ok None.
Proof.
  apply (proj1 (get_batchmm_opts_output_not_inspected a_2x3 b_3x4
                  ltac:(vm_compute; lia) ltac:(vm_compute; lia))).
  vm_compute. lia.
Defined.

(** *** A node on integer sizes *)

(** Modelled from the spec: the subset operations [squeeze] and [size], which
    the translated sources call but do not define ("trivial-size-1 dimension
    removal"): the number of elements of each [(start, end, step)] range,
    without the dimensions of size 1. *)
Definition range_size (r : Z * Z * Z) : Z :=
  let '(b, e, st) := r in (e - b + st) `div` st.

Definition squeezed_size_Z (r : Range Z) : list Z :=
  filter (λ d, d ≠ 1) (range_size <$> r).

(** The array read through an edge that leaves an access node directly. *)
Definition find_input_direct (st : SDFGState Z) (e : Edge Z) : res string :=
  match node st (src e) with
  | Some (AccessNode d) => Ok d
  | _ => Raise RuntimeError
  end.

(** [np.result_type] on equal element types is that type. *)
Definition result_type_np (t1 t2 : typeclass) : typeclass :=
  if decide (t1 = t2) then t1 else float64.

Definition full_range (shp : list Z) : Range Z := (λ d, (0, d - 1, 1)) <$> shp.

(** [A @ B -> C] with one library node (handle 2) between access nodes. *)
Definition matmul_state (sa sb sc : list Z) : SDFGState Z :=
  mkState
    [(0%nat, AccessNode "A"); (1%nat, AccessNode "B");
     (2%nat, LibraryNode "mm" (Some float32)); (3%nat, AccessNode "C")]
    [mkEdge 0 None 2 (Some "_a") (mkMemlet (Some "A") (full_range sa));
     mkEdge 1 None 2 (Some "_b") (mkMemlet (Some "B") (full_range sb));
     mkEdge 2 (Some "_c") 3 None (mkMemlet (Some "C") (full_range sc))]
    ∅ ∅.

Definition matmul_sdfg (a b c : Array Z) : SDFG Z :=
  mkSDFG [] (<["A" := a]> (<["B" := b]> (<["C" := c]> ∅))).

Definition A_2x3x4 : Array Z := array_of [2; 3; 4] [12; 4; 1].
Definition B_2x4x5 : Array Z := array_of [2; 4; 5] [20; 5; 1].
Definition C_2x3x5 : Array Z := array_of [2; 3; 5] [15; 5; 1].
Definition C_2x4 : Array Z := array_of [2; 4] [4; 1].

Example validate_2x3_3x4 :
  validate squeezed_size_Z (matmul_sdfg a_2x3 b_3x4 C_2x4)
           (matmul_state [2; 3] [3; 4] [2; 4]) 2 = Ok ().
Proof. vm_compute. reflexivity. Qed.

Example validate_k_mismatch :
  validate squeezed_size_Z (matmul_sdfg a_2x3 a_2x3 C_2x4)
           (matmul_state [2; 3] [2; 3] [2; 4]) 2 = Raise (ValueError k_dim_msg).
Proof. vm_compute. reflexivity. Qed.

Example make_sdfg_2x3_3x4 :
  make_sdfg squeezed_size_Z find_input_direct result_type_np 2 "mm"
            (matmul_state [2; 3] [3; 4] [2; 4]) (matmul_sdfg a_2x3 b_3x4 C_2x4)
  = Ok (pure_sdfg result_type_np "mm" 2 3 4 float32 float32 Default).
Proof. vm_compute. reflexivity. Qed.

(** C6. Inputs whose squeezed subsets have rank 3 (batched arrays
    [2x3x4] and [2x4x5]): validation passes, and the portable expansion
    raises nothing; it builds the SDFG of a [3x4] by [4x5] product with an
    output [_c] of shape [(3, 5)].  [_get_matmul_inputs] keeps the last two
    sizes only, so the rank test of [make_sdfg] never fires. *)
Theorem pure_expansion_rank3_inputs_not_refused :
  let st := matmul_state [2; 3; 4] [2; 4; 5] [2; 3; 5] in
  let sd := matmul_sdfg A_2x3x4 B_2x4x5 C_2x3x5 in
  (squeezed_size_Z <$> (subset <$> (edata <$> in_edges (edges st) 2)))
    = [[2; 3; 4]; [2; 4; 5]] ∧
  validate squeezed_size_Z sd st 2 = Ok () ∧
  make_sdfg squeezed_size_Z find_input_direct result_type_np 2 "mm" st sd
    = Ok (pure_sdfg result_type_np "mm" 3 4 5 float32 float32 Default) ∧
  expansion squeezed_size_Z find_input_direct result_type_np 2 st sd
    = Ok (pure_sdfg result_type_np "mm" 3 4 5 float32 float32 Default) ∧
  shape <$> p_array (pure_sdfg result_type_np "mm" 3 4 5 float32 float32 Default) "_c"
    = Some [3; 5].
Proof.
  cbv zeta. repeat split; vm_compute; reflexivity.
Qed.

(** C1. Two operands of rank 3 whose leading dimensions are 0 and 5: no error
    is raised and 5 is returned as the batch count.  The test
    [if batch and batch != b.shape[0]] reads a batch count of zero as
    "no batch seen yet". *)
Theorem get_batchmm_opts_zero_batch_not_compared :
  leading a_0x2x2 = Some 0 ∧ leading b_5x2x2 = Some 5 ∧
  rank a_0x2x2 = 3%nat ∧ rank b_5x2x2 = 3%nat ∧
  get_batchmm_opts a_0x2x2 b_5x2x2 None = Ok (Some (mkBatchOpts 4 4 0 5)).
Proof.
  repeat split; vm_compute; reflexivity.
Qed.

(** ** Outcomes of batch detection *)

Section BatchOutcome.
Context {E : Type} `{SymExpr E}.

(** The leading dimension of a descriptor of rank 3. *)
Definition leading3 (d : Array E) : option E :=
  if bool_decide (rank d = 3%nat) then leading d else None.

Definition first_some (x y : option E) : option E :=
  match x with Some _ => x | None => y end.

(** The batch count that is kept: that of the output when it has rank 3,
    else that of [b], else that of [a]. *)
Definition last_batch (a b : Array E) (c : option (Array E)) : option E :=
  first_some (c ≫= leading3) (first_some (leading3 b) (leading3 a)).

Ltac decide_ranks :=
  repeat match goal with
         | Hr : context [bool_decide ?P] |- _ =>
           first [ rewrite (bool_decide_eq_true_2 P) in Hr by (simpl; lia)
                 | rewrite (bool_decide_eq_false_2 P) in Hr by (simpl; lia) ]
         | |- context [bool_decide ?P] =>
           first [ rewrite (bool_decide_eq_true_2 P) by (simpl; lia)
                 | rewrite (bool_decide_eq_false_2 P) by (simpl; lia) ]
         end.

Ltac split_shape d :=
  let s := fresh "shp" in
  let t := fresh "str" in
  destruct d as [s t ? ? ? ? ?];
  destruct s as [|? [|? [|? [|? ?]]]];
  destruct t as [|? ?].

(** X1.  What [get_batchmm_opts] returns when it returns: no descriptor has a
    rank above 3; the result is the empty dictionary exactly when both
    operands have rank at most 2; otherwise the strides are the leading
    strides of the descriptors of rank 3 (0 for the others, and for an
    absent output), and the batch count is the leading dimension of the
    last descriptor of rank 3 among [a], [b], [c]. *)
Theorem get_batchmm_opts_returns (a b : Array E) (c : option (Array E))
    (r : option (BatchOpts E)) :
  get_batchmm_opts a b c = Ok r →
  ((rank a <= 3)%nat ∧ (rank b <= 3)%nat ∧ rank_le3 c) ∧
  (r = None ↔ (rank a <= 2)%nat ∧ (rank b <= 2)%nat) ∧
  (∀ o, r = Some o →
        Some (opt_b o) = last_batch a b c ∧
        opt_sa o = stride_of a ∧ opt_sb o = stride_of b ∧
        opt_sc o = from_option stride_of sym_zero c).
Proof.
  unfold get_batchmm_opts, last_batch, first_some, leading3, stride_of, leading_stride,
    leading, rank_le3, rank, index.
  intros Hr. split_shape a; split_shape b; (destruct c as [c|]; [split_shape c|]);
    cbn [shape strides length lookup list_lookup mbind res_bind option_bind
         from_option default orb andb] in *;
    decide_ranks;
    cbn [shape strides length lookup list_lookup mbind res_bind option_bind
         from_option default orb andb] in *;
    try discriminate Hr;
    repeat match type of Hr with
           | context [batch_differs ?x ?y] =>
             destruct (batch_differs x y); cbn [mbind res_bind] in Hr
           end;
    cbn [mbind res_bind] in Hr; try discriminate Hr;
    injection Hr as <-;
    (split; [repeat split; lia|]);
    (split; [split; [first [discriminate | intros _; split; lia]
                   | first [reflexivity | intros [? ?]; lia]]|]);
    intros o Ho; first [discriminate Ho | injection Ho as <-; repeat split].
Qed.

(** X2.  The errors of [get_batchmm_opts] on descriptors with as many strides as
    dimensions.  The size error is raised exactly when some descriptor has
    a rank above 3.  Every other error is the mismatch error, and it is
    raised only when two descriptors of rank 3 differ in their leading
    dimension: [a] and [b], or the output and the operand whose batch
    count was kept. *)
Theorem get_batchmm_opts_errors (a b : Array E) (c : option (Array E)) :
  strides_ok a → strides_ok b → (∀ c', c = Some c' → strides_ok c') →
  (get_batchmm_opts a b c = Raise (ValueError too_large_msg) ↔
   (3 < rank a)%nat ∨ (3 < rank b)%nat ∨ ∃ c', c = Some c' ∧ (3 < rank c')%nat) ∧
  (∀ e, get_batchmm_opts a b c = Raise e →
        e = ValueError too_large_msg ∨
        (e = ValueError mismatch_msg ∧
         ∃ x y, x ≠ y ∧ truthy x = true ∧
                ((leading3 a = Some x ∧ leading3 b = Some y)
                 ∨ (∃ c', c = Some c' ∧ leading3 c' = Some y ∧
                          first_some (leading3 b) (leading3 a) = Some x)))).
Proof.
  intros Sa Sb Sc.
  assert (∀ e, get_batchmm_opts a b c = Raise e →
        e = ValueError too_large_msg ∧
        ((3 < rank a)%nat ∨ (3 < rank b)%nat ∨ ∃ c', c = Some c' ∧ (3 < rank c')%nat) ∨
        (e = ValueError mismatch_msg ∧
         ∃ x y, x ≠ y ∧ truthy x = true ∧
                ((leading3 a = Some x ∧ leading3 b = Some y)
                 ∨ (∃ c', c = Some c' ∧ leading3 c' = Some y ∧
                          first_some (leading3 b) (leading3 a) = Some x)))) as Hcases.
  { intros e Hr. revert Hr.
    unfold get_batchmm_opts, first_some, leading3, leading, rank, index, batch_differs.
    unfold strides_ok in *.
    assert (match c with Some c' => length (strides c') = length (shape c') | None => True end)
      as Sc'.
    { destruct c as [c'|]; [by apply Sc|done]. }
    clear Sc. intros Hr.
    split_shape a; split_shape b; (destruct c as [c|]; [split_shape c|]);
      cbn [shape strides length lookup list_lookup mbind res_bind orb andb] in *;
      try discriminate Sa; try discriminate Sb; try discriminate Sc';
      decide_ranks;
      cbn [shape strides length lookup list_lookup mbind res_bind orb andb] in *;
      try discriminate Hr;
      try (injection Hr as <-; left; split; [reflexivity|];
           first [ left; simpl; lia | right; left; simpl; lia
                 | right; right; eexists; split; [reflexivity|simpl; lia] ]);
      repeat match type of Hr with
             | context [truthy ?x && bool_decide (?x ≠ ?y)] =>
               let Ht := fresh "Ht" in
               let Hd := fresh "Hd" in
               destruct (truthy x) eqn:Ht; cbn [andb] in Hr;
               [destruct (decide (x ≠ y)) as [Hd|Hd];
                [rewrite (bool_decide_eq_true_2 _ Hd) in Hr
                |rewrite (bool_decide_eq_false_2 _ Hd) in Hr]|];
               cbn [mbind res_bind] in Hr
             end;
      cbn [mbind res_bind] in Hr; try discriminate Hr;
      injection Hr as <-; right; (split; [reflexivity|]);
      eexists _, _; (split; [eassumption|]); (split; [eassumption|]);
      first [ left; split; reflexivity
            | right; eexists; split; [reflexivity|]; split; reflexivity ]. }
  split.
  - split.
    + intros Hr. destruct (Hcases _ Hr) as [[_ Hbig]|[Hmsg _]]; [done|].
      unfold too_large_msg, mismatch_msg in Hmsg. discriminate Hmsg.
    + by apply get_batchmm_opts_too_large.
  - intros e Hr. destruct (Hcases e Hr) as [[-> _]|Hm]; [by left|by right].
Qed.

End BatchOutcome.

Lemma get_batchmm_opts_returns_witness :
  ((rank a_2x3 <= 3)%nat ∧ (rank b_5x2x2 <= 3)%nat ∧ rank_le3 (Some c_5x2x4)) ∧
  (Some (mkBatchOpts 0 4 8 5) = None ↔ (rank a_2x3 <= 2)%nat ∧ (rank b_5x2x2 <= 2)%nat) ∧
  (∀ o, Some (mkBatchOpts 0 4 8 5) = Some o →
        Some (opt_b o) = last_batch a_2x3 b_5x2x2 (Some c_5x2x4) ∧
        opt_sa o = stride_of a_2x3 ∧ opt_sb o = stride_of b_5x2x2 ∧
        opt_sc o = from_option stride_of sym_zero (Some c_5x2x4)).
Proof.
  apply (get_batchmm_opts_returns a_2x3 b_5x2x2 (Some c_5x2x4)).
  vm_compute. reflexivity.
Defined.

Lemma get_batchmm_opts_errors_witness :
  (get_batchmm_opts a_2x3 b_5x2x2 (Some c_5x2x4) = Raise (ValueError too_large_msg) ↔
   (3 < rank a_2x3)%nat ∨ (3 < rank b_5x2x2)%nat
   ∨ ∃ c', Some c_5x2x4 = Some c' ∧ (3 < rank c')%nat) ∧
  (∀ e, get_batchmm_opts a_2x3 b_5x2x2 (Some c_5x2x4) = Raise e →
        e = ValueError too_large_msg ∨
        (e = ValueError mismatch_msg ∧
         ∃ x y, x ≠ y ∧ truthy x = true ∧
                ((leading3 a_2x3 = Some x ∧ leading3 b_5x2x2 = Some y)
                 ∨ (∃ c', Some c_5x2x4 = Some c' ∧ leading3 c' = Some y ∧
                          first_some (leading3 b_5x2x2) (leading3 a_2x3) = Some x)))).
Proof.
  apply (get_batchmm_opts_errors a_2x3 b_5x2x2 (Some c_5x2x4)).
  - reflexivity.
  - reflexivity.
  - intros c' [= <-]. reflexivity.
Defined.

(** ** Nodes that are not wired as a product *)

Section NodeOutcome.
Context {E : Type} `{SymExpr E}.
Variable squeezed_size : Range E → list E.
Variable find_input_arraynode : SDFGState E → Edge E → res string.
Variable result_type : typeclass → typeclass → typeclass.

Local Abbreviation validate := (validate squeezed_size).
Local Abbreviation input_sizes := (input_sizes squeezed_size).
Local Abbreviation _get_matmul_inputs :=
  (_get_matmul_inputs squeezed_size find_input_arraynode).
Local Abbreviation make_sdfg :=
  (make_sdfg squeezed_size find_input_arraynode result_type).
Local Abbreviation expansion :=
  (expansion squeezed_size find_input_arraynode result_type).

(** X3.  A node with two input edges and one output edge on registered arrays
    that batch detection accepts, but without an edge into [_a]: [validate]
    reads [size0] before any assignment to it, so what it raises is an
    [UnboundLocalError], not the [ValueError] of a failed validation.  The
    same holds without an edge into [_b], when the input that goes into
    [_a] has two squeezed dimensions. *)
Theorem validate_missing_role_unbound (sdfg : SDFG E) (state : SDFGState E) (self : nat)
    (e0 e1 eo : Edge E) (d0 d1 d2 : Array E) (bopt : option (BatchOpts E)) :
  in_edges (edges state) self = [e0; e1] →
  out_edges (edges state) self = [eo] →
  getitem (arrays sdfg) (data (edata e0)) = Ok d0 →
  getitem (arrays sdfg) (data (edata e1)) = Ok d1 →
  getitem (arrays sdfg) (data (edata eo)) = Ok d2 →
  get_batchmm_opts d0 d1 (Some d2) = Ok bopt →
  (dst_conn e0 ≠ Some "_a" ∧ dst_conn e1 ≠ Some "_a")
  ∨ (dst_conn e0 ≠ Some "_b" ∧ dst_conn e1 ≠ Some "_b" ∧
     ∃ ea, (ea = e1 ∨ (ea = e0 ∧ dst_conn e1 ≠ Some "_a")) ∧
           dst_conn ea = Some "_a" ∧
           length (squeezed_size (subset (edata ea))) = 2%nat) →
  validate sdfg state self = Raise UnboundLocalError.
Proof.
  intros Hin Hout H0 H1 H2 Hb Hroles. unfold MatMul.validate.
  rewrite Hin, Hout. cbn [length].
  rewrite (bool_decide_eq_false_2 (2 ≠ 2)%nat) by lia.
  rewrite input_sizes_two.
  rewrite (bool_decide_eq_false_2 (1 ≠ 1)%nat) by lia.
  cbn [index lookup list_lookup mbind res_bind]. rewrite H0, H1, H2.
  cbn [mbind res_bind]. rewrite Hb. cbn [mbind res_bind].
  destruct Hroles as [[Ha0 Ha1]|(Hb0 & Hb1 & ea & Hea & Hconn & Hlen)].
  - rewrite (bool_decide_eq_false_2 _ Ha0), (bool_decide_eq_false_2 _ Ha1).
    by destruct bopt.
  - rewrite (bool_decide_eq_false_2 _ Hb0), (bool_decide_eq_false_2 _ Hb1).
    assert ((if bool_decide (dst_conn e1 = Some "_a")
             then Some (squeezed_size (subset (edata e1)))
             else if bool_decide (dst_conn e0 = Some "_a")
                  then Some (squeezed_size (subset (edata e0))) else None)
            = Some (squeezed_size (subset (edata ea)))) as ->.
    { destruct Hea as [->|[-> Hne]].
      - by rewrite (bool_decide_eq_true_2 _ Hconn).
      - by rewrite (bool_decide_eq_false_2 _ Hne), (bool_decide_eq_true_2 _ Hconn). }
    destruct (index_neg_ok (squeezed_size (subset (edata ea))) 1) as [k Hk]; [lia|].
    destruct bopt as [o|].
    + rewrite (bool_decide_eq_false_2 (Some o = None)) by done.
      cbn [local mbind res_bind]. rewrite Hk. reflexivity.
    + rewrite (bool_decide_eq_true_2 (None = None)) by done.
      cbn [local mbind res_bind].
      rewrite (bool_decide_eq_false_2 (length _ ≠ 2%nat)) by lia.
      reflexivity.
Qed.

(** *** The inputs that the expansions read *)

Lemma foldl_raise_input {A B} (f : res A → B → res A) (l : list B) (e : exn) :
  (∀ x, f (Raise e) x = Raise e) → foldl f (Raise e) l = Raise e.
Proof. intros Hf. induction l as [|x l IH]; [done|]. simpl. by rewrite Hf. Qed.

(** What a result of [_get_matmul_inputs] holds for the role [conn]: an
    input edge of the node into that connector, the descriptor registered
    under the name of the array node found behind it, and the last two
    squeezed sizes of its memlet. *)
Definition input_of (node : nat) (state : SDFGState E) (sdfg : SDFG E) (conn : string)
    (r : matmul_input) : Prop :=
  let '(edge, outer_array, (s2, s1)) := r in
  edge ∈ in_edges (edges state) node ∧ dst_conn edge = Some conn ∧
  (∃ name, find_input_arraynode state edge = Ok name ∧
           arrays sdfg !! name = Some outer_array) ∧
  index_neg (squeezed_size (subset (edata edge))) 2 = Ok s2 ∧
  index_neg (squeezed_size (subset (edata edge))) 1 = Ok s1.

Lemma _get_matmul_inputs_loop (node : nat) (state : SDFGState E) (sdfg : SDFG E)
    (l : list (Edge E)) (f : res (option matmul_input * option matmul_input) → Edge E →
                             res (option matmul_input * option matmul_input))
    (acc acc' : option matmul_input * option matmul_input) :
  f = (λ acc edge,
         '(res_a, res_b) ← acc;
         if bool_decide (dst_conn edge = Some "_a" ∨ dst_conn edge = Some "_b") then
           let size := squeezed_size (subset (edata edge)) in
           name ← find_input_arraynode state edge;
           outer_array ← getitem (arrays sdfg) (Some name);
           s2 ← index_neg size 2;
           s1 ← index_neg size 1;
           let r := (edge, outer_array, (s2, s1)) in
           if bool_decide (dst_conn edge = Some "_a")
           then Ok (Some r, res_b) else Ok (res_a, Some r)
         else Ok (res_a, res_b)) →
  (∀ e, e ∈ l → e ∈ in_edges (edges state) node) →
  foldl f (Ok acc) l = Ok acc' →
  ((∀ r, acc.1 = Some r → input_of node state sdfg "_a" r) →
   ∀ r, acc'.1 = Some r → input_of node state sdfg "_a" r) ∧
  ((∀ r, acc.2 = Some r → input_of node state sdfg "_b" r) →
   ∀ r, acc'.2 = Some r → input_of node state sdfg "_b" r) ∧
  ((∀ e, e ∈ l → dst_conn e ≠ Some "_a") → acc'.1 = acc.1) ∧
  ((∀ e, e ∈ l → dst_conn e ≠ Some "_b") → acc'.2 = acc.2).
Proof.
  intros Hf. revert acc. induction l as [|edge l IH]; intros acc Hl Hrun.
  - simpl in Hrun. injection Hrun as <-. done.
  - cbn [foldl] in Hrun.
    destruct (f (Ok acc) edge) as [acc1|err] eqn:Hstep.
    2:{ rewrite foldl_raise_input in Hrun; [done|]. intros x. by rewrite Hf. }
    destruct (IH acc1) as (IHa & IHb & IHna & IHnb); [|done|].
    { intros e He. apply Hl. by constructor. }
    assert (edge ∈ in_edges (edges state) node) as Hedge by (apply Hl; by constructor).
    rewrite Hf in Hstep. destruct acc as [res_a res_b]. cbn [mbind res_bind] in Hstep.
    destruct (decide (dst_conn edge = Some "_a" ∨ dst_conn edge = Some "_b")) as [Hrole|Hrole].
    + rewrite (bool_decide_eq_true_2 _ Hrole) in Hstep. cbv zeta in Hstep.
      apply bind_ok in Hstep as (name & Hname & Hstep).
      apply bind_ok in Hstep as (outer_array & Harr & Hstep).
      apply bind_ok in Hstep as (s2 & Hs2 & Hstep).
      apply bind_ok in Hstep as (s1 & Hs1 & Hstep).
      assert (arrays sdfg !! name = Some outer_array) as Hreg.
      { unfold getitem in Harr. by destruct (arrays sdfg !! name) as [?|]; simplify_eq. }
      destruct (decide (dst_conn edge = Some "_a")) as [Ha|Ha].
      * rewrite (bool_decide_eq_true_2 _ Ha) in Hstep. injection Hstep as <-.
        cbn [fst snd] in *. repeat split.
        -- intros _. apply IHa. intros r [= <-]. repeat split; eauto.
        -- done.
        -- intros Hno. destruct (Hno edge); [by constructor|done].
        -- intros Hno. apply IHnb. intros e He. apply Hno. by constructor.
      * rewrite (bool_decide_eq_false_2 _ Ha) in Hstep. injection Hstep as <-.
        destruct Hrole as [?|Hbrole]; [done|].
        cbn [fst snd] in *. repeat split.
        -- done.
        -- intros _. apply IHb. intros r [= <-]. repeat split; eauto.
        -- intros Hno. apply IHna. intros e He. apply Hno. by constructor.
        -- intros Hno. destruct (Hno edge); [by constructor|done].
    + rewrite (bool_decide_eq_false_2 _ Hrole) in Hstep. injection Hstep as <-.
      repeat split; try done.
      * intros Hno. apply IHna. intros e He. apply Hno. by constructor.
      * intros Hno. apply IHnb. intros e He. apply Hno. by constructor.
Qed.

(** X4.  [_get_matmul_inputs] returns, for [_a] and for [_b], an input edge of
    the node into that connector with the descriptor of the array behind it
    and the last two squeezed sizes of its memlet (so a batch dimension in
    front of them is dropped); it returns nothing when no input edge goes
    into [_a], or none into [_b]. *)
Theorem _get_matmul_inputs_roles (node : nat) (state : SDFGState E) (sdfg : SDFG E) :
  (∀ ra rb, _get_matmul_inputs node state sdfg = Ok (ra, rb) →
            input_of node state sdfg "_a" ra ∧ input_of node state sdfg "_b" rb) ∧
  ((∀ e, e ∈ in_edges (edges state) node → dst_conn e ≠ Some "_a")
   ∨ (∀ e, e ∈ in_edges (edges state) node → dst_conn e ≠ Some "_b") →
   is_ok (_get_matmul_inputs node state sdfg) = false).
Proof.
  unfold MatMul._get_matmul_inputs.
  match goal with |- context [foldl ?f _ _] => set (step := f) end.
  destruct (foldl step (Ok (None, None)) (in_edges (edges state) node))
    as [[res_a res_b]|err] eqn:Hrun; cbn [mbind res_bind]; [|by split].
  destruct (_get_matmul_inputs_loop node state sdfg _ step (None, None) (res_a, res_b)
              eq_refl (λ e He, He) Hrun) as (Ha & Hb & Hna & Hnb).
  cbn [fst snd] in *. split.
  - intros ra rb Hres. destruct res_a as [ra'|]; [|done]. destruct res_b as [rb'|]; [|done].
    injection Hres as <- <-. split; [by apply Ha|by apply Hb].
  - intros [Hno|Hno].
    + by rewrite (Hna Hno).
    + rewrite (Hnb Hno). by destruct res_a.
Qed.

(** *** The portable expansion *)

(** X5.  When the portable expansion returns an SDFG, the node has passed
    [validate] and has an element type, the inner sizes of the two inputs
    are equal and their arrays are of one storage class, and the SDFG is
    built from the two inputs alone: [_a], [_b] and [_c] have the shapes
    [(m, k)], [(k, n)] and [(m, n)] of the last two squeezed sizes, the
    element type of [_c] is [np.result_type] of the element types of the
    input arrays (the element type of the node is not used), and the map
    ranges over [m], [n] and [k]. *)
Theorem expansion_returns (node : nat) (state : SDFGState E) (sdfg : SDFG E)
    (p : PureSDFG) :
  expansion node state sdfg = Ok p →
  validate sdfg state node = Ok () ∧
  ∃ lbl dt ea eb A B m k n,
    library_node state node = Some (lbl, Some dt) ∧
    _get_matmul_inputs node state sdfg = Ok ((ea, A, (m, k)), (eb, B, (k, n))) ∧
    storage A = storage B ∧
    p = pure_sdfg result_type lbl m k n (dtype A) (dtype B) (storage A).
Proof.
  unfold MatMul.expansion. intros Hrun.
  destruct (library_node state node) as [[lbl dt]|]; [|done].
  apply bind_ok in Hrun as ([] & Hval & Hrun). split; [done|].
  destruct dt as [dt|]; [|done].
  rewrite (bool_decide_eq_false_2 (Some dt = None)) in Hrun by done.
  destruct (_get_matmul_inputs node state sdfg)
    as [[[[ea A] [m k]] [[eb B] [k' n]]]|err] eqn:Hin.
  - rewrite (make_sdfg_from_inputs squeezed_size find_input_arraynode result_type
               node lbl state sdfg ea eb A B m k k' n Hin) in Hrun.
    case_bool_decide as Hk; [done|]. case_bool_decide as Hs; [done|].
    injection Hrun as <-.
    assert (k' = k) as -> by (by destruct (decide (k = k')) as [->|]).
    exists lbl, dt, ea, eb, A, B, m, k, n. by repeat split.
  - unfold MatMul.make_sdfg in Hrun. by rewrite Hin in Hrun.
Qed.

End NodeOutcome.

(** [A] and [B] both wired into [_a]. *)
Definition both_into_a : SDFGState Z :=
  mkState
    [(0%nat, AccessNode "A"); (1%nat, AccessNode "B");
     (2%nat, LibraryNode "mm" (Some float32)); (3%nat, AccessNode "C")]
    [mkEdge 0 None 2 (Some "_a") (mkMemlet (Some "A") (full_range [2; 3]));
     mkEdge 1 None 2 (Some "_a") (mkMemlet (Some "B") (full_range [3; 4]));
     mkEdge 2 (Some "_c") 3 None (mkMemlet (Some "C") (full_range [2; 4]))]
    ∅ ∅.

Lemma validate_missing_role_unbound_witness :
  validate squeezed_size_Z (matmul_sdfg a_2x3 b_3x4 C_2x4) both_into_a 2
  = Raise UnboundLocalError.
Proof.
  apply (validate_missing_role_unbound squeezed_size_Z
           (matmul_sdfg a_2x3 b_3x4 C_2x4) both_into_a 2
           (mkEdge 0 None 2 (Some "_a") (mkMemlet (Some "A") (full_range [2; 3])))
           (mkEdge 1 None 2 (Some "_a") (mkMemlet (Some "B") (full_range [3; 4])))
           (mkEdge 2 (Some "_c") 3 None (mkMemlet (Some "C") (full_range [2; 4])))
           a_2x3 b_3x4 C_2x4 None).
  - reflexivity.
  - reflexivity.
  - reflexivity.
  - reflexivity.
  - reflexivity.
  - reflexivity.
  - right. split; [discriminate|]. split; [discriminate|].
    eexists. split; [left; reflexivity|]. split; reflexivity.
Defined.

(** Batched arrays [2x3x4] and [2x4x5] where the memlet into [_a] selects
    one row, [A[0, 0, 0:4]]: its squeezed size is [[4]]. *)
Definition row_into_a : SDFGState Z :=
  mkState
    [(0%nat, AccessNode "A"); (1%nat, AccessNode "B");
     (2%nat, LibraryNode "mm" (Some float32)); (3%nat, AccessNode "C")]
    [mkEdge 0 None 2 (Some "_a") (mkMemlet (Some "A") [(0, 0, 1); (0, 0, 1); (0, 3, 1)]);
     mkEdge 1 None 2 (Some "_b") (mkMemlet (Some "B") (full_range [2; 4; 5]));
     mkEdge 2 (Some "_c") 3 None (mkMemlet (Some "C") (full_range [2; 3; 5]))]
    ∅ ∅.

(** C2.  Two nodes that break the contract and on which [validate] raises
    no validation error.  With both input edges wired into [_a], [size1]
    is read before it is assigned: [UnboundLocalError], where
    [_get_matmul_inputs] on the same node raises its [ValueError].  With a
    squeezed input of rank 1 on batched arrays the rank test is skipped and
    [size0[-2]] is read from a list of one element: [IndexError]. *)
Theorem validate_violations_raise_no_validation_error :
  dst_conn <$> in_edges (edges both_into_a) 2 = [Some "_a"; Some "_a"] ∧
  validate squeezed_size_Z (matmul_sdfg a_2x3 b_3x4 C_2x4) both_into_a 2
    = Raise UnboundLocalError ∧
  _get_matmul_inputs squeezed_size_Z find_input_direct 2 both_into_a
                     (matmul_sdfg a_2x3 b_3x4 C_2x4)
    = Raise (ValueError inputs_not_found_msg) ∧
  squeezed_size_Z <$> (subset <$> (edata <$> in_edges (edges row_into_a) 2))
    = [[4]; [2; 4; 5]] ∧
  get_batchmm_opts A_2x3x4 B_2x4x5 (Some C_2x3x5) = Ok (Some (mkBatchOpts 12 20 15 2)) ∧
  validate squeezed_size_Z (matmul_sdfg A_2x3x4 B_2x4x5 C_2x3x5) row_into_a 2
    = Raise IndexError.
Proof.
  repeat split; vm_compute; reflexivity.
Qed.

Lemma expansion_returns_witness :
  validate squeezed_size_Z (matmul_sdfg a_2x3 b_3x4 C_2x4)
           (matmul_state [2; 3] [3; 4] [2; 4]) 2 = Ok () ∧
  ∃ lbl dt ea eb A B m k n,
    library_node (matmul_state [2; 3] [3; 4] [2; 4]) 2 = Some (lbl, Some dt) ∧
    _get_matmul_inputs squeezed_size_Z find_input_direct 2
                       (matmul_state [2; 3] [3; 4] [2; 4])
                       (matmul_sdfg a_2x3 b_3x4 C_2x4)
    = Ok ((ea, A, (m, k)), (eb, B, (k, n))) ∧
    storage A = storage B ∧
    pure_sdfg result_type_np "mm" 2 3 4 float32 float32 Default
    = pure_sdfg result_type_np lbl m k n (dtype A) (dtype B) (storage A).
Proof.
  apply (expansion_returns squeezed_size_Z find_input_direct result_type_np 2
           (matmul_state [2; 3] [3; 4] [2; 4]) (matmul_sdfg a_2x3 b_3x4 C_2x4)).
  vm_compute. reflexivity.
Defined.

(** ** Validation and the portable expansion together *)

Section NodeCompose.
Context {E : Type} `{SymExpr E}.
Variable squeezed_size : Range E → list E.
Variable find_input_arraynode : SDFGState E → Edge E → res string.
Variable result_type : typeclass → typeclass → typeclass.

Local Abbreviation validate := (validate squeezed_size).
Local Abbreviation input_sizes := (input_sizes squeezed_size).
Local Abbreviation _get_matmul_inputs :=
  (_get_matmul_inputs squeezed_size find_input_arraynode).
Local Abbreviation make_sdfg :=
  (make_sdfg squeezed_size find_input_arraynode result_type).
Local Abbreviation expansion :=
  (expansion squeezed_size find_input_arraynode result_type).
Local Abbreviation validate_contract := (validate_contract squeezed_size).
Local Abbreviation input_of := (input_of squeezed_size find_input_arraynode).

(** An exception other than the [SyntaxError] of [make_sdfg]. *)
Definition not_syntax_error (e : exn) : Prop :=
  match e with SyntaxError _ => False | _ => True end.

Lemma index_not_syntax {A} (l : list A) (i : nat) (e : exn) :
  index l i = Raise e → not_syntax_error e.
Proof. unfold index. destruct (l !! i); [done|]. by intros [= <-]. Qed.

Lemma index_neg_not_syntax {A} (l : list A) (k : nat) (e : exn) :
  index_neg l k = Raise e → not_syntax_error e.
Proof.
  unfold index_neg. case_decide; [apply index_not_syntax|]. by intros [= <-].
Qed.

Lemma getitem_not_syntax {V} (d : gmap string V) (k : option string) (e : exn) :
  getitem d k = Raise e → not_syntax_error e.
Proof.
  unfold getitem. destruct k as [k|]; [|by intros [= <-]].
  destruct (d !! k); [done|]. by intros [= <-].
Qed.

Lemma local_not_syntax {A} (v : option A) (e : exn) :
  local v = Raise e → not_syntax_error e.
Proof. destruct v; [done|]. by intros [= <-]. Qed.

Lemma bind_raise {A B} (m : res A) (f : A → res B) (e : exn) :
  m ≫= f = Raise e → m = Raise e ∨ ∃ x, m = Ok x ∧ f x = Raise e.
Proof.
  destruct m as [x|e']; intros Hm; [right; by exists x|].
  cbn [mbind res_bind] in Hm. injection Hm as ->. by left.
Qed.

Lemma get_batchmm_opts_not_syntax (a b : Array E) (c : option (Array E)) (e : exn) :
  get_batchmm_opts a b c = Raise e → not_syntax_error e.
Proof.
  unfold get_batchmm_opts. intros Hr.
  repeat (first
    [ done
    | discriminate Hr
    | injection Hr as <-
    | match type of Hr with
      | (if ?b then _ else _) = _ => destruct b
      | (match ?x with _ => _ end) = _ => destruct x
      | (let '(_, _) := ?x in _) = _ => destruct x
      | ?m ≫= _ = Raise _ =>
        let x := fresh "x" in
        let Hx := fresh "Hx" in
        apply bind_raise in Hr as [Hr|(x & Hx & Hr)];
        [|clear Hx; try destruct x]
      end
    | apply index_not_syntax in Hr ]).
Qed.

Lemma validate_not_syntax (sdfg : SDFG E) (state : SDFGState E) (self : nat) (e : exn) :
  validate sdfg state self = Raise e → not_syntax_error e.
Proof.
  unfold MatMul.validate. intros Hr.
  destruct (MatMul.input_sizes squeezed_size (in_edges (edges state) self))
    as [size0 size1].
  repeat (first
    [ done
    | discriminate Hr
    | injection Hr as <-
    | apply index_not_syntax in Hr
    | apply index_neg_not_syntax in Hr
    | apply getitem_not_syntax in Hr
    | apply local_not_syntax in Hr
    | apply get_batchmm_opts_not_syntax in Hr
    | match type of Hr with
      | (if ?b then _ else _) = _ => destruct b
      | (match ?x with _ => _ end) = _ => destruct x
      | ?m ≫= _ = Raise _ =>
        let x := fresh "x" in
        let Hx := fresh "Hx" in
        apply bind_raise in Hr as [Hr|(x & Hx & Hr)];
        [|clear Hx]
      end ]).
Qed.

Lemma _get_matmul_inputs_step_raise (state : SDFGState E) (sdfg : SDFG E)
    (l : list (Edge E))
    (f : res (option (matmul_input (E := E)) * option (matmul_input (E := E))) → Edge E →
         res (option (matmul_input (E := E)) * option (matmul_input (E := E))))
    (acc : res (option (matmul_input (E := E)) * option (matmul_input (E := E)))) (e : exn) :
  f = (λ acc edge,
         '(res_a, res_b) ← acc;
         if bool_decide (dst_conn edge = Some "_a" ∨ dst_conn edge = Some "_b") then
           let size := squeezed_size (subset (edata edge)) in
           name ← find_input_arraynode state edge;
           outer_array ← getitem (arrays sdfg) (Some name);
           s2 ← index_neg size 2;
           s1 ← index_neg size 1;
           let r := (edge, outer_array, (s2, s1)) in
           if bool_decide (dst_conn edge = Some "_a")
           then Ok (Some r, res_b) else Ok (res_a, Some r)
         else Ok (res_a, res_b)) →
  (∀ edge e', find_input_arraynode state edge = Raise e' → not_syntax_error e') →
  (∀ e', acc = Raise e' → not_syntax_error e') →
  foldl f acc l = Raise e → not_syntax_error e.
Proof.
  intros Hf Hfind. revert acc. induction l as [|edge l IH]; intros acc Hacc Hrun.
  - by apply Hacc.
  - cbn [foldl] in Hrun. apply (IH (f acc edge)); [|done].
    intros e' Hstep. rewrite Hf in Hstep.
    apply bind_raise in Hstep as [Hstep|([res_a res_b] & _ & Hstep)]; [by apply Hacc|].
    case_bool_decide; [|done]. cbv zeta in Hstep.
    apply bind_raise in Hstep as [Hstep|(name & _ & Hstep)]; [by apply (Hfind edge)|].
    apply bind_raise in Hstep as [Hstep|(arr & _ & Hstep)];
      [by apply getitem_not_syntax in Hstep|].
    apply bind_raise in Hstep as [Hstep|(s2 & _ & Hstep)];
      [by apply index_neg_not_syntax in Hstep|].
    apply bind_raise in Hstep as [Hstep|(s1 & _ & Hstep)];
      [by apply index_neg_not_syntax in Hstep|].
    by case_bool_decide.
Qed.

Lemma _get_matmul_inputs_not_syntax (node : nat) (state : SDFGState E) (sdfg : SDFG E)
    (e : exn) :
  (∀ edge e', find_input_arraynode state edge = Raise e' → not_syntax_error e') →
  _get_matmul_inputs node state sdfg = Raise e → not_syntax_error e.
Proof.
  intros Hfind. unfold MatMul._get_matmul_inputs.
  match goal with |- context [foldl ?f _ _] => set (step := f) end.
  intros Hrun. apply bind_raise in Hrun as [Hrun|([res_a res_b] & _ & Hrun)].
  - apply (_get_matmul_inputs_step_raise state sdfg (in_edges (edges state) node) step
             (Ok (None, None)) e eq_refl Hfind); [|done].
    intros e' He'. discriminate He'.
  - destruct res_a; [destruct res_b|]; try done; by injection Hrun as <-.
Qed.

Lemma _get_matmul_inputs_ok (node : nat) (state : SDFGState E) (sdfg : SDFG E)
    (ra rb : matmul_input) :
  _get_matmul_inputs node state sdfg = Ok (ra, rb) →
  input_of node state sdfg "_a" ra ∧ input_of node state sdfg "_b" rb.
Proof.
  unfold MatMul._get_matmul_inputs.
  match goal with |- context [foldl ?f _ _] => set (step := f) end.
  destruct (foldl step (Ok (None, None)) (in_edges (edges state) node))
    as [[res_a res_b]|err] eqn:Hrun; cbn [mbind res_bind]; [|done].
  destruct (_get_matmul_inputs_loop squeezed_size find_input_arraynode node state sdfg _
              step (None, None) (res_a, res_b) eq_refl (λ e He, He) Hrun)
    as (Ha & Hb & _).
  cbn [fst snd] in *. intros Hres.
  destruct res_a as [ra'|]; [|done]. destruct res_b as [rb'|]; [|done].
  injection Hres as <- <-. split; [by apply Ha|by apply Hb].
Qed.

Lemma validate_ok_contract (sdfg : SDFG E) (state : SDFGState E) (self : nat) :
  validate sdfg state self = Ok () → validate_contract sdfg state self.
Proof.
  unfold MatMul.validate. intros Hv.
  case_bool_decide as Hlen; [discriminate|].
  destruct (in_edges (edges state) self) as [|e0 [|e1 [|? ?]]] eqn:Hins;
    try discriminate Hlen.
  clear Hlen.
  destruct (input_sizes [e0; e1]) as [size0 size1] eqn:Hsz.
  case_bool_decide as Hlen; [discriminate|].
  destruct (out_edges (edges state) self) as [|eo [|? ?]] eqn:Houts;
    try discriminate Hlen.
  clear Hlen. cbn [index lookup list_lookup mbind res_bind] in Hv.
  apply bind_ok in Hv as (d0 & Hd0 & Hv).
  apply bind_ok in Hv as (d1 & Hd1 & Hv).
  apply bind_ok in Hv as (d2 & Hd2 & Hv).
  apply bind_ok in Hv as (bopt & Hb & Hv).
  apply bind_ok in Hv as ([] & Hrk & Hv).
  apply bind_ok in Hv as (s0 & Hs0 & Hv).
  apply bind_ok in Hv as (k0 & Hk0 & Hv).
  apply bind_ok in Hv as (s1 & Hs1 & Hv).
  apply bind_ok in Hv as (k1 & Hk1 & Hv).
  case_bool_decide as Hk; [discriminate|]. subst k1.
  case_bool_decide as Hl2; [discriminate|]. clear Hl2.
  destruct (proj1 (input_sizes_roles squeezed_size e0 e1 s0 s1)) as
    (ea & eb & Hab & Hra & Hrb & -> & ->).
  { by rewrite Hsz. }
  assert (∃ m n, index_neg (squeezed_size (subset (edata ea))) 2 = Ok m ∧
                 index_neg (squeezed_size (subset (edata eb))) 1 = Ok n ∧
                 squeezed_size (subset (edata eo)) =
                   match bopt with None => [m; n] | Some o => [opt_b o; m; n] end)
    as (m & n & Hm & Hn & Hout).
  { destruct bopt as [o|];
      apply bind_ok in Hv as (m & Hm & Hv);
      apply bind_ok in Hv as (n & Hn & Hv);
      case_bool_decide as Ho; try discriminate;
      exists m, n; done. }
  exists e0, e1, eo, ea, eb, d0, d1, d2, bopt, m, k0, n.
  repeat (split; [done|]). cbn zeta. split; [|done].
  intros ->. rewrite bool_decide_eq_true_2 in Hrk by done.
  rewrite Hs0 in Hrk. cbn [mbind res_bind] in Hrk.
  case_bool_decide as Hl0; [discriminate|].
  rewrite Hs1 in Hrk. cbn [mbind res_bind] in Hrk.
  case_bool_decide as Hl1; [discriminate|]. done.
Qed.

(** On a node that passed [validate], the inputs that [_get_matmul_inputs]
    finds have the sizes that [validate] compared: the inner sizes are
    equal, and [(m, n)] are the last two squeezed sizes of the output
    memlet. *)
Lemma validated_inputs (node : nat) (state : SDFGState E) (sdfg : SDFG E)
    (ea eb : Edge E) (A B : Array E) (m k k' n : E) :
  validate sdfg state node = Ok () →
  _get_matmul_inputs node state sdfg = Ok ((ea, A, (m, k)), (eb, B, (k', n))) →
  k = k' ∧
  ∃ eo, out_edges (edges state) node = [eo] ∧
        (squeezed_size (subset (edata eo)) = [m; n]
         ∨ ∃ b, squeezed_size (subset (edata eo)) = [b; m; n]).
Proof.
  intros Hval Hin.
  destruct (validate_ok_contract _ _ _ Hval)
    as (e0 & e1 & eo & ca & cb & d0 & d1 & d2 & bopt & cm & ck & cn &
        Hins & Hab & Hra & Hrb & Houts & _ & _ & _ & _ & Hrest).
  cbn zeta in Hrest. destruct Hrest as (_ & Hm & Hk & Hk' & Hn & Hout).
  destruct (_get_matmul_inputs_ok _ _ _ _ _ Hin) as [Ha Hb].
  destruct Ha as (Hea & Hca & _ & Hm' & Hk1).
  destruct Hb as (Heb & Hcb & _ & Hk2 & Hn').
  rewrite Hins in Hea, Heb.
  assert (ea = ca) as ->.
  { destruct Hab as [[-> ->]|[-> ->]];
      repeat (apply elem_of_cons in Hea as [->|Hea]); try done;
      try (by apply elem_of_nil in Hea); congruence. }
  assert (eb = cb) as ->.
  { destruct Hab as [[-> ->]|[-> ->]];
      repeat (apply elem_of_cons in Heb as [->|Heb]); try done;
      try (by apply elem_of_nil in Heb); congruence. }
  assert (m = cm) as -> by congruence. assert (k = ck) as -> by congruence.
  assert (k' = ck) as -> by congruence. assert (n = cn) as -> by congruence.
  split; [done|]. exists eo. split; [done|].
  destruct bopt as [o|]; [right; by exists (opt_b o)|by left].
Qed.

(** X21.  The portable expansion can never raise the [SyntaxError] that
    [make_sdfg] has for unequal inner sizes ("Matrix sizes must match"):
    [expansion] validates the node first, and a node that passed [validate]
    has equal inner sizes on the very inputs that [make_sdfg] reads.  (The
    lookup of the array node behind an edge is assumed not to raise a
    [SyntaxError] of its own.) *)
Theorem expansion_never_raises_syntax_error (node : nat) (state : SDFGState E)
    (sdfg : SDFG E) :
  (∀ edge e, find_input_arraynode state edge = Raise e → not_syntax_error e) →
  ∀ msg, expansion node state sdfg ≠ Raise (SyntaxError msg).
Proof.
  intros Hfind msg Hrun. unfold MatMul.expansion in Hrun.
  destruct (library_node state node) as [[lbl dt]|]; [|done].
  apply bind_raise in Hrun as [Hrun|([] & Hval & Hrun)].
  { by apply validate_not_syntax in Hrun. }
  case_bool_decide; [done|].
  destruct (_get_matmul_inputs node state sdfg)
    as [[[[ea A] [m k]] [[eb B] [k' n]]]|err] eqn:Hin.
  - destruct (validated_inputs _ _ _ _ _ _ _ _ _ _ _ Hval Hin) as [<- _].
    rewrite (make_sdfg_from_inputs squeezed_size find_input_arraynode result_type
               node lbl state sdfg ea eb A B m k k n Hin) in Hrun.
    rewrite (bool_decide_eq_false_2 (k ≠ k)) in Hrun by tauto.
    by case_bool_decide.
  - unfold MatMul.make_sdfg in Hrun. rewrite Hin in Hrun. injection Hrun as ->.
    by apply (_get_matmul_inputs_not_syntax node state sdfg _ Hfind) in Hin.
Qed.

(** X22.  The output descriptor of the portable expansion agrees with the
    memlet that leaves the node: when [expansion] returns an SDFG, the shape
    of [_c] is the squeezed size of the output memlet, or that size without
    its leading batch dimension. *)
Theorem expansion_output_matches_memlet (node : nat) (state : SDFGState E)
    (sdfg : SDFG E) (p : PureSDFG) :
  expansion node state sdfg = Ok p →
  ∃ eo m n,
    out_edges (edges state) node = [eo] ∧
    shape <$> p_array p "_c" = Some [m; n] ∧
    (squeezed_size (subset (edata eo)) = [m; n]
     ∨ ∃ b, squeezed_size (subset (edata eo)) = [b; m; n]).
Proof.
  unfold MatMul.expansion. intros Hrun.
  destruct (library_node state node) as [[lbl dt]|]; [|done].
  apply bind_ok in Hrun as ([] & Hval & Hrun).
  case_bool_decide; [done|].
  destruct (_get_matmul_inputs node state sdfg)
    as [[[[ea A] [m k]] [[eb B] [k' n]]]|err] eqn:Hin.
  - destruct (validated_inputs _ _ _ _ _ _ _ _ _ _ _ Hval Hin) as [<- (eo & Hout & Hsize)].
    rewrite (make_sdfg_from_inputs squeezed_size find_input_arraynode result_type
               node lbl state sdfg ea eb A B m k k n Hin) in Hrun.
    rewrite (bool_decide_eq_false_2 (k ≠ k)) in Hrun by tauto.
    case_bool_decide; [done|]. injection Hrun as <-.
    exists eo, m, n. split; [done|]. split; [reflexivity|done].
  - unfold MatMul.make_sdfg in Hrun. by rewrite Hin in Hrun.
Qed.

End NodeCompose.

Lemma expansion_never_raises_syntax_error_witness :
  ¬ ∃ msg, expansion squeezed_size_Z find_input_direct result_type_np 2
                     (matmul_state [2; 3] [2; 3] [2; 4]) (matmul_sdfg a_2x3 a_2x3 C_2x4)
           = Raise (SyntaxError msg).
Proof.
  intros [msg Hmsg].
  refine (expansion_never_raises_syntax_error squeezed_size_Z find_input_direct
            result_type_np 2 (matmul_state [2; 3] [2; 3] [2; 4])
            (matmul_sdfg a_2x3 a_2x3 C_2x4) _ msg Hmsg).
  intros edge e. unfold find_input_direct.
  destruct (node _ _) as [[]|]; try discriminate; by intros [= <-].
Defined.

Lemma expansion_output_matches_memlet_witness :
  ∃ eo m n,
    out_edges (edges (matmul_state [2; 3; 4] [2; 4; 5] [2; 3; 5])) 2 = [eo] ∧
    shape <$> p_array (pure_sdfg result_type_np "mm" 3 4 5 float32 float32 Default) "_c"
    = Some [m; n] ∧
    (squeezed_size_Z (subset (edata eo)) = [m; n]
     ∨ ∃ b, squeezed_size_Z (subset (edata eo)) = [b; m; n]).
Proof.
  apply (expansion_output_matches_memlet squeezed_size_Z find_input_direct result_type_np
           2 (matmul_state [2; 3; 4] [2; 4; 5] [2; 3; 5])
           (matmul_sdfg A_2x3x4 B_2x4x5 C_2x3x5)).
  vm_compute. reflexivity.
Defined.

(** ** Vendor expansions *)

(** [str.lower()] on ASCII text. *)
Definition lower_ascii (c : Ascii.ascii) : Ascii.ascii :=
  let n := Ascii.nat_of_ascii c in
  if Nat.leb 65 n && Nat.leb n 90 then Ascii.ascii_of_nat (n + 32) else c.

Fixpoint lower (s : string) : string :=
  match s with
  | EmptyString => EmptyString
  | String c s' => String (lower_ascii c) (lower s')
  end.

(** The tasklet that an expansion returns: [Tasklet(node.name,
    node.in_connectors, node.out_connectors, code, language=CPP)]; the
    connectors are those that [MatMul.__init__] gives the node. *)
Record CodeTasklet : Type := mkCodeTasklet {
  t_name : string;
  t_in_connectors : list string;
  t_out_connectors : list string;
  t_code : string
}.

(** [MatMul.__init__]: [inputs={'_a', '_b'}], [outputs={'_c'}]. *)
Definition matmul_inputs : list string := ["_a"; "_b"].
Definition matmul_outputs : list string := ["_c"].

Section Vendor.
Context {E : Type} `{SymExpr E}.

(** The dictionary of [get_gemm_opts]: [swap], the leading dimensions and
    the transposition letters. *)
Record GemmOpts : Type := mkGemmOpts {
  g_swap : bool;
  g_lda : E;
  g_ldb : E;
  g_ldc : E;
  g_ta : string;
  g_tb : string
}.

Variable squeezed_size : Range E → list E.
Variable find_input_arraynode : SDFGState E → Edge E → res string.

(** What the sources outside this file provide: *)
Variable attribute_error : exn.                  (* what [dtype.type] raises on [None] *)
Variable to_blastype : typeclass → res string.   (* [blas_helpers.to_blastype] *)
Variable str_dtype : typeclass → string.         (* [str(dtype)] *)
Variable str_size : E → string.                  (* a size as [format] writes it *)
Variable memlet_path : SDFGState E → Edge E → list (Edge E). (* [state.memlet_path(e)] *)
Variable get_gemm_opts : Array E → Array E → Array E → res GemmOpts.
Variable handle_setup_code : nat → string.       (* [cuBLAS.handle_setup_code(node)] *)

Local Abbreviation validate := (validate squeezed_size).
Local Abbreviation _get_matmul_inputs :=
  (_get_matmul_inputs squeezed_size find_input_arraynode).

(** [dtype.type] *)
Definition dtype_type (dtype : option typeclass) : res typeclass :=
  match dtype with Some ty => Ok ty | None => Raise attribute_error end.

(** *** Intel MKL *)

Definition mkl_unsupported_msg (ty : typeclass) : string :=
  "Unsupported type for BLAS dot product: " +:+ str_dtype ty.

(** The chain of tests on [dtype]: [(alpha, beta)]. *)
Definition mkl_constants (ty : typeclass) : res (string * string) :=
  if decide (ty = float32) then Ok ("1.0f", "0.0f")
  else if decide (ty = float64) then Ok ("1.0", "0.0")
  else if decide (ty = complex64)
  then Ok ("dace::blas::BlasConstants::Get().Complex64Pone()",
           "dace::blas::BlasConstants::Get().Complex64Zero()")
  else if decide (ty = complex128)
  then Ok ("dace::blas::BlasConstants::Get().Complex128Pone()",
           "dace::blas::BlasConstants::Get().Complex128Zero()")
  else Raise (ValueError (mkl_unsupported_msg ty)).

(** The formatted call. *)
Definition mkl_code (f m n k a b : string) : string :=
  "cblas_" +:+ f +:+ "(CblasRowMajor, CblasNoTrans, CblasNoTrans, "
  +:+ m +:+ ", " +:+ n +:+ ", " +:+ k +:+ ", " +:+ a +:+ ", _a, " +:+ k
  +:+ ", _b, " +:+ n +:+ ", " +:+ b +:+ ", _c, " +:+ n +:+ ");".

(** [ExpandMatMulMKL.expansion(node, state, sdfg)] (the class is defined
    twice in the file, with the same body). *)
Definition mkl_expansion (node : nat) (state : SDFGState E) (sdfg : SDFG E)
  : res CodeTasklet :=
  match library_node state node with
  | Some (name, dtype) =>
    _ ← validate sdfg state node;
    ty ← dtype_type dtype;
    letter ← to_blastype ty;
    let func := lower letter +:+ "gemm" in
    '(alpha, beta) ← mkl_constants ty;
    '((_, _, (m, k)), (_, _, (_, n))) ← _get_matmul_inputs node state sdfg;
    Ok (mkCodeTasklet name matmul_inputs matmul_outputs
          (mkl_code func (str_size m) (str_size n) (str_size k) alpha beta))
  | None => Raise TypeError
  end.

(** *** cuBLAS *)

Definition cublas_unsupported_msg (ty : typeclass) : string :=
  "Unsupported type: " +:+ str_dtype ty.

Definition arrays_msg : string := "Unsupported input/output arrays".

(** The chain of tests on [dtype]: [(cdtype, factort)]. *)
Definition cublas_types (ty : typeclass) : res (string * string) :=
  if decide (ty = float16) then Ok ("__half", "Half")
  else if decide (ty = float32) then Ok ("float", "Float")
  else if decide (ty = float64) then Ok ("double", "Double")
  else if decide (ty = complex64) then Ok ("cuComplex", "Complex64")
  else if decide (ty = complex128) then Ok ("cuDoubleComplex", "Complex128")
  else Raise (ValueError (cublas_unsupported_msg ty)).

(** [if isinstance(n, AccessNode): desc = sdfg.arrays[n.data]] *)
Definition desc_behind (state : SDFGState E) (sdfg : SDFG E) (n : nat)
    (desc : option (Array E)) : res (option (Array E)) :=
  match node state n with
  | Some (AccessNode d) => found ← getitem (arrays sdfg) (Some d); Ok (Some found)
  | _ => Ok desc
  end.

(** "Find inputs and output": the two loops. *)
Definition input_descs (node : nat) (state : SDFGState E) (sdfg : SDFG E)
  : res (option (Array E) * option (Array E)) :=
  foldl (λ (acc : res (option (Array E) * option (Array E))) e,
           '(adesc, bdesc) ← acc;
           if bool_decide (dst_conn e = Some "_a") then
             first ← index (memlet_path state e) 0;
             adesc ← desc_behind state sdfg (src first) adesc;
             Ok (adesc, bdesc)
           else if bool_decide (dst_conn e = Some "_b") then
             first ← index (memlet_path state e) 0;
             bdesc ← desc_behind state sdfg (src first) bdesc;
             Ok (adesc, bdesc)
           else Ok (adesc, bdesc))
        (Ok (None, None)) (in_edges (edges state) node).

Definition output_desc (node : nat) (state : SDFGState E) (sdfg : SDFG E)
  : res (option (Array E)) :=
  foldl (λ (acc : res (option (Array E))) e,
           cdesc ← acc;
           if bool_decide (src_conn e = Some "_c") then
             last ← index_neg (memlet_path state e) 1;
             desc_behind state sdfg (dst last) cdesc
           else Ok cdesc)
        (Ok None) (out_edges (edges state) node).

(** The dictionary [opt] when the call is formatted; [c_batch] holds
    [stride_a], [stride_b], [stride_c] and [BATCH] when [bopt] is not
    empty. *)
Record CublasOpts : Type := mkCublasOpts {
  c_func : string;
  c_ta : string;
  c_tb : string;
  c_M : E;
  c_N : E;
  c_K : E;
  c_alpha : string;
  c_beta : string;
  c_dtype : string;
  c_x : string;
  c_lda : E;
  c_y : string;
  c_ldb : E;
  c_ldc : E;
  c_batch : option (BatchOpts E)
}.

(** "Set up options for code formatting" *)
Definition cublas_opts (func cdtype factort : string) (m k n : E) (g : GemmOpts)
    (bopt : option (BatchOpts E)) : CublasOpts :=
  let alpha := "dace::blas::CublasConstants::Get(__dace_cuda_device)." +:+ factort
               +:+ "Pone()" in
  let beta := "dace::blas::CublasConstants::Get(__dace_cuda_device)." +:+ factort
              +:+ "Zero()" in
  if g_swap g then
    mkCublasOpts func (g_tb g) (g_ta g) n m k alpha beta cdtype
                 "_b" (g_ldb g) "_a" (g_lda g) (g_ldc g)
                 ((λ o, mkBatchOpts (opt_sb o) (opt_sa o) (opt_sc o) (opt_b o)) <$> bopt)
  else
    mkCublasOpts func (g_ta g) (g_tb g) m n k alpha beta cdtype
                 "_a" (g_lda g) "_b" (g_ldb g) (g_ldc g) bopt.

Definition nl : string := String (Ascii.ascii_of_nat 10) "                ".

(** [call.format_map(opt)] for the two templates. *)
Definition cublas_call (o : CublasOpts) : string :=
  match c_batch o with
  | None =>
    "cublas" +:+ c_func o +:+ "(__dace_cublas_handle, " +:+ nl
    +:+ "CUBLAS_OP_" +:+ c_ta o +:+ ", CUBLAS_OP_" +:+ c_tb o +:+ "," +:+ nl
    +:+ str_size (c_M o) +:+ ", " +:+ str_size (c_N o) +:+ ", " +:+ str_size (c_K o)
    +:+ "," +:+ nl
    +:+ c_alpha o +:+ "," +:+ nl
    +:+ "(" +:+ c_dtype o +:+ "*)" +:+ c_x o +:+ ", " +:+ str_size (c_lda o) +:+ "," +:+ nl
    +:+ "(" +:+ c_dtype o +:+ "*)" +:+ c_y o +:+ ", " +:+ str_size (c_ldb o) +:+ "," +:+ nl
    +:+ c_beta o +:+ "," +:+ nl
    +:+ "(" +:+ c_dtype o +:+ "*)_c, " +:+ str_size (c_ldc o) +:+ ");"
  | Some b =>
    "cublas" +:+ c_func o +:+ "StridedBatched(__dace_cublas_handle, " +:+ nl
    +:+ "CUBLAS_OP_" +:+ c_ta o +:+ ", CUBLAS_OP_" +:+ c_tb o +:+ "," +:+ nl
    +:+ str_size (c_M o) +:+ ", " +:+ str_size (c_N o) +:+ ", " +:+ str_size (c_K o)
    +:+ "," +:+ nl
    +:+ c_alpha o +:+ "," +:+ nl
    +:+ "(" +:+ c_dtype o +:+ "*)" +:+ c_x o +:+ ", " +:+ str_size (c_lda o) +:+ ", "
    +:+ str_size (opt_sa b) +:+ "," +:+ nl
    +:+ "(" +:+ c_dtype o +:+ "*)" +:+ c_y o +:+ ", " +:+ str_size (c_ldb o) +:+ ", "
    +:+ str_size (opt_sb b) +:+ "," +:+ nl
    +:+ c_beta o +:+ "," +:+ nl
    +:+ "(" +:+ c_dtype o +:+ "*)_c, " +:+ str_size (c_ldc o) +:+ ", "
    +:+ str_size (opt_sc b) +:+ "," +:+ nl
    +:+ str_size (opt_b b) +:+ ");"
  end.

(** The options that [ExpandMatMulCuBLAS.expansion] formats. *)
Definition cublas_options (node : nat) (state : SDFGState E) (sdfg : SDFG E)
  : res (string * CublasOpts) :=
  match library_node state node with
  | Some (name, dtype) =>
    _ ← validate sdfg state node;
    ty ← dtype_type dtype;
    letter ← to_blastype ty;
    let func := letter +:+ "gemm" in
    '(cdtype, factort) ← cublas_types ty;
    '(adesc, bdesc) ← input_descs node state sdfg;
    cdesc ← output_desc node state sdfg;
    match adesc, bdesc, cdesc with
    | Some adesc, Some bdesc, Some cdesc =>
      '((_, _, (m, k)), (_, _, (_, n))) ← _get_matmul_inputs node state sdfg;
      opt ← get_gemm_opts adesc bdesc cdesc;
      bopt ← get_batchmm_opts adesc bdesc (Some cdesc);
      Ok (name, cublas_opts func cdtype factort m k n opt bopt)
    | _, _, _ => Raise (ValueError arrays_msg)
    end
  | None => Raise TypeError
  end.

(** [ExpandMatMulCuBLAS.expansion(node, state, sdfg)] *)
Definition cublas_expansion (node : nat) (state : SDFGState E) (sdfg : SDFG E)
  : res CodeTasklet :=
  '(name, o) ← cublas_options node state sdfg;
  Ok (mkCodeTasklet name matmul_inputs matmul_outputs
        (handle_setup_code node +:+ cublas_call o)).

End Vendor.

Section VendorFacts.
Context {E : Type} `{SymExpr E}.
Variable squeezed_size : Range E → list E.
Variable find_input_arraynode : SDFGState E → Edge E → res string.
Variable attribute_error : exn.
Variable to_blastype : typeclass → res string.
Variable str_dtype : typeclass → string.
Variable str_size : E → string.
Variable memlet_path : SDFGState E → Edge E → list (Edge E).
Variable get_gemm_opts : Array E → Array E → Array E → res (@GemmOpts E).
Variable handle_setup_code : nat → string.

Local Abbreviation validate := (validate squeezed_size).
Local Abbreviation _get_matmul_inputs :=
  (_get_matmul_inputs squeezed_size find_input_arraynode).
Local Abbreviation mkl_expansion :=
  (mkl_expansion squeezed_size find_input_arraynode attribute_error to_blastype
                 str_dtype str_size).
Local Abbreviation cublas_options :=
  (cublas_options squeezed_size find_input_arraynode attribute_error to_blastype
                  str_dtype memlet_path get_gemm_opts).
Local Abbreviation cublas_expansion :=
  (cublas_expansion squeezed_size find_input_arraynode attribute_error to_blastype
                    str_dtype str_size memlet_path get_gemm_opts handle_setup_code).

Definition mkl_types : list typeclass := [float32; float64; complex64; complex128].
Definition cublas_type_list : list typeclass :=
  [float16; float32; float64; complex64; complex128].

Lemma mkl_constants_ok (ty : typeclass) (c : string * string) :
  mkl_constants str_dtype ty = Ok c → ty ∈ mkl_types.
Proof.
  unfold mkl_constants, mkl_types. intros Hc.
  repeat case_decide; try discriminate Hc; subst; set_solver.
Qed.

Lemma mkl_constants_refuses (ty : typeclass) :
  ty ∉ mkl_types →
  mkl_constants str_dtype ty = Raise (ValueError (mkl_unsupported_msg str_dtype ty)).
Proof.
  unfold mkl_constants, mkl_types. intros Hty.
  repeat case_decide; try reflexivity; subst; set_solver.
Qed.

Lemma cublas_types_ok (ty : typeclass) (c : string * string) :
  cublas_types str_dtype ty = Ok c → ty ∈ cublas_type_list.
Proof.
  unfold cublas_types, cublas_type_list. intros Hc.
  repeat case_decide; try discriminate Hc; subst; set_solver.
Qed.

Lemma cublas_types_refuses (ty : typeclass) :
  ty ∉ cublas_type_list →
  cublas_types str_dtype ty = Raise (ValueError (cublas_unsupported_msg str_dtype ty)).
Proof.
  unfold cublas_types, cublas_type_list. intros Hty.
  repeat case_decide; try reflexivity; subst; set_solver.
Qed.

(** What went well when [cublas_options] returns. *)
Lemma cublas_options_inv (node : nat) (state : SDFGState E) (sdfg : SDFG E)
    (name : string) (o : CublasOpts) :
  cublas_options node state sdfg = Ok (name, o) →
  validate sdfg state node = Ok () ∧
  ∃ ty letter cdtype factort adesc bdesc cdesc ea A m k eb B k' n g bopt,
    library_node state node = Some (name, Some ty) ∧
    to_blastype ty = Ok letter ∧
    cublas_types str_dtype ty = Ok (cdtype, factort) ∧
    input_descs memlet_path node state sdfg = Ok (Some adesc, Some bdesc) ∧
    output_desc memlet_path node state sdfg = Ok (Some cdesc) ∧
    _get_matmul_inputs node state sdfg = Ok ((ea, A, (m, k)), (eb, B, (k', n))) ∧
    get_gemm_opts adesc bdesc cdesc = Ok g ∧
    get_batchmm_opts adesc bdesc (Some cdesc) = Ok bopt ∧
    o = cublas_opts (letter +:+ "gemm") cdtype factort m k n g bopt.
Proof.
  unfold MatMul.cublas_options. intros Hrun.
  destruct (library_node state node) as [[name' dtype]|]; [|done].
  apply bind_ok in Hrun as ([] & Hval & Hrun). split; [done|].
  apply bind_ok in Hrun as (ty & Hty & Hrun).
  destruct dtype as [ty'|]; [|by destruct attribute_error].
  injection Hty as ->.
  apply bind_ok in Hrun as (letter & Hletter & Hrun).
  apply bind_ok in Hrun as ([cdtype factort] & Htypes & Hrun).
  apply bind_ok in Hrun as ([adesc bdesc] & Hin & Hrun).
  apply bind_ok in Hrun as (cdesc & Hout & Hrun).
  destruct adesc as [adesc|]; [|done]. destruct bdesc as [bdesc|]; [|done].
  destruct cdesc as [cdesc|]; [|done].
  apply bind_ok in Hrun as ([[[ea A] [m k]] [[eb B] [k' n]]] & Hinputs & Hrun).
  apply bind_ok in Hrun as (g & Hg & Hrun).
  apply bind_ok in Hrun as (bopt & Hb & Hrun).
  injection Hrun as <- <-.
  exists ty, letter, cdtype, factort, adesc, bdesc, cdesc, ea, A, m, k, eb, B, k', n, g, bopt.
  done.
Qed.

(** X6.  The vendor expansions return a tasklet only for a node that passed
    [validate] and whose element type is one they know: [float32],
    [float64], [complex64] and [complex128] for MKL, and these and
    [float16] for cuBLAS.  On a validated node of another element type
    (for which [to_blastype] has an answer), each raises its [ValueError]
    that names the type, before it looks at the arrays. *)
Theorem vendor_expansions_supported_types (node : nat) (state : SDFGState E)
    (sdfg : SDFG E) :
  (∀ t, mkl_expansion node state sdfg = Ok t →
        validate sdfg state node = Ok () ∧
        ∃ ty, library_node state node = Some (t_name t, Some ty) ∧ ty ∈ mkl_types) ∧
  (∀ t, cublas_expansion node state sdfg = Ok t →
        validate sdfg state node = Ok () ∧
        ∃ ty, library_node state node = Some (t_name t, Some ty) ∧
              ty ∈ cublas_type_list) ∧
  (∀ name ty letter,
     library_node state node = Some (name, Some ty) →
     validate sdfg state node = Ok () →
     to_blastype ty = Ok letter →
     (ty ∉ mkl_types →
      mkl_expansion node state sdfg
      = Raise (ValueError (mkl_unsupported_msg str_dtype ty))) ∧
     (ty ∉ cublas_type_list →
      cublas_expansion node state sdfg
      = Raise (ValueError (cublas_unsupported_msg str_dtype ty)))).
Proof.
  split; [|split].
  - intros t Hrun. unfold MatMul.mkl_expansion in Hrun.
    destruct (library_node state node) as [[name dtype]|]; [|done].
    apply bind_ok in Hrun as ([] & Hval & Hrun). split; [done|].
    apply bind_ok in Hrun as (ty & Hty & Hrun).
    destruct dtype as [ty'|]; [|by destruct attribute_error].
    injection Hty as ->.
    apply bind_ok in Hrun as (letter & _ & Hrun).
    apply bind_ok in Hrun as ([alpha beta] & Hc & Hrun).
    apply bind_ok in Hrun as ([[[ea A] [m k]] [[eb B] [k' n]]] & _ & Hrun).
    injection Hrun as <-. exists ty. split; [done|].
    by apply (mkl_constants_ok ty (alpha, beta)).
  - intros t Hrun. unfold MatMul.cublas_expansion in Hrun.
    apply bind_ok in Hrun as ([name o] & Hopts & Hrun). injection Hrun as <-.
    destruct (cublas_options_inv _ _ _ _ _ Hopts)
      as (Hval & ty & letter & cdtype & factort & ? & ? & ? & ? & ? & ? & ? & ? & ? & ?
          & ? & ? & ? & Hnode & _ & Htypes & _).
    split; [done|]. exists ty. split; [done|].
    by apply (cublas_types_ok ty (cdtype, factort)).
  - intros name ty letter Hnode Hval Hletter. split; intros Hty.
    + unfold MatMul.mkl_expansion. rewrite Hnode, Hval. cbn [mbind res_bind dtype_type].
      rewrite Hletter. cbn [mbind res_bind].
      by rewrite (mkl_constants_refuses ty Hty).
    + unfold MatMul.cublas_expansion, MatMul.cublas_options.
      rewrite Hnode, Hval. cbn [mbind res_bind dtype_type].
      rewrite Hletter. cbn [mbind res_bind].
      by rewrite (cublas_types_refuses ty Hty).
Qed.

(** The attributes that the cuBLAS call passes for an operand: its
    leading dimension, its transposition letter, its number of rows or
    columns in the product, and its batch stride. *)
Definition operand (g : @GemmOpts E) (bopt : option (BatchOpts E)) (m n : E)
    (x : string) : E * string * E * option E :=
  if decide (x = "_a") then (g_lda g, g_ta g, m, opt_sa <$> bopt)
  else (g_ldb g, g_tb g, n, opt_sb <$> bopt).

(** X7.  In the options of the cuBLAS call the two operands may be exchanged
    ([swap] of [get_gemm_opts]), and each keeps its own attributes: what is
    passed with [x] (leading dimension, transposition, size, batch stride)
    belongs to the array named by [x], and likewise for [y]; [x] is [_b]
    exactly when [swap] is set.  The inner size [K], the leading dimension
    and batch stride of [_c] and the batch count are never exchanged, and
    the strided-batched call is used exactly when [get_batchmm_opts]
    returns parameters for the three arrays. *)
Theorem cublas_operands_keep_attributes (node : nat) (state : SDFGState E)
    (sdfg : SDFG E) (name : string) (o : CublasOpts) :
  cublas_options node state sdfg = Ok (name, o) →
  ∃ adesc bdesc cdesc ea A m k eb B k' n g bopt,
    input_descs memlet_path node state sdfg = Ok (Some adesc, Some bdesc) ∧
    output_desc memlet_path node state sdfg = Ok (Some cdesc) ∧
    _get_matmul_inputs node state sdfg = Ok ((ea, A, (m, k)), (eb, B, (k', n))) ∧
    get_gemm_opts adesc bdesc cdesc = Ok g ∧
    get_batchmm_opts adesc bdesc (Some cdesc) = Ok bopt ∧
    (c_lda o, c_ta o, c_M o, opt_sa <$> c_batch o) = operand g bopt m n (c_x o) ∧
    (c_ldb o, c_tb o, c_N o, opt_sb <$> c_batch o) = operand g bopt m n (c_y o) ∧
    ((c_x o, c_y o) = if g_swap g then ("_b", "_a") else ("_a", "_b")) ∧
    c_K o = k ∧ c_ldc o = g_ldc g ∧
    opt_sc <$> c_batch o = opt_sc <$> bopt ∧ opt_b <$> c_batch o = opt_b <$> bopt ∧
    (c_batch o = None ↔ bopt = None).
Proof.
  intros Hopts.
  destruct (cublas_options_inv _ _ _ _ _ Hopts)
    as (_ & ty & letter & cdtype & factort & adesc & bdesc & cdesc & ea & A & m & k
        & eb & B & k' & n & g & bopt & _ & _ & _ & Hin & Hout & Hinputs & Hg & Hb & ->).
  exists adesc, bdesc, cdesc, ea, A, m, k, eb, B, k', n, g, bopt.
  do 5 (split; [done|]).
  unfold cublas_opts, operand. destruct (g_swap g); destruct bopt as [b|];
    cbn [c_lda c_ta c_M c_ldb c_tb c_N c_x c_y c_K c_ldc c_batch fmap option_fmap
         option_map opt_sa opt_sb opt_sc opt_b];
    repeat split; try done.
Qed.

End VendorFacts.

(** The helpers on integer sizes, for a row-major layout: [get_gemm_opts]
    asks for the exchange of the operands. *)
Definition to_blastype_np (ty : typeclass) : res string :=
  match ty with
  | float16 => Ok "H" | float32 => Ok "S" | float64 => Ok "D"
  | complex64 => Ok "C" | complex128 => Ok "Z"
  | _ => Raise TypeError
  end.

Definition direct_path (st : SDFGState Z) (e : Edge Z) : list (Edge Z) := [e].

Definition gemm_opts_row_major (a b c : Array Z) : res (@GemmOpts Z) :=
  lda ← index_neg (shape a) 1;
  ldb ← index_neg (shape b) 1;
  ldc ← index_neg (shape c) 1;
  Ok (mkGemmOpts true lda ldb ldc "N" "N").

Definition C_5x2x2 : Array Z := array_of [5; 2; 2] [4; 2; 1].

Lemma cublas_operands_keep_attributes_witness :
  let st := matmul_state [5; 2; 2] [5; 2; 2] [5; 2; 2] in
  let sd := matmul_sdfg b_5x2x2 b_5x2x2 C_5x2x2 in
  let o := cublas_opts "Sgemm" "float" "Float" 2 2 2 (mkGemmOpts true 2 2 2 "N" "N")
                       (Some (mkBatchOpts 4 4 4 5)) in
  ∃ adesc bdesc cdesc ea A m k eb B k' n g bopt,
    input_descs direct_path 2 st sd = Ok (Some adesc, Some bdesc) ∧
    output_desc direct_path 2 st sd = Ok (Some cdesc) ∧
    _get_matmul_inputs squeezed_size_Z find_input_direct 2 st sd
    = Ok ((ea, A, (m, k)), (eb, B, (k', n))) ∧
    gemm_opts_row_major adesc bdesc cdesc = Ok g ∧
    get_batchmm_opts adesc bdesc (Some cdesc) = Ok bopt ∧
    (c_lda o, c_ta o, c_M o, opt_sa <$> c_batch o) = operand g bopt m n (c_x o) ∧
    (c_ldb o, c_tb o, c_N o, opt_sb <$> c_batch o) = operand g bopt m n (c_y o) ∧
    ((c_x o, c_y o) = if g_swap g then ("_b", "_a") else ("_a", "_b")) ∧
    c_K o = k ∧ c_ldc o = g_ldc g ∧
    opt_sc <$> c_batch o = opt_sc <$> bopt ∧ opt_b <$> c_batch o = opt_b <$> bopt ∧
    (c_batch o = None ↔ bopt = None).
Proof.
  cbv zeta.
  apply (cublas_operands_keep_attributes squeezed_size_Z find_input_direct RuntimeError
           to_blastype_np (λ _, "") direct_path gemm_opts_row_major 2
           (matmul_state [5; 2; 2] [5; 2; 2] [5; 2; 2])
           (matmul_sdfg b_5x2x2 b_5x2x2 C_5x2x2) "mm").
  vm_compute. reflexivity.
Defined.

End MatMul.

(** * Transformations on a mutable program *)

(** A Python function that reads and writes the objects of a program [W] and
    may raise: it returns its outcome and the program it leaves behind. *)
Definition M (W A : Type) : Type := W → res A * W.

#[global] Instance M_ret {W} : MRet (M W) := λ _ a w, (Ok a, w).
#[global] Instance M_bind {W} : MBind (M W) := λ _ _ f m w,
  match m w with
  | (Ok a, w') => f a w'
  | (Raise e, w') => (Raise e, w')
  end.

(** Reading an attribute, assigning to one, raising, and running a
    computation of [res]. *)
Definition gets {W A} (f : W → A) : M W A := λ w, (Ok (f w), w).
Definition modify {W} (f : W → W) : M W () := λ w, (Ok (), f w).

(** [for x in l: acc = body(acc, x)] *)
Fixpoint for_each {W A B} (l : list A) (body : B → A → M W B) (acc : B) : M W B :=
  match l with
  | [] => mret acc
  | x :: l' => acc' ← body acc x; for_each l' body acc'
  end.

(** A computation that leaves every program as it found it. *)
Definition read_only {W A} (m : M W A) : Prop := ∀ w, snd (m w) = w.

Lemma read_only_ret {W A} (a : A) : read_only (mret a : M W A).
Proof. by intros w. Qed.




Lemma read_only_bind {W A B} (m : M W A) (f : A → M W B) :
  read_only m → (∀ a, read_only (f a)) → read_only (m ≫= f).
Proof.
  intros Hm Hf w. unfold mbind, M_bind. specialize (Hm w).
  destruct (m w) as [[a|e] w']; simpl in *; subst w'; [apply Hf | done].
Qed.

Lemma read_only_for_each {W A B} (l : list A) (body : B → A → M W B) (acc : B) :
  (∀ b x, read_only (body b x)) → read_only (for_each l body acc).
Proof.
  intros Hb. revert acc. induction l as [|x l IH]; intros acc; simpl.
  - apply read_only_ret.
  - apply read_only_bind; [apply Hb | intros b; apply IH].
Qed.

(** * FPGA global to local *)

Module FPGAGlobalToLocal.

(** An SDFG of the hierarchy and a state are referred to by handles.  A
    descriptor is the object registered under a name in the [arrays] of an
    SDFG: the program is the table of these objects. *)
Definition DescKey : Type := nat * string.

(** A pair [(node, graph)] of [all_nodes_recursive]: the data name when the
    node is an access node, and the state that holds the node. *)
Record NodeRef : Type := mkNodeRef {
  nr_data : option string;
  nr_graph : nat
}.

(** An entry [(node_trace, memlet_trace, state_trace, sdfg_trace)] of
    [trace_nested_access]; of [node_trace] only the data name of its second
    node is read ([None] when that node is [None]). *)
Record TraceEntry : Type := mkTraceEntry {
  outer_data : option string;
  state_trace : nat;
  sdfg_trace : nat
}.

Section Transformation.
Context {E : Type}.

Local Abbreviation Store := (gmap DescKey (Array E)).

(** What the sources outside this file provide.  None of it depends on the
    storage class of a descriptor. *)
Variable arrays_recursive : list DescKey.                 (* [sdfg.arrays_recursive()] *)
Variable shared_transients : nat → list string.           (* [sd.shared_transients()] *)
Variable resolve_symbol_to_constant : E → option Z.       (* [resolve_symbol_to_constant(., sdfg)] *)
Variable states : nat → list nat.                         (* [sd.states()] *)
Variable all_nodes_recursive : nat → list NodeRef.        (* [state.all_nodes_recursive()] *)
Variable trace_nested_access : NodeRef → list TraceEntry. (* [trace_nested_access(node, graph, graph.parent)] *)
Variable parent : nat → nat.                              (* [graph.parent] *)

(** [FPGAGlobalToLocal.can_be_applied(graph, candidate, expr_index, sdfg)] *)
Definition can_be_applied {W} (graph candidate expr_index : nat) : M W bool :=
  mret true.

(** The loop over a trace: the second node of the first entry of this state
    and SDFG whose second node is not [None]. *)
Fixpoint find_outer_node (state sd : nat) (trace : list TraceEntry) : option string :=
  match trace with
  | [] => None
  | t :: trace' =>
    if bool_decide (state_trace t = state) && bool_decide (sdfg_trace t = sd) then
      match outer_data t with
      | Some d => Some d
      | None => find_outer_node state sd trace'
      end
    else find_outer_node state sd trace'
  end.

Definition set_storage (st : StorageType) (d : Array E) : Array E :=
  mkArray (shape d) (strides d) (offset d) (total_size d) (dtype d) st (transient d).

(** "update all access nodes that refers to this container": the descriptors
    [node.desc(graph)] whose storage is assigned, in the order of the loops. *)
Definition referring_descs (sd : nat) (name : string) : list DescKey :=
  state ← states sd;
  nr ← all_nodes_recursive state;
  match nr_data nr with
  | Some d =>
    match find_outer_node state sd (trace_nested_access nr) with
    | Some outer => if bool_decide (outer = name) then [(parent (nr_graph nr), d)] else []
    | None => []
    end
  | None => []
  end.

(** The test on [(sd, name, desc)], with the resolution of the total size. *)
Definition qualifies (sd : nat) (name : string) (desc : Array E) : bool :=
  transient desc && bool_decide (name ∉ shared_transients sd)
  && bool_decide (storage desc = FPGA_Global)
  && bool_decide (is_Some (resolve_symbol_to_constant (total_size desc))).

(** The body of the loop over [arrays_recursive()]. *)
Definition visit (count : nat) (key : DescKey) : M Store nat :=
  let '(sd, name) := key in
  desc ← gets (λ s : Store, s !! key);
  match desc with
  | None => mret count
  | Some desc =>
    if transient desc && bool_decide (name ∉ shared_transients sd)
       && bool_decide (storage desc = FPGA_Global)
    then
      match resolve_symbol_to_constant (total_size desc) with
      | Some total_size =>
        modify (alter (set_storage FPGA_Local) key);;
        for_each (referring_descs sd name)
                 (λ _ k, modify (alter (set_storage FPGA_Local) k)) ();;
        mret (S count)
      | None => mret count
      end
    else mret count
  end.

(** [FPGAGlobalToLocal.apply(self, sdfg)]: the lines written to standard
    output are returned; [debugprint] is [Config.get_bool('debugprint')]. *)
Definition apply_count : M Store nat := for_each arrays_recursive visit 0%nat.

Definition apply (debugprint : bool) : M Store (list string) :=
  count ← apply_count;
  if debugprint then mret ["Applied " +:+ pretty count +:+ " GlobalToLocal."]
  else mret [].

(** ** What [apply] changes *)

Definition debug_line (count : nat) : string :=
  "Applied " +:+ pretty count +:+ " GlobalToLocal.".

(** The descriptor under [key] passes the test of the loop. *)
Definition qualifying (s : Store) (key : DescKey) : bool :=
  match s !! key with
  | Some d => qualifies key.1 key.2 d
  | None => false
  end.

(** The qualifying descriptors among [l], each followed by the descriptors
    of the access nodes that refer to it. *)
Definition reclassified (s : Store) (l : list DescKey) : list DescKey :=
  κ ← filter (λ κ, qualifying s κ = true) l;
  κ :: referring_descs κ.1 κ.2.

Definition set_all (keys : list DescKey) (s : Store) : Store :=
  foldl (λ s k, alter (set_storage FPGA_Local) k s) s keys.

Lemma set_storage_idemp (st : StorageType) (d : Array E) :
  set_storage st (set_storage st d) = set_storage st d.
Proof. done. Qed.

Lemma lookup_set_all (keys : list DescKey) (s : Store) (k : DescKey) :
  set_all keys s !! k =
    if bool_decide (k ∈ keys) then set_storage FPGA_Local <$> s !! k else s !! k.
Proof.
  revert s. induction keys as [|k' keys IH]; intros s; simpl.
  - done.
  - rewrite IH. rewrite lookup_alter.
    destruct (decide (k' = k)) as [->|Hne].
    + rewrite (bool_decide_eq_true_2 (k ∈ k :: keys)) by constructor.
      case_bool_decide; [|done].
      destruct (s !! k); simpl; [|done]. by rewrite set_storage_idemp.
    + case_bool_decide as Hin.
      * by rewrite bool_decide_eq_true_2 by (by constructor).
      * rewrite bool_decide_eq_false_2; [done|].
        intros [?|?]%elem_of_cons; congruence.
Qed.

Lemma for_each_modify (keys : list DescKey) (s : Store) :
  for_each keys (λ _ k, modify (alter (set_storage FPGA_Local) k)) () s
  = (Ok (), set_all keys s).
Proof.
  revert s. induction keys as [|k keys IH]; intros s; [done|].
  simpl. unfold mbind, M_bind, modify. simpl. apply IH.
Qed.

Lemma visit_run (count : nat) (κ : DescKey) (s : Store) :
  visit count κ s =
    if qualifying s κ
    then (Ok (S count), set_all (κ :: referring_descs κ.1 κ.2) s)
    else (Ok count, s).
Proof.
  destruct κ as [sd name]. unfold visit, qualifying, qualifies.
  unfold mbind, M_bind, gets. cbn beta iota delta [fst snd].
  destruct (s !! _) as [d|] eqn:Hd; [|reflexivity].
  destruct (transient d && bool_decide (name ∉ shared_transients sd)
            && bool_decide (storage d = FPGA_Global)); [|reflexivity].
  cbn [andb].
  destruct (resolve_symbol_to_constant (total_size d)) as [z|] eqn:Hz.
  - rewrite bool_decide_eq_true_2 by done.
    unfold modify at 1. cbn beta iota. rewrite for_each_modify. reflexivity.
  - rewrite bool_decide_eq_false_2; [reflexivity|]. by intros [? ?].
Qed.

Section Run.
Variable s : Store.

(** [arrays_recursive()] yields every descriptor once. *)
Hypothesis order_nodup : NoDup arrays_recursive.

(** A descriptor that an access node uses for a qualifying container is
    that container, or does not qualify itself (the arrays behind the
    connectors of a nested SDFG are not transient). *)
Hypothesis referring_not_qualifying : ∀ κ k,
  κ ∈ arrays_recursive → qualifying s κ = true →
  k ∈ referring_descs κ.1 κ.2 → k = κ ∨ qualifying s k = false.

(** The store after the descriptors visited so far. *)
Definition after (visited : list DescKey) (cur : Store) : Prop :=
  ∀ k, cur !! k =
       if bool_decide (k ∈ reclassified s visited)
       then set_storage FPGA_Local <$> s !! k else s !! k.

Lemma qualifying_local (cur : Store) (k : DescKey) :
  cur !! k = set_storage FPGA_Local <$> s !! k → qualifying cur k = false.
Proof.
  intros Hk. unfold qualifying. rewrite Hk.
  destruct (s !! k) as [d|]; [|done]. simpl. unfold qualifies. simpl.
  by rewrite andb_false_r.
Qed.

Lemma reclassified_app (l1 l2 : list DescKey) :
  reclassified s (l1 ++ l2) = reclassified s l1 ++ reclassified s l2.
Proof. unfold reclassified. by rewrite filter_app, bind_app. Qed.

Lemma elem_of_reclassified (l : list DescKey) (k : DescKey) :
  k ∈ reclassified s l ↔
  ∃ κ, κ ∈ l ∧ qualifying s κ = true ∧ (k = κ ∨ k ∈ referring_descs κ.1 κ.2).
Proof.
  unfold reclassified. rewrite list_elem_of_bind. split.
  - intros (κ & Hk & Hκ). apply list_elem_of_filter in Hκ as [Hq Hκ].
    exists κ. set_solver.
  - intros (κ & Hκ & Hq & Hk). exists κ. rewrite list_elem_of_filter. set_solver.
Qed.

Lemma loop_run (visited rest : list DescKey) (cur : Store) (count : nat) :
  arrays_recursive = visited ++ rest →
  after visited cur →
  ∃ s', for_each rest visit count cur
        = (Ok (count + length (filter (λ κ, qualifying s κ = true) rest))%nat, s')
        ∧ after (visited ++ rest) s'.
Proof.
  revert visited cur count. induction rest as [|κ rest IH]; intros visited cur count Hall Hcur.
  - exists cur. simpl. rewrite app_nil_r, Nat.add_0_r. done.
  - assert (κ ∉ visited) as Hfresh.
    { pose proof order_nodup as Hnd. rewrite Hall in Hnd.
      apply NoDup_app in Hnd as (_ & Hnd & _). intros Hin. apply (Hnd κ Hin). by constructor. }
    assert (κ ∈ arrays_recursive) as Hin.
    { rewrite Hall. apply elem_of_app. right. by constructor. }
    assert (qualifying cur κ = qualifying s κ) as Hq.
    { specialize (Hcur κ). case_bool_decide as Hrec.
      - rewrite (qualifying_local cur κ Hcur).
        apply elem_of_reclassified in Hrec as (κ1 & Hκ1 & Hq1 & [->|Href]); [done|].
        destruct (referring_not_qualifying κ1 κ) as [->|Hnq]; try done.
        rewrite Hall. apply elem_of_app. by left.
      - unfold qualifying. by rewrite Hcur. }
    simpl. unfold mbind at 1, M_bind at 1. rewrite visit_run, Hq.
    rewrite filter_cons.
    destruct (qualifying s κ) eqn:Hqs.
    + destruct (IH (visited ++ [κ]) (set_all (κ :: referring_descs κ.1 κ.2) cur) (S count))
        as (s' & Hrun & Hs').
      { by rewrite <- app_assoc. }
      { intros k. rewrite lookup_set_all, reclassified_app, (Hcur k).
        assert (reclassified s [κ] = κ :: referring_descs κ.1 κ.2) as ->.
        { unfold reclassified. rewrite filter_cons, Hqs. simpl.
          by rewrite app_nil_r. }
        destruct (decide (k ∈ reclassified s visited)) as [Hv|Hv];
        destruct (decide (k ∈ κ :: referring_descs κ.1 κ.2)) as [Hn|Hn];
          rewrite ?(bool_decide_eq_true_2 _ Hv), ?(bool_decide_eq_false_2 _ Hv),
                  ?(bool_decide_eq_true_2 _ Hn), ?(bool_decide_eq_false_2 _ Hn).
        - rewrite bool_decide_eq_true_2 by (apply elem_of_app; by left).
          destruct (s !! k); [|done]. simpl. by rewrite set_storage_idemp.
        - rewrite bool_decide_eq_true_2 by (apply elem_of_app; by left). done.
        - rewrite bool_decide_eq_true_2 by (apply elem_of_app; by right). done.
        - rewrite bool_decide_eq_false_2; [done|].
          intros [?|?]%elem_of_app; done. }
      exists s'. rewrite <- app_assoc in Hs'. split; [|done].
      rewrite Hrun. simpl. do 2 f_equal. lia.
    + destruct (IH (visited ++ [κ]) cur count) as (s' & Hrun & Hs').
      { by rewrite <- app_assoc. }
      { intros k. rewrite reclassified_app, (Hcur k).
        assert (reclassified s [κ] = []) as ->.
        { unfold reclassified. by rewrite filter_cons, Hqs. }
        by rewrite app_nil_r. }
      exists s'. rewrite <- app_assoc in Hs'. split; [|done].
      by rewrite Hrun.
Qed.

End Run.

(** ** The descriptors that [apply] reclassifies *)

Lemma filter_ext_elem {A} (P Q : A → Prop) `{∀ x, Decision (P x)} `{∀ x, Decision (Q x)}
    (l : list A) :
  (∀ x, x ∈ l → P x ↔ Q x) → filter P l = filter Q l.
Proof.
  induction l as [|x l IH]; intros HPQ; [done|].
  rewrite !filter_cons. rewrite IH.
  - destruct (decide (P x)) as [HP|HP], (decide (Q x)) as [HQ|HQ]; try done.
    + destruct HQ. apply HPQ; [by constructor|done].
    + destruct HP. apply HPQ; [by constructor|done].
  - intros y Hy. apply HPQ. by constructor.
Qed.

Lemma length_filter_split {A} `{EqDecision A} (P : A → Prop) `{∀ x, Decision (P x)}
    (l : list A) (a : A) :
  NoDup l → a ∈ l →
  length (filter P l)
  = ((if decide (P a) then 1 else 0) + length (filter (λ x, P x ∧ x ≠ a) l))%nat.
Proof.
  induction l as [|x l IH]; intros Hnd Ha; [by apply elem_of_nil in Ha|].
  apply NoDup_cons in Hnd as [Hx Hnd]. rewrite !filter_cons.
  destruct (decide (x = a)) as [->|Hne].
  - rewrite (decide_False (P := P a ∧ a ≠ a)) by (by intros [_ ?]).
    rewrite (filter_ext_elem (λ x, P x ∧ x ≠ a) P l).
    + by destruct (decide (P a)).
    + intros y Hy. split; [by intros [? _]|]. intros HP. split; [done|].
      by intros ->.
  - apply elem_of_cons in Ha as [->|Ha]; [done|]. specialize (IH Hnd Ha).
    destruct (decide (P x)) as [HP|HP].
    + rewrite (decide_True (P := P x ∧ x ≠ a)) by done. simpl. rewrite IH. lia.
    + rewrite (decide_False (P := P x ∧ x ≠ a)) by (by intros [? _]). done.
Qed.

Section Distinct.
Variable s : Store.

(** A descriptor that the loop counts when it has visited [visited]: one
    that qualifies and has not been visited. *)
Definition counted (visited : list DescKey) (κ : DescKey) : Prop :=
  qualifying s κ = true ∧ κ ∉ visited.

#[local] Instance counted_dec visited κ : Decision (counted visited κ).
Proof. unfold counted. apply _. Defined.

Lemma reclassified_elem (l : list DescKey) (k : DescKey) :
  k ∈ reclassified s l ↔
  ∃ κ, κ ∈ l ∧ qualifying s κ = true ∧ (k = κ ∨ k ∈ referring_descs κ.1 κ.2).
Proof.
  unfold reclassified. rewrite list_elem_of_bind. split.
  - intros (κ & Hk & Hκ). apply list_elem_of_filter in Hκ as [Hq Hκ].
    exists κ. by apply elem_of_cons in Hk.
  - intros (κ & Hκ & Hq & Hk). exists κ. split; [by apply elem_of_cons|].
    by apply list_elem_of_filter.
Qed.

Lemma counted_next (visited rest : list DescKey) (κ : DescKey) :
  length (filter (counted visited) (remove_dups (κ :: rest)))
  = ((if decide (counted visited κ) then 1 else 0)
     + length (filter (counted (visited ++ [κ])) (remove_dups rest)))%nat.
Proof.
  assert (∀ x, x ≠ κ → counted visited x ↔ counted (visited ++ [κ]) x) as Hother.
  { intros x Hx. unfold counted. rewrite elem_of_app, list_elem_of_singleton. tauto. }
  cbn [remove_dups]. destruct (decide_rel elem_of κ rest) as [Hin|Hin].
  - rewrite (length_filter_split (counted visited) (remove_dups rest) κ);
      [|apply NoDup_remove_dups|by apply elem_of_remove_dups].
    f_equal. f_equal. apply filter_ext_elem. intros x _. split.
    + intros [Hc Hx]. by apply Hother.
    + intros Hc. assert (x ≠ κ) as Hx.
      { intros ->. destruct Hc as [_ Hc]. apply Hc, elem_of_app. right. by constructor. }
      split; [by apply Hother|done].
  - rewrite filter_cons.
    rewrite (filter_ext_elem (counted visited) (counted (visited ++ [κ])) (remove_dups rest)).
    + by destruct (decide (counted visited κ)).
    + intros x Hx. apply Hother. intros ->. apply Hin. by apply elem_of_remove_dups.
Qed.

Lemma loop_run_distinct (visited rest : list DescKey) (cur : Store) (count : nat) :
  (∀ κ k, κ ∈ arrays_recursive → qualifying s κ = true →
          k ∈ referring_descs κ.1 κ.2 → k = κ ∨ qualifying s k = false) →
  arrays_recursive = visited ++ rest →
  after s visited cur →
  ∃ s', for_each rest visit count cur
        = (Ok (count + length (filter (counted visited) (remove_dups rest)))%nat, s')
        ∧ after s (visited ++ rest) s'.
Proof.
  intros Href. revert visited cur count.
  induction rest as [|κ rest IH]; intros visited cur count Hall Hcur.
  - exists cur. simpl. rewrite app_nil_r, Nat.add_0_r. done.
  - assert (qualifying cur κ = bool_decide (counted visited κ)) as Hq.
    { specialize (Hcur κ). case_bool_decide as Hrec.
      - rewrite (qualifying_local s cur κ Hcur). symmetry. apply bool_decide_eq_false_2.
        intros [Hqs Hfresh].
        apply reclassified_elem in Hrec as (κ1 & Hκ1 & Hq1 & [->|Hr]); [done|].
        destruct (Href κ1 κ) as [->|Hnq]; [|done|done|done|congruence].
        rewrite Hall. apply elem_of_app. by left.
      - unfold qualifying. rewrite Hcur. fold (qualifying s κ).
        destruct (qualifying s κ) eqn:Hqs.
        + symmetry. apply bool_decide_eq_true_2. split; [done|]. intros Hin.
          apply Hrec, reclassified_elem. exists κ. split; [done|]. split; [done|by left].
        + symmetry. apply bool_decide_eq_false_2. intros [Hq' _]. congruence. }
    rewrite counted_next. cbn [for_each]. unfold mbind at 1, M_bind at 1.
    rewrite visit_run, Hq.
    destruct (decide (counted visited κ)) as [Hc|Hc].
    + rewrite (bool_decide_eq_true_2 _ Hc). destruct Hc as [Hqs Hfresh].
      destruct (IH (visited ++ [κ]) (set_all (κ :: referring_descs κ.1 κ.2) cur) (S count))
        as (s' & Hrun & Hs').
      { by rewrite <- app_assoc. }
      { intros k. rewrite lookup_set_all, (Hcur k).
        assert (k ∈ reclassified s (visited ++ [κ]) ↔
                k ∈ reclassified s visited ∨ k ∈ κ :: referring_descs κ.1 κ.2) as Hmem.
        { rewrite !reclassified_elem. split.
          - intros (κ1 & [Hκ1| ->%list_elem_of_singleton]%elem_of_app & Hq1 & Hk).
            + left. by exists κ1.
            + right. by apply elem_of_cons.
          - intros [(κ1 & Hκ1 & Hq1 & Hk)|Hk%elem_of_cons].
            + exists κ1. split; [apply elem_of_app; by left|done].
            + exists κ. split; [apply elem_of_app; right; by constructor|done]. }
        destruct (decide (k ∈ reclassified s visited)) as [Hv|Hv];
        destruct (decide (k ∈ κ :: referring_descs κ.1 κ.2)) as [Hn|Hn];
          rewrite ?(bool_decide_eq_true_2 _ Hv), ?(bool_decide_eq_false_2 _ Hv),
                  ?(bool_decide_eq_true_2 _ Hn), ?(bool_decide_eq_false_2 _ Hn).
        - rewrite bool_decide_eq_true_2 by (apply Hmem; by left).
          destruct (s !! k); [|done]. simpl. by rewrite set_storage_idemp.
        - rewrite bool_decide_eq_true_2 by (apply Hmem; by left). done.
        - rewrite bool_decide_eq_true_2 by (apply Hmem; by right). done.
        - rewrite bool_decide_eq_false_2; [done|]. intros [?|?]%Hmem; done. }
      exists s'. rewrite <- app_assoc in Hs'. split; [|done].
      rewrite Hrun. do 2 f_equal. lia.
    + rewrite (bool_decide_eq_false_2 _ Hc).
      destruct (IH (visited ++ [κ]) cur count) as (s' & Hrun & Hs').
      { by rewrite <- app_assoc. }
      { intros k. rewrite (Hcur k).
        assert (k ∈ reclassified s (visited ++ [κ]) ↔ k ∈ reclassified s visited) as Hmem.
        { rewrite !reclassified_elem. split.
          - intros (κ1 & [Hκ1| ->%list_elem_of_singleton]%elem_of_app & Hq1 & Hk).
            + by exists κ1.
            + exists κ. split; [|done].
              destruct (decide (κ ∈ visited)) as [?|Hfresh]; [done|].
              destruct Hc. by split.
          - intros (κ1 & Hκ1 & Hq1 & Hk).
            exists κ1. split; [apply elem_of_app; by left|done]. }
        destruct (decide (k ∈ reclassified s visited)) as [Hv|Hv].
        - rewrite (bool_decide_eq_true_2 _ Hv).
          by rewrite bool_decide_eq_true_2 by (by apply Hmem).
        - rewrite (bool_decide_eq_false_2 _ Hv).
          rewrite bool_decide_eq_false_2; [done|]. by intros ?%Hmem. }
      exists s'. rewrite <- app_assoc in Hs'. split; [|done].
      by rewrite Hrun.
Qed.

(** C8 (as amended).  On a program where a descriptor through which an
    access node refers to a qualifying container does not qualify itself,
    [apply] sets to [FPGA_Local] the storage of the qualifying descriptors
    (transient, not shared between states, stored as [FPGA_Global], of a
    total size that resolves to a constant) and of the descriptors through
    which access nodes refer to one of them, and of no other descriptor;
    nothing but the storage class changes; the count it reports is the
    number of qualifying descriptors; the debug flag decides only whether
    the count is printed. *)
Theorem apply_reclassifies :
  (∀ κ k, κ ∈ arrays_recursive → qualifying s κ = true →
          k ∈ referring_descs κ.1 κ.2 → k = κ ∨ qualifying s k = false) →
  ∃ s' : Store,
    (∀ debugprint : bool,
       apply debugprint s =
         (Ok (if debugprint
              then [debug_line (length (filter (λ κ, qualifying s κ = true)
                                               (remove_dups arrays_recursive)))]
              else []), s')) ∧
    (∀ k, k ∈ reclassified s arrays_recursive →
          s' !! k = set_storage FPGA_Local <$> s !! k) ∧
    (∀ k, k ∉ reclassified s arrays_recursive → s' !! k = s !! k).
Proof.
  intros Href.
  destruct (loop_run_distinct [] arrays_recursive s 0%nat Href eq_refl) as (s' & Hrun & Hs').
  { intros k. by rewrite bool_decide_eq_false_2 by (apply not_elem_of_nil). }
  rewrite (filter_ext_elem (counted []) (λ κ, qualifying s κ = true)) in Hrun.
  2:{ intros κ _. unfold counted. split; [by intros [? _]|]. intros Hq. split; [done|].
      apply not_elem_of_nil. }
  exists s'. split; [|split].
  - intros debugprint. unfold apply, apply_count, mbind at 1, M_bind at 1.
    rewrite Hrun. by destruct debugprint.
  - intros k Hk. rewrite (Hs' k). by rewrite bool_decide_eq_true_2.
  - intros k Hk. rewrite (Hs' k). by rewrite bool_decide_eq_false_2.
Qed.

End Distinct.


End Transformation.

(** ** A program with a nested SDFG *)

(** Sizes that are integers or named symbols; a symbol resolves to a
    constant when the SDFG defines one of that name. *)
Inductive size : Type :=
| Const (z : Z)
| Symbol (name : string).

Definition resolve (constants : gmap string Z) (e : size) : option Z :=
  match e with
  | Const z => Some z
  | Symbol n => constants !! n
  end.

Definition desc_of (total : size) (st : StorageType) (tr : bool) : Array size :=
  mkArray [total] [Const 1] [Const 0] total float32 st tr.

(** SDFG 0 has one state (10) with the arrays [A] (an argument of symbolic
    size) and [tmp] (a transient of 8 elements); a nested SDFG (1, state 20)
    writes [tmp] through its argument [inner], so the trace of the access
    node of [inner] leads to the access node of [tmp] in state 10. *)
Definition ex_order : list DescKey := [(0%nat, "A"); (0%nat, "tmp"); (1%nat, "inner")].

Definition ex_store : gmap DescKey (Array size) :=
  <[(0%nat, "A") := desc_of (Symbol "N") FPGA_Global false]>
  (<[(0%nat, "tmp") := desc_of (Const 8) FPGA_Global true]>
  (<[(1%nat, "inner") := desc_of (Const 8) FPGA_Global false]> ∅)).

Definition ex_states (sd : nat) : list nat :=
  match sd with 0%nat => [10%nat] | 1%nat => [20%nat] | _ => [] end.

Definition ex_nodes (state : nat) : list NodeRef :=
  if bool_decide (state = 10%nat)
  then [mkNodeRef (Some "A") 10; mkNodeRef (Some "tmp") 10; mkNodeRef None 10;
        mkNodeRef (Some "inner") 20]
  else if bool_decide (state = 20%nat) then [mkNodeRef (Some "inner") 20]
  else [].

Definition ex_trace (nr : NodeRef) : list TraceEntry :=
  match nr_data nr with
  | Some d =>
    if bool_decide (nr_graph nr = 20%nat)
    then [mkTraceEntry (Some "tmp") 10 0; mkTraceEntry (Some d) 20 1]
    else [mkTraceEntry (Some d) 10 0]
  | None => []
  end.

Definition ex_parent (state : nat) : nat :=
  if bool_decide (state = 20%nat) then 1%nat else 0%nat.

Definition ex_apply (debugprint : bool) : M (gmap DescKey (Array size)) (list string) :=
  apply ex_order (λ _, []) (resolve ∅) ex_states ex_nodes ex_trace ex_parent debugprint.

Definition ex_qualifying (k : DescKey) : bool :=
  qualifying (λ _, []) (resolve ∅) ex_store k.

Example ex_apply_prints :
  fst (ex_apply true ex_store) = Ok ["Applied 1 GlobalToLocal."] ∧
  fst (ex_apply false ex_store) = Ok [].
Proof. split; vm_compute; reflexivity. Qed.

(** [apply] does change the program it is run on: [read_only] tells a
    transformation from a matching test. *)
Example ex_apply_not_read_only : ¬ read_only (ex_apply false).
Proof.
  intros Hro. specialize (Hro ex_store).
  apply (f_equal (λ w, storage <$> w !! (0%nat, "tmp"))) in Hro.
  vm_compute in Hro. discriminate Hro.
Qed.

(** The same program with [inner] declared transient: the descriptor
    through which the nested SDFG refers to [tmp] qualifies itself. *)
Definition ex_store_transient_inner : gmap DescKey (Array size) :=
  <[(1%nat, "inner") := desc_of (Const 8) FPGA_Global true]> ex_store.

(** C8, as stated, fails here: the descriptor [inner] of the nested SDFG is
    not transient, so it does not qualify, and [apply] changes its storage
    from [FPGA_Global] to [FPGA_Local].  And where [inner] is transient,
    two descriptors qualify, [inner] is reclassified with [tmp] before the
    loop reaches it, and the count is 1. *)
Lemma apply_changes_non_qualifying_descriptor :
  ex_qualifying (1%nat, "inner") = false ∧
  storage <$> ex_store !! (1%nat, "inner") = Some FPGA_Global ∧
  storage <$> snd (ex_apply false ex_store) !! (1%nat, "inner") = Some FPGA_Local ∧
  filter (λ κ, qualifying (λ _, []) (resolve ∅) ex_store_transient_inner κ = true) ex_order
    = [(0%nat, "tmp"); (1%nat, "inner")] ∧
  fst (ex_apply true ex_store_transient_inner) = Ok ["Applied 1 GlobalToLocal."].
Proof. repeat split; vm_compute; reflexivity. Qed.

Lemma apply_reclassifies_witness :
  ∃ s' : gmap DescKey (Array size),
    (∀ debugprint : bool,
       ex_apply debugprint ex_store =
         (Ok (if debugprint
              then [debug_line (length (filter (λ κ, ex_qualifying κ = true)
                                               (remove_dups ex_order)))]
              else []), s')) ∧
    (∀ k, k ∈ reclassified (λ _, []) (resolve ∅) ex_states ex_nodes ex_trace ex_parent
                           ex_store ex_order →
          s' !! k = set_storage FPGA_Local <$> ex_store !! k) ∧
    (∀ k, k ∉ reclassified (λ _, []) (resolve ∅) ex_states ex_nodes ex_trace ex_parent
                           ex_store ex_order →
          s' !! k = ex_store !! k).
Proof.
  apply (apply_reclassifies ex_order (λ _, []) (resolve ∅) ex_states ex_nodes ex_trace
                            ex_parent ex_store).
  intros κ k Hκ Hq Hk.
  repeat (apply elem_of_cons in Hκ as [->|Hκ]); try (by apply elem_of_nil in Hκ);
    try discriminate Hq.
  vm_compute in Hk.
  repeat (apply elem_of_cons in Hk as [->|Hk]); try (by apply elem_of_nil in Hk).
  - by left.
  - by right.
Defined.

(** ** What [apply] keeps *)

Section Frame.
Context {E : Type}.

Variable arrays_recursive : list DescKey.
Variable shared_transients : nat → list string.
Variable resolve_symbol_to_constant : E → option Z.
Variable states : nat → list nat.
Variable all_nodes_recursive : nat → list NodeRef.
Variable trace_nested_access : NodeRef → list TraceEntry.
Variable parent : nat → nat.

Local Abbreviation Store := (gmap DescKey (Array E)).
Local Abbreviation visit :=
  (visit shared_transients resolve_symbol_to_constant states all_nodes_recursive
         trace_nested_access parent).
Local Abbreviation apply :=
  (apply arrays_recursive shared_transients resolve_symbol_to_constant states
         all_nodes_recursive trace_nested_access parent).
Local Abbreviation qualifying := (qualifying shared_transients resolve_symbol_to_constant).
Local Abbreviation referring_descs :=
  (referring_descs states all_nodes_recursive trace_nested_access parent).

(** Every descriptor of [s'] is the descriptor [s] has under the same key,
    up to a storage class that became [FPGA_Local]; no key is added or
    removed. *)
Definition storage_only (s s' : Store) : Prop :=
  ∀ k, s' !! k = s !! k ∨ s' !! k = set_storage FPGA_Local <$> s !! k.

Lemma storage_only_refl (s : Store) : storage_only s s.
Proof. intros k. by left. Qed.

Lemma storage_only_trans (s1 s2 s3 : Store) :
  storage_only s1 s2 → storage_only s2 s3 → storage_only s1 s3.
Proof.
  intros H12 H23 k. destruct (H23 k) as [->| ->]; [apply H12|].
  destruct (H12 k) as [->| ->]; [by right|]. right.
  destruct (s1 !! k); [|done]. simpl. by rewrite set_storage_idemp.
Qed.

Lemma storage_only_set_all (keys : list DescKey) (s : Store) :
  storage_only s (set_all keys s).
Proof. intros k. rewrite lookup_set_all. case_bool_decide; [by right|by left]. Qed.

Lemma loop_storage_only (l : list DescKey) (count : nat) (s : Store) :
  ∃ count' s', for_each l visit count s = (Ok count', s') ∧ storage_only s s'.
Proof.
  revert count s. induction l as [|κ l IH]; intros count s.
  - exists count, s. split; [done|apply storage_only_refl].
  - simpl. unfold mbind at 1, M_bind at 1. rewrite visit_run.
    destruct (qualifying s κ).
    + destruct (IH (S count) (set_all (κ :: referring_descs κ.1 κ.2) s))
        as (count' & s' & Hrun & Hs').
      exists count', s'. split; [done|].
      apply (storage_only_trans _ _ _ (storage_only_set_all _ s) Hs').
    + apply IH.
Qed.

(** A loop over descriptors that do not qualify counts nothing and changes
    nothing. *)
Lemma loop_none (l : list DescKey) (count : nat) (s : Store) :
  Forall (λ κ, qualifying s κ = false) l →
  for_each l visit count s = (Ok count, s).
Proof.
  induction l as [|κ l IH]; intros Hl; [done|].
  apply Forall_cons in Hl as [Hκ Hl].
  simpl. unfold mbind at 1, M_bind at 1. rewrite visit_run, Hκ. by apply IH.
Qed.

Lemma apply_none (debugprint : bool) (s : Store) :
  Forall (λ κ, qualifying s κ = false) arrays_recursive →
  apply debugprint s = (Ok (if debugprint then [debug_line 0] else []), s).
Proof.
  intros Hl. unfold FPGAGlobalToLocal.apply, apply_count, mbind at 1, M_bind at 1.
  rewrite (loop_none _ _ _ Hl). by destruct debugprint.
Qed.

(** X18.  All that [apply] does to the program is to assign [FPGA_Local]
    to the storage of descriptors: the shape, strides, offset, total size,
    element type and transient flag of every descriptor stay, and no
    descriptor is added or removed.  This holds for any order of
    [arrays_recursive()] and any traces. *)
Theorem apply_assigns_storage_only (debugprint : bool) (s : Store) :
  let s' := snd (apply debugprint s) in
  (∀ k, s' !! k = s !! k ∨ s' !! k = set_storage FPGA_Local <$> s !! k) ∧
  (∀ k d', s' !! k = Some d' →
     ∃ d, s !! k = Some d ∧
          shape d' = shape d ∧ strides d' = strides d ∧ offset d' = offset d ∧
          total_size d' = total_size d ∧ dtype d' = dtype d ∧
          transient d' = transient d ∧
          (storage d' = storage d ∨ storage d' = FPGA_Local)).
Proof.
  destruct (loop_storage_only arrays_recursive 0%nat s) as (count & s' & Hrun & Hs').
  assert (snd (apply debugprint s) = s') as ->.
  { unfold FPGAGlobalToLocal.apply, apply_count, mbind at 1, M_bind at 1.
    rewrite Hrun. by destruct debugprint. }
  cbv zeta. split.
  - exact Hs'.
  - intros k d' Hd'. destruct (Hs' k) as [Hk|Hk]; rewrite Hd' in Hk.
    + exists d'. split; [done|]. repeat split; by left.
    + destruct (s !! k) as [d|]; [|done]. injection Hk as ->.
      exists d. split; [done|]. repeat split; by right.
Qed.

(** X19.  On a program where no descriptor of [arrays_recursive()] qualifies (none
    that is transient, unshared, stored as [FPGA_Global] and of constant
    size), [apply] leaves the whole program as it is and its count is 0. *)
Theorem apply_without_candidates_is_identity (debugprint : bool) (s : Store) :
  (∀ κ, κ ∈ arrays_recursive → qualifying s κ = false) →
  apply debugprint s = (Ok (if debugprint then ["Applied 0 GlobalToLocal."] else []), s).
Proof.
  intros Hl. rewrite apply_none; [done|]. by apply Forall_forall.
Qed.

(** X20.  A second [apply] finds nothing left to do: after one run no descriptor
    qualifies any more, so the second run changes nothing and counts 0. *)
Theorem apply_idempotent (s : Store) (first second : bool) :
  NoDup arrays_recursive →
  (∀ κ k, κ ∈ arrays_recursive → qualifying s κ = true →
          k ∈ referring_descs κ.1 κ.2 → k = κ ∨ qualifying s k = false) →
  apply second (apply first s).2
  = (Ok (if second then ["Applied 0 GlobalToLocal."] else []), (apply first s).2).
Proof.
  intros Hnd Href.
  destruct (loop_run arrays_recursive shared_transients resolve_symbol_to_constant
              states all_nodes_recursive trace_nested_access parent s Hnd Href
              [] arrays_recursive s 0%nat eq_refl) as (s' & Hrun & Hs').
  { intros k. by rewrite bool_decide_eq_false_2 by (apply not_elem_of_nil). }
  assert ((apply first s).2 = s') as ->.
  { unfold FPGAGlobalToLocal.apply, apply_count, mbind at 1, M_bind at 1.
    rewrite Hrun. by destruct first. }
  rewrite apply_none; [done|].
  apply Forall_forall. intros κ Hκ. simpl in Hs'. specialize (Hs' κ).
  case_bool_decide as Hrec.
  - by apply (qualifying_local _ _ s).
  - unfold FPGAGlobalToLocal.qualifying. rewrite Hs'.
    destruct (qualifying s κ) eqn:Hq; [|done].
    destruct Hrec.
    apply (elem_of_reclassified arrays_recursive _ _ _ _ _ _ s Hnd Href).
    exists κ. split; [done|]. split; [done|by left].
Qed.

End Frame.

Lemma apply_without_candidates_is_identity_witness :
  apply [(0%nat, "A")] (λ _, []) (resolve ∅) ex_states ex_nodes ex_trace ex_parent
        true ex_store
  = (Ok ["Applied 0 GlobalToLocal."], ex_store).
Proof.
  apply (apply_without_candidates_is_identity [(0%nat, "A")] (λ _, []) (resolve ∅)
           ex_states ex_nodes ex_trace ex_parent true ex_store).
  intros κ Hκ. apply list_elem_of_singleton in Hκ as ->. vm_compute. reflexivity.
Defined.

Lemma apply_idempotent_witness :
  ex_apply true (ex_apply false ex_store).2
  = (Ok ["Applied 0 GlobalToLocal."], (ex_apply false ex_store).2).
Proof.
  apply (apply_idempotent ex_order (λ _, []) (resolve ∅) ex_states ex_nodes ex_trace
                     ex_parent ex_store false true).
  - repeat constructor; vm_compute; intros Hin;
      repeat (inversion Hin as [|? ? ? Hin']; subst; clear Hin; rename Hin' into Hin).
  - intros κ k Hκ Hq Hk.
    repeat (apply elem_of_cons in Hκ as [->|Hκ]); try (by apply elem_of_nil in Hκ);
      try discriminate Hq.
    vm_compute in Hk.
    repeat (apply elem_of_cons in Hk as [->|Hk]); try (by apply elem_of_nil in Hk).
    + by left.
    + by right.
Defined.

(** ** Programs without nested references *)

Section Flat.
Context {E : Type}.

Variable arrays_recursive : list DescKey.
Variable shared_transients : nat → list string.
Variable resolve_symbol_to_constant : E → option Z.
Variable states : nat → list nat.
Variable all_nodes_recursive : nat → list NodeRef.
Variable trace_nested_access : NodeRef → list TraceEntry.
Variable parent : nat → nat.

Local Abbreviation apply :=
  (apply arrays_recursive shared_transients resolve_symbol_to_constant states
         all_nodes_recursive trace_nested_access parent).
Local Abbreviation qualifying := (qualifying shared_transients resolve_symbol_to_constant).
Local Abbreviation referring_descs :=
  (referring_descs states all_nodes_recursive trace_nested_access parent).

(** X23.  When every access node that refers to a qualifying container uses the
    descriptor of that container itself (as in a program without nested
    SDFGs), [apply] changes exactly the qualifying descriptors: each gets the
    storage [FPGA_Local], every other descriptor stays as it was, and the
    count is the number of qualifying descriptors. *)
Theorem apply_flat_changes_qualifying_only (s : gmap DescKey (Array E)) :
  NoDup arrays_recursive →
  (∀ κ k, κ ∈ arrays_recursive → qualifying s κ = true →
          k ∈ referring_descs κ.1 κ.2 → k = κ) →
  ∃ s' : gmap DescKey (Array E),
    (∀ debugprint : bool,
       apply debugprint s =
         (Ok (if debugprint
              then [debug_line (length (filter (λ κ, qualifying s κ = true)
                                               arrays_recursive))]
              else []), s')) ∧
    (∀ k, k ∈ arrays_recursive → qualifying s k = true →
          s' !! k = set_storage FPGA_Local <$> s !! k) ∧
    (∀ k, ¬ (k ∈ arrays_recursive ∧ qualifying s k = true) → s' !! k = s !! k).
Proof.
  intros Hnd Hflat.
  assert (∀ κ k, κ ∈ arrays_recursive → qualifying s κ = true →
                 k ∈ referring_descs κ.1 κ.2 → k = κ ∨ qualifying s k = false) as Href.
  { intros κ k Hκ Hq Hk. left. by apply (Hflat κ k). }
  destruct (loop_run arrays_recursive shared_transients resolve_symbol_to_constant
              states all_nodes_recursive trace_nested_access parent s Hnd Href
              [] arrays_recursive s 0%nat eq_refl) as (s' & Hrun & Hs').
  { intros k. by rewrite bool_decide_eq_false_2 by (apply not_elem_of_nil). }
  simpl in Hs'.
  exists s'. split; [|split].
  - intros debugprint.
    unfold FPGAGlobalToLocal.apply, apply_count, mbind at 1, M_bind at 1.
    rewrite Hrun. by destruct debugprint.
  - intros k Hk Hq. rewrite (Hs' k). rewrite bool_decide_eq_true_2; [done|].
    apply (elem_of_reclassified arrays_recursive _ _ _ _ _ _ s Hnd Href).
    exists k. split; [done|]. split; [done|by left].
  - intros k Hk. rewrite (Hs' k). rewrite bool_decide_eq_false_2; [done|].
    intros Hin.
    apply (elem_of_reclassified arrays_recursive _ _ _ _ _ _ s Hnd Href) in Hin
      as (κ & Hκ & Hq & [->|Hr]).
    + by apply Hk.
    + apply Hk. by rewrite (Hflat κ k Hκ Hq Hr).
Qed.

End Flat.

Lemma apply_flat_changes_qualifying_only_witness :
  ∃ s' : gmap DescKey (Array size),
    (∀ debugprint : bool,
       apply [(0%nat, "A"); (0%nat, "tmp")] (λ _, []) (resolve ∅) (λ _, []) ex_nodes
             ex_trace ex_parent debugprint ex_store =
         (Ok (if debugprint
              then [debug_line (length (filter (λ κ, ex_qualifying κ = true)
                                               [(0%nat, "A"); (0%nat, "tmp")]))]
              else []), s')) ∧
    (∀ k, k ∈ [(0%nat, "A"); (0%nat, "tmp")] → ex_qualifying k = true →
          s' !! k = set_storage FPGA_Local <$> ex_store !! k) ∧
    (∀ k, ¬ (k ∈ [(0%nat, "A"); (0%nat, "tmp")] ∧ ex_qualifying k = true) →
          s' !! k = ex_store !! k).
Proof.
  apply (apply_flat_changes_qualifying_only [(0%nat, "A"); (0%nat, "tmp")] (λ _, [])
           (resolve ∅) (λ _, []) ex_nodes ex_trace ex_parent ex_store).
  - repeat constructor; vm_compute; intros Hin;
      repeat (inversion Hin as [|? ? ? Hin']; subst; clear Hin; rename Hin' into Hin).
  - intros κ k _ _ Hk. vm_compute in Hk. by apply elem_of_nil in Hk.
Defined.

End FPGAGlobalToLocal.

(** * Map fission *)

Module MapFission.

(** [candidate]: the handles matched to the pattern nodes [_map_entry] and
    [_nested_sdfg]. *)
Record Candidate : Type := mkCandidate {
  _map_entry : nat;
  _nested_sdfg : nat
}.

Section Graph.
Context {E : Type}.

(** ** Graph queries the transformation relies on *)

Definition is_access_node (n : option (Node E)) : option string :=
  match n with Some (AccessNode d) => Some d | _ => None end.

(** [isinstance(n, nodes.CodeNode)]: tasklets, nested SDFGs, library nodes. *)
Definition is_code_node (n : option (Node E)) : bool :=
  match n with
  | Some (Tasklet _) | Some (NestedSDFG _ _) | Some (LibraryNode _ _) => true
  | _ => false
  end.

Definition is_entry_node (n : option (Node E)) : bool :=
  match n with Some (MapEntry _) => true | _ => false end.

Definition node_ids (g : SDFGState E) : list nat := fst <$> nodes g.

(** A state, or a [SubgraphView] of a state: the graph, the nodes of the
    view, and whether it is the state itself ([isinstance(_, SDFGState)]). *)
Record View : Type := mkView {
  graph_of : SDFGState E;
  view_nodes : list nat;
  is_state : bool
}.

Definition state_view (g : SDFGState E) : View := mkView g (node_ids g) true.

(** Edges of a view: those of the graph between nodes of the view. *)
Definition view_in_edges (v : View) (n : nat) : list (Edge E) :=
  if is_state v then in_edges (edges (graph_of v)) n
  else filter (λ e, src e ∈ view_nodes v) (in_edges (edges (graph_of v)) n).

Definition view_out_edges (v : View) (n : nat) : list (Edge E) :=
  if is_state v then out_edges (edges (graph_of v)) n
  else filter (λ e, dst e ∈ view_nodes v) (out_edges (edges (graph_of v)) n).

Definition source_nodes (v : View) : list nat :=
  filter (λ n, view_in_edges v n = []) (view_nodes v).

Definition sink_nodes (v : View) : list nat :=
  filter (λ n, view_out_edges v n = []) (view_nodes v).

(** Modelled from the spec: [exit_nodes], which the translated sources call
    but do not define ("every EntryNode has exactly one matching ExitNode in
    the same graph"): the exit nodes that share the [Map] of the entry. *)
Definition is_exit_of (m : nat) (n : Node E) : bool :=
  match n with MapExit m' => bool_decide (m' = m) | _ => false end.

Definition exit_nodes (g : SDFGState E) (entry : nat) : list nat :=
  match node g entry with
  | Some (MapEntry m) => fst <$> filter (λ p, is_exit_of m (snd p) = true) (nodes g)
  | _ => []
  end.

(** Modelled from the spec: the scope of an entry node ("all nodes
    topologically between them are inside the scope"), read off the scope
    dictionary: [n] is inside [entry] when [entry] is on the chain of scopes
    around [n]. *)
Fixpoint inside_scope (fuel : nat) (scp : gmap nat nat) (entry n : nat) : bool :=
  match fuel with
  | O => false
  | S fuel' =>
    match scp !! n with
    | None => false
    | Some p => bool_decide (p = entry) || inside_scope fuel' scp entry p
    end
  end.

(** Modelled from the spec: [scope_subgraph(entry, include_entry=False,
    include_exit=False)], a view of the nodes inside the scope, without the
    entry and its exit. *)
Definition scope_subgraph (g : SDFGState E) (entry : nat) : View :=
  mkView g
    (filter (λ n, inside_scope (length (nodes g)) (scope g) entry n = true
                  ∧ n ∉ exit_nodes g entry) (node_ids g))
    false.

(** Modelled from the spec: [scope_dict(node_to_children=True)[None]] of a
    view, the nodes of the view that are in no scope of the view. *)
Definition is_toplevel (v : View) (n : nat) : bool :=
  match scope (graph_of v) !! n with
  | Some p => bool_decide (p ∉ view_nodes v)
  | None => true
  end.

Definition toplevel (v : View) : list nat :=
  filter (λ n, is_toplevel v n = true) (view_nodes v).

(** Modelled from the spec: [has_dynamic_map_inputs], a map with
    "dynamically-sized (data-dependent) range inputs": an edge enters the
    map entry through a connector that is not an [IN_] connector (the test
    [apply] uses to copy the dynamic input connectors). *)
Definition is_dynamic_input (e : Edge E) : bool :=
  match dst_conn e with
  | Some c => negb (String.prefix "IN_" c)
  | None => false
  end.

Definition has_dynamic_map_inputs (g : SDFGState E) (entry : nat) : bool :=
  existsb is_dynamic_input (in_edges (edges g) entry).

(** A Python [set] of names, in the order of insertion. *)
Definition set_of (l : list string) : list string := remove_dups l.

(** ** The static helpers of [MapFission] *)

(** [MapFission._components(subgraph)] *)
Definition _components (subgraph : View) : res (list (nat * nat)) :=
  let graph := graph_of subgraph in
  mapM (M := res) (λ n,
          if is_entry_node (node graph n)
          then x ← index (exit_nodes graph n) 0; Ok (n, x)
          else Ok (n, n))
       (filter (λ n, is_code_node (node graph n) || is_entry_node (node graph n) = true)
               (toplevel subgraph)).

(** The names read by the components and the names written by them, as
    collected by the loops of [_border_arrays]; [use] is [True] for every
    node when the test on sources and sinks is left out. *)
Definition component_inputs (components : list (nat * nat)) (subgraph : View)
    (use : nat → bool) : list string :=
  '(component_in, _) ← components;
  e ← view_in_edges subgraph component_in;
  match is_access_node (node (graph_of subgraph) (src e)) with
  | Some d => if use (src e) then [d] else []
  | None => []
  end.

Definition component_outputs (components : list (nat * nat)) (subgraph : View)
    (use : nat → bool) : list string :=
  '(_, component_out) ← components;
  e ← view_out_edges subgraph component_out;
  match is_access_node (node (graph_of subgraph) (dst e)) with
  | Some d => if use (dst e) then [d] else []
  | None => []
  end.

(** [MapFission._border_arrays(components, subgraph, sources, sinks)]: the
    two loops of one component run one after the other. *)
Definition _border_arrays (components : list (nat * nat)) (subgraph : View)
    (sources sinks : list nat) : list string :=
  let use_sources_sinks := negb (is_state subgraph) in
  set_of ('(component_in, component_out) ← components;
          component_inputs [(component_in, component_out)] subgraph
            (λ n, use_sources_sinks || bool_decide (n ∉ sources))
          ++ component_outputs [(component_in, component_out)] subgraph
            (λ n, use_sources_sinks || bool_decide (n ∉ sinks))).

(** [MapFission._internal_border_arrays(components, subgraph)] *)
Definition _internal_border_arrays (components : list (nat * nat)) (subgraph : View)
  : list string :=
  let inputs := set_of (component_inputs components subgraph (λ _, true)) in
  let outputs := set_of (component_outputs components subgraph (λ _, true)) in
  filter (λ d, d ∈ outputs) inputs.

(** [MapFission._outside_map(node, scope_dict, entry_nodes)] *)
Fixpoint _outside_map (fuel : nat) (n : nat) (scope_dict : gmap nat nat)
    (entry_nodes : list nat) : bool :=
  match fuel with
  | O => true
  | S fuel' =>
    match scope_dict !! n with
    | None => true
    | Some p => if bool_decide (p ∈ entry_nodes) then false
                else _outside_map fuel' p scope_dict entry_nodes
    end
  end.

(** ** [can_be_applied] *)

(** The names of the access nodes of [graph] outside [snodes] and of the
    access nodes of the other states of the SDFG. *)
Definition not_subgraph (graph : SDFGState E) (snodes : list nat)
    (sdfg : SDFG E) (state_id : nat) : list string :=
  set_of (omap (λ p, if bool_decide (fst p ∉ snodes)
                     then is_access_node (Some (snd p)) else None) (nodes graph)
          ++ (s ← delete state_id (sdfg_states sdfg);
              omap (λ p, is_access_node (Some (snd p))) (nodes s))).

(** The loop over the border arrays: [Ok false] when it reaches a
    descriptor whose [transient] is [False]. *)
Fixpoint all_transient (registry : gmap string (Array E)) (border_arrays : list string)
  : res bool :=
  match border_arrays with
  | [] => Ok true
  | array :: rest =>
    ndesc ← getitem registry (Some array);
    if transient ndesc then all_transient registry rest else Ok false
  end.

(** The body of the loop over the subgraphs: [Ok false] for [return False],
    [Ok true] when the loop goes on.  [registry] is [sdfg.arrays] for a map
    with a subgraph and [nsdfg_node.sdfg.arrays] for a map with a nested
    SDFG. *)
Definition test_subgraph (expr_index : nat) (graph : SDFGState E) (sdfg : SDFG E)
    (state_id : nat) (registry : gmap string (Array E)) (sg : View) : res bool :=
  components ← _components sg;
  let snodes := view_nodes sg in
  let sources := source_nodes sg in
  let sinks := sink_nodes sg in
  if bool_decide (0 < length snodes)%nat && bool_decide (length components <= 1)%nat
  then Ok false else
  let border_arrays := _border_arrays components sg sources sinks in
  let external_arrays :=
    filter (λ d, d ∉ _internal_border_arrays components sg) border_arrays in
  if bool_decide (0 < length external_arrays)%nat then Ok false else
  transients ← all_transient registry border_arrays;
  if negb transients then Ok false else
  if bool_decide (expr_index = 0%nat) then
    let outside := not_subgraph graph snodes sdfg state_id in
    Ok (bool_decide (Forall (λ d, d ∉ outside)
                            (component_outputs components sg (λ _, true))))
  else Ok true.

Fixpoint test_subgraphs (expr_index : nat) (graph : SDFGState E) (sdfg : SDFG E)
    (state_id : nat) (registry : gmap string (Array E)) (subgraphs : list View)
  : res bool :=
  match subgraphs with
  | [] => Ok true
  | sg :: rest =>
    match test_subgraph expr_index graph sdfg state_id registry sg with
    | Ok true => test_subgraphs expr_index graph sdfg state_id registry rest
    | Ok false => Ok false
    | Raise e => Raise e
    end
  end.

Definition nested_sdfg (g : SDFGState E) (i : nat) : res (SDFG E) :=
  match node g i with
  | Some (NestedSDFG _ sd) => Ok sd
  | Some _ => Raise TypeError
  | None => Raise IndexError
  end.

(** [MapFission.can_be_applied(graph, candidate, expr_index, sdfg)], where
    [graph] is the state of index [state_id] of [sdfg]. *)
Definition can_be_applied (graph : SDFGState E) (candidate : Candidate)
    (expr_index : nat) (sdfg : SDFG E) (state_id : nat) : res bool :=
  let map_node := _map_entry candidate in
  _ ← (if node graph map_node is Some _ then Ok () else Raise IndexError);
  if has_dynamic_map_inputs graph map_node then Ok false else
  if bool_decide (expr_index = 0%nat) then
    test_subgraphs expr_index graph sdfg state_id (arrays sdfg)
                   [scope_subgraph graph map_node]
  else
    nsdfg ← nested_sdfg graph (_nested_sdfg candidate);
    if bool_decide (1 < length (remove_dups (dst <$> out_edges (edges graph) map_node)))%nat
    then Ok false else
    test_subgraphs expr_index graph sdfg state_id (arrays nsdfg)
                   (state_view <$> sdfg_states nsdfg).

(** ** [can_be_applied] on the program *)

(** The program is the SDFG that the transformation engine holds, with its
    states, their nodes and nested SDFGs, and the registries of
    descriptors; [graph] is its state of index [state_id].  The arguments
    of [can_be_applied] are references into the program, so every
    statement of the source that uses one of them is written as an
    operation on the program as it is when the statement runs, in the monad
    in which [FPGAGlobalToLocal.apply] assigns to descriptors. *)











(** ** Candidates that are rejected *)

(** The subgraphs that [can_be_applied] tests and the registry of their
    arrays. *)
Definition tested (graph : SDFGState E) (candidate : Candidate) (expr_index : nat)
    (sdfg : SDFG E) : list View * gmap string (Array E) :=
  if bool_decide (expr_index = 0%nat)
  then ([scope_subgraph graph (_map_entry candidate)], arrays sdfg)
  else match nested_sdfg graph (_nested_sdfg candidate) with
       | Ok nsdfg => (state_view <$> sdfg_states nsdfg, arrays nsdfg)
       | Raise _ => ([], ∅)
       end.

Definition border_arrays_of (sg : View) (components : list (nat * nat)) : list string :=
  _border_arrays components sg (source_nodes sg) (sink_nodes sg).

(** A subgraph with nodes and at most one component. *)
Definition few_components (sg : View) : Prop :=
  view_nodes sg ≠ [] ∧
  ∃ components, _components sg = Ok components ∧ (length components <= 1)%nat.

(** A border array that is not transient. *)
Definition non_transient_border (registry : gmap string (Array E)) (sg : View) : Prop :=
  ∃ components d desc,
    _components sg = Ok components ∧ d ∈ border_arrays_of sg components ∧
    registry !! d = Some desc ∧ transient desc = false.

(** A border array with an access node outside the subgraph: elsewhere in
    the state or in another state. *)
Definition border_used_elsewhere (graph : SDFGState E) (sdfg : SDFG E) (state_id : nat)
    (sg : View) : Prop :=
  ∃ components d,
    _components sg = Ok components ∧ d ∈ border_arrays_of sg components ∧
    d ∈ not_subgraph graph (view_nodes sg) sdfg state_id.

(** The graph is well formed where [can_be_applied] looks: the components
    are found (every entry node at top level has its exit node) and the
    border arrays are registered. *)
Definition well_formed (registry : gmap string (Array E)) (sg : View) : Prop :=
  ∃ components, _components sg = Ok components ∧
    ∀ d, d ∈ border_arrays_of sg components → is_Some (registry !! d).

Lemma all_transient_ok (registry : gmap string (Array E)) (l : list string) :
  (∀ d, d ∈ l → is_Some (registry !! d)) → ∃ t, all_transient registry l = Ok t.
Proof.
  induction l as [|d l IH]; intros Hreg; [by exists true|].
  destruct (Hreg d) as [desc Hd]; [by constructor|].
  simpl. rewrite Hd. simpl. destruct (transient desc); [|by exists false].
  apply IH. intros d' Hd'. apply Hreg. by constructor.
Qed.

Lemma all_transient_false (registry : gmap string (Array E)) (l : list string)
    (d : string) (desc : Array E) :
  (∀ d, d ∈ l → is_Some (registry !! d)) →
  d ∈ l → registry !! d = Some desc → transient desc = false →
  all_transient registry l = Ok false.
Proof.
  induction l as [|d' l IH]; intros Hreg Hin Hd Ht; [by apply elem_of_nil in Hin|].
  destruct (Hreg d') as [desc' Hd']; [by constructor|].
  simpl. rewrite Hd'. simpl. destruct (transient desc') eqn:Ht'; [|done].
  apply IH; try done.
  - intros d'' Hd''. apply Hreg. by constructor.
  - apply elem_of_cons in Hin as [->|Hin]; [congruence|done].
Qed.

Lemma test_subgraph_ok (expr_index : nat) (graph : SDFGState E) (sdfg : SDFG E)
    (state_id : nat) (registry : gmap string (Array E)) (sg : View) :
  well_formed registry sg →
  ∃ t, test_subgraph expr_index graph sdfg state_id registry sg = Ok t.
Proof.
  intros (components & Hc & Hreg). unfold test_subgraph. rewrite Hc. simpl.
  destruct (_ && _); [by exists false|].
  case_bool_decide; [by exists false|].
  destruct (all_transient_ok registry _ Hreg) as [t Ht].
  unfold border_arrays_of in Ht. rewrite Ht. simpl.
  destruct t; simpl; [|by exists false].
  case_bool_decide; eauto.
Qed.

Lemma test_subgraph_few (expr_index : nat) (graph : SDFGState E) (sdfg : SDFG E)
    (state_id : nat) (registry : gmap string (Array E)) (sg : View) :
  few_components sg →
  test_subgraph expr_index graph sdfg state_id registry sg = Ok false.
Proof.
  intros (Hne & components & Hc & Hlen). unfold test_subgraph. rewrite Hc. simpl.
  rewrite (bool_decide_eq_true_2 (0 < length (view_nodes sg))%nat).
  - by rewrite (bool_decide_eq_true_2 _ Hlen).
  - destruct (view_nodes sg); [done|simpl; lia].
Qed.

Lemma test_subgraph_non_transient (expr_index : nat) (graph : SDFGState E)
    (sdfg : SDFG E) (state_id : nat) (registry : gmap string (Array E)) (sg : View) :
  well_formed registry sg → non_transient_border registry sg →
  test_subgraph expr_index graph sdfg state_id registry sg = Ok false.
Proof.
  intros (components & Hc & Hreg) (components' & d & desc & Hc' & Hd & Hdesc & Ht).
  assert (components' = components) as -> by congruence.
  unfold test_subgraph. rewrite Hc. simpl.
  destruct (_ && _); [done|].
  case_bool_decide; [done|].
  unfold border_arrays_of in *.
  by rewrite (all_transient_false registry _ d desc Hreg Hd Hdesc Ht).
Qed.

Lemma internal_border_is_output (components : list (nat * nat)) (sg : View) (d : string) :
  d ∈ _internal_border_arrays components sg →
  d ∈ component_outputs components sg (λ _, true).
Proof.
  unfold _internal_border_arrays, set_of.
  intros [Hout _]%list_elem_of_filter. simpl in Hout.
  by apply elem_of_remove_dups.
Qed.

Lemma test_subgraph_used_elsewhere (graph : SDFGState E) (sdfg : SDFG E)
    (state_id : nat) (registry : gmap string (Array E)) (sg : View) :
  well_formed registry sg → border_used_elsewhere graph sdfg state_id sg →
  test_subgraph 0 graph sdfg state_id registry sg = Ok false.
Proof.
  intros (components & Hc & Hreg) (components' & d & Hc' & Hd & Houtside).
  assert (components' = components) as -> by congruence.
  unfold test_subgraph. rewrite Hc. simpl.
  destruct (_ && _); [done|].
  case_bool_decide as Hext; [done|].
  destruct (all_transient_ok registry _ Hreg) as [t Ht].
  unfold border_arrays_of in *. rewrite Ht. simpl.
  destruct t; simpl; [|done].
  rewrite bool_decide_eq_false_2; [done|].
  intros Hall. rewrite Forall_forall in Hall. apply (Hall d); [|done].
  apply internal_border_is_output.
  destruct (decide (d ∈ _internal_border_arrays components sg)) as [|Hni]; [done|].
  destruct Hext.
  assert (d ∈ filter (λ d, d ∉ _internal_border_arrays components sg)
                     (_border_arrays components sg (source_nodes sg) (sink_nodes sg)))
    as Hin by (by apply list_elem_of_filter).
  destruct (filter _ _); [by apply elem_of_nil in Hin|simpl; lia].
Qed.

Lemma test_subgraphs_false (expr_index : nat) (graph : SDFGState E) (sdfg : SDFG E)
    (state_id : nat) (registry : gmap string (Array E)) (l : list View) (sg : View) :
  (∀ sg', sg' ∈ l → well_formed registry sg') →
  sg ∈ l →
  test_subgraph expr_index graph sdfg state_id registry sg = Ok false →
  test_subgraphs expr_index graph sdfg state_id registry l = Ok false.
Proof.
  induction l as [|sg' l IH]; intros Hwf Hin Hsg; [by apply elem_of_nil in Hin|].
  simpl.
  destruct (test_subgraph_ok expr_index graph sdfg state_id registry sg') as [t Ht].
  { apply Hwf. by constructor. }
  rewrite Ht. destruct t; [|done].
  apply IH; [|by apply elem_of_cons in Hin as [->|Hin]; [congruence|]|done].
  intros sg'' Hin''. apply Hwf. by constructor.
Qed.

(** C3 (as amended).  On a graph that is well formed where it is read,
    [can_be_applied] returns [False] when the map has dynamic range inputs,
    when a tested subgraph has nodes and at most one component, when a
    border array is not transient, and, for a map with a subgraph
    (expression 0), when a border array has an access node outside the
    subgraph, in the state or in another state. *)
Theorem can_be_applied_rejects (graph : SDFGState E) (candidate : Candidate)
    (expr_index : nat) (sdfg : SDFG E) (state_id : nat) :
  is_Some (node graph (_map_entry candidate)) →
  (expr_index ≠ 0%nat → is_ok (nested_sdfg graph (_nested_sdfg candidate)) = true) →
  (∀ sg, sg ∈ (tested graph candidate expr_index sdfg).1 →
         well_formed (tested graph candidate expr_index sdfg).2 sg) →
  has_dynamic_map_inputs graph (_map_entry candidate) = true
  ∨ (∃ sg, sg ∈ (tested graph candidate expr_index sdfg).1 ∧
           (few_components sg
            ∨ non_transient_border (tested graph candidate expr_index sdfg).2 sg
            ∨ (expr_index = 0%nat ∧ border_used_elsewhere graph sdfg state_id sg))) →
  can_be_applied graph candidate expr_index sdfg state_id = Ok false.
Proof.
  intros [n Hn] Hnested Hwf Hcond. unfold can_be_applied. rewrite Hn.
  cbn [mbind res_bind].
  destruct (has_dynamic_map_inputs graph (_map_entry candidate)) eqn:Hdyn; [done|].
  destruct Hcond as [Hcond|(sg & Hsg & Hcond)]; [done|].
  unfold tested in *.
  assert (∀ registry l,
            (∀ sg', sg' ∈ l → well_formed registry sg') → sg ∈ l →
            (few_components sg ∨ non_transient_border registry sg
             ∨ expr_index = 0%nat ∧ border_used_elsewhere graph sdfg state_id sg) →
            test_subgraphs expr_index graph sdfg state_id registry l = Ok false) as Hloop.
  { intros registry l Hwf' Hin Hc.
    apply (test_subgraphs_false _ _ _ _ _ _ sg Hwf' Hin).
    destruct Hc as [Hfew|[Hnt|[-> Helse]]].
    - by apply test_subgraph_few.
    - apply test_subgraph_non_transient; [by apply Hwf'|done].
    - apply test_subgraph_used_elsewhere; [by apply Hwf'|done]. }
  case_bool_decide as Hexpr.
  - by apply Hloop.
  - specialize (Hnested Hexpr).
    destruct (nested_sdfg graph (_nested_sdfg candidate)) as [nsdfg|]; [|done].
    cbn [mbind res_bind]. case_bool_decide; [done|]. by apply Hloop.
Qed.

(** *** The call leaves the program as it is *)



















End Graph.

(** ** [apply] *)

Section Rewrite.
Context {E : Type} `{SymExpr E}.

(** What the sources outside this file provide: *)
Variable size_of : Range E → list E.                    (* [range.size()] *)
Variable temp_data_name : gmap string (Array E) → string. (* the name [add_temp_transient] picks *)
Variable from_array : Array E → Range E.                (* [subsets.Range.from_array(desc)] *)

(** "Augment arrays by prepending map dimensions": the statements on one
    descriptor. *)
Definition augment (mapsize : list E) (desc : Array E) : Array E :=
  let '(strides', total_size') :=
    foldl (λ '(strides, total_size) sz, (total_size :: strides, sym_mul total_size sz))
          (strides desc, total_size desc) (rev mapsize) in
  mkArray (mapsize ++ shape desc) strides'
          (replicate (length mapsize) sym_zero ++ offset desc)
          total_size' (dtype desc) (storage desc) (transient desc).

(** The loop over the border arrays. *)
Fixpoint augment_arrays (mapsize : list E) (arrays : list string)
    (registry : gmap string (Array E)) : res (gmap string (Array E)) :=
  match arrays with
  | [] => Ok registry
  | array :: rest =>
    desc ← getitem registry (Some array);
    augment_arrays mapsize rest (<[array := augment mapsize desc]> registry)
  end.

(** A node without the graph that a nested SDFG node holds. *)
Inductive NodeKind : Type :=
| KAccess (name : string)
| KTasklet (name : string)
| KMapEntry (map : nat)
| KMapExit (map : nat)
| KNested (name : string)
| KLibrary (name : string).

Definition kind (n : Node E) : NodeKind :=
  match n with
  | AccessNode d => KAccess d
  | Tasklet l => KTasklet l
  | MapEntry m => KMapEntry m
  | MapExit m => KMapExit m
  | NestedSDFG l _ => KNested l
  | LibraryNode l _ => KLibrary l
  end.

Definition kinds (nds : list (nat * Node E)) : list (nat * NodeKind) :=
  prod_map id kind <$> nds.

(** The nodes and [Map] objects of a state, and the registry [parent.arrays]. *)
Record Objects : Type := mkObjects {
  o_nodes : list (nat * NodeKind);
  o_maps : gmap nat (Map E);
  o_arrays : gmap string (Array E)
}.

(** Handles for new nodes and new [Map] objects. *)
Definition fresh_node (nds : list (nat * NodeKind)) : nat :=
  S (foldr Nat.max 0%nat (fst <$> nds)).

Definition fresh_map (mps : gmap nat (Map E)) : nat :=
  S (foldr Nat.max 0%nat (fst <$> map_to_list mps)).

(** "Collect all border arrays and code->code edges": the dictionary
    [scalars], from the data name of an edge between code nodes to the
    list of these edges, in the order of insertion. *)
Definition scalar_edges (components : list (nat * nat)) (subgraph : View)
  : list (Edge E) :=
  '(_, component_out) ← components;
  filter (λ e, is_code_node (node (graph_of subgraph) (dst e)) = true)
         (view_out_edges subgraph component_out).

Definition scalars (components : list (nat * nat)) (subgraph : View)
  : list (option string * list (Edge E)) :=
  let es := scalar_edges components subgraph in
  (λ k, (k, filter (λ e, data (edata e) = k) es)) <$> remove_dups (data ∘ edata <$> es).

(** "Create new arrays for scalars": a temporary transient of the shape of
    the map for each scalar, and an access node for each of its edges. *)
Definition add_scalar (mapsize : list E) (o : Objects)
    (sc : option string * list (Edge E)) : res Objects :=
  desc ← getitem (o_arrays o) sc.1;
  let name := temp_data_name (o_arrays o) in
  let newdesc :=
    mkArray mapsize (MatMul.default_strides mapsize) (const sym_zero <$> mapsize)
            (foldr sym_mul sym_one mapsize) (dtype desc) (storage desc) true in
  Ok (foldl (λ o _, mkObjects (o_nodes o ++ [(fresh_node (o_nodes o), KAccess name)])
                              (o_maps o) (o_arrays o))
            (mkObjects (o_nodes o) (o_maps o) (<[name := newdesc]> (o_arrays o)))
            sc.2).

(** The map that [add_map] creates around a component, once its range is
    assigned: label, parameters, range, schedule and unroll of the outer
    map. *)
Definition fission_map (outer_map : Map E) : Map E :=
  mkMap (label outer_map +:+ "_fission") (params outer_map) (range outer_map)
        (schedule outer_map) (unroll outer_map).

(** "Add extra maps around components": [state.add_map] adds the entry and
    the exit node of a new [Map] with the label, parameters, schedule and
    unroll flag given and the range [0:1] for each parameter; then
    [me.map.range = dcpy(outer_map.range)].  (Connectors of nodes are not
    modelled.) *)
Definition set_range (r : Range E) (m : Map E) : Map E :=
  mkMap (label m) (params m) r (schedule m) (unroll m).

Definition add_map (outer_map : Map E) (o : Objects) : Objects :=
  let m := fresh_map (o_maps o) in
  let me := fresh_node (o_nodes o) in
  let new_map :=
    mkMap (label outer_map +:+ "_fission") (params outer_map)
          ((λ _, (sym_zero, sym_zero, sym_one)) <$> params outer_map)
          (schedule outer_map) (unroll outer_map) in
  let maps' := <[m := new_map]> (o_maps o) in
  mkObjects (o_nodes o ++ [(me, KMapEntry m); (S me, KMapExit m)])
            (alter (set_range (range outer_map)) m maps')
            (o_arrays o).

(** "Modify shape of internal array to match outer one", for the access
    nodes among the sources and sinks of a state of the nested SDFG.
    [outer_edge] finds [edge_to_outer[node]]. *)
Definition match_outer (outer_arrays : gmap string (Array E))
    (outer_edge : nat → res (Edge E)) (st : SDFGState E)
    (acc : res (gmap string (Array E) * list string)) (n : nat)
  : res (gmap string (Array E) * list string) :=
  '(registry, modified_arrays) ← acc;
  match is_access_node (node st n) with
  | Some d =>
    outer_edge ← outer_edge n;
    desc ← getitem registry (Some d);
    if bool_decide (d ∉ modified_arrays) then
      outer_desc ← getitem outer_arrays (data (edata outer_edge));
      Ok (<[d := mkArray (shape outer_desc) (strides outer_desc) (offset desc)
                         (total_size outer_desc) (dtype desc) (storage desc)
                         (transient desc)]> registry,
          d :: modified_arrays)
    else Ok (registry, modified_arrays)
  | None => Ok (registry, modified_arrays)
  end.

(** [next(e for e in edges if conn(e) == name)] *)
Definition next_edge (conn : Edge E → option string) (name : string)
    (eds : list (Edge E)) : res (Edge E) :=
  match filter (λ e, conn e = Some name) eds with
  | e :: _ => Ok e
  | [] => Raise StopIteration
  end.

(** "Collect external edges for source/sink nodes" in a state of the nested
    SDFG: the dictionary from an access node to the edge of the nested SDFG
    node; a later assignment replaces an earlier one. *)
Definition edge_to_outer (graph : SDFGState E) (nsdfg_node : nat) (st : SDFGState E)
    (sources sinks : list nat) : res (list (nat * Edge E)) :=
  ins ← mapM (M := res) (λ n,
           match is_access_node (node st n) with
           | Some d =>
             e ← next_edge dst_conn d (in_edges (edges graph) nsdfg_node); Ok [(n, e)]
           | None => Ok []
           end) sources;
  outs ← mapM (M := res) (λ n,
           match is_access_node (node st n) with
           | Some d =>
             e ← next_edge src_conn d (out_edges (edges graph) nsdfg_node); Ok [(n, e)]
           | None => Ok []
           end) sinks;
  Ok (concat outs ++ concat ins).

Definition lookup_outer (table : list (nat * Edge E)) (n : nat) : res (Edge E) :=
  match list_find (λ p, p.1 = n) table with
  | Some (_, (_, e)) => Ok e
  | None => Raise KeyError
  end.

(** The body of the loop [for state, subgraph in subgraphs], on the nodes
    and [Map] objects of [state] and on [parent.arrays].  The statements
    that add, remove or relabel edges of [state] are not part of it: they
    read and write edges only, after [components], [sources], [sinks],
    [arrays] and [scalars] are computed.  Their lookups can raise, so [Ok]
    is what the source leaves on nodes, maps and descriptors when it
    completes, not a statement that it completes. *)
Definition fission_state (expr_index : nat) (graph : SDFGState E) (nsdfg_node : nat)
    (outer_arrays : gmap string (Array E)) (outer_map : Map E)
    (st : SDFGState E) (subgraph : View) (parent_arrays : gmap string (Array E))
  : res Objects :=
  let mapsize := size_of (range outer_map) in
  components ← _components subgraph;
  let sources := source_nodes subgraph in
  let sinks := sink_nodes subgraph in
  table ← (if bool_decide (expr_index = 0%nat) then Ok []
           else edge_to_outer graph nsdfg_node st sources sinks);
  let arrays := _border_arrays components subgraph sources sinks in
  o ← foldl (λ (acc : res Objects) sc, o ← acc; add_scalar mapsize o sc)
            (Ok (mkObjects (kinds (nodes st)) (maps st) parent_arrays))
            (scalars components subgraph);
  let o := foldl (λ o _, add_map outer_map o) o components in
  registry ← augment_arrays mapsize arrays (o_arrays o);
  if bool_decide (expr_index = 1%nat) then
    '(registry, _) ← foldl (match_outer outer_arrays (lookup_outer table) st)
                           (Ok (registry, [])) (sources ++ sinks);
    Ok (mkObjects (o_nodes o) (o_maps o) registry)
  else Ok (mkObjects (o_nodes o) (o_maps o) registry).

(** What [apply] leaves: the nodes and [Map] objects of the state [graph],
    those of the states of the nested SDFG (expression 1), and the registry
    [parent.arrays] ([sdfg.arrays], or the registry of the nested SDFG). *)
Record Fissioned : Type := mkFissioned {
  f_nodes : list (nat * NodeKind);
  f_maps : gmap nat (Map E);
  f_nested : list (list (nat * NodeKind) * gmap nat (Map E));
  f_arrays : gmap string (Array E)
}.

(** [graph.remove_nodes_from(l)] on the nodes. *)
Definition remove_nodes_from (l : list nat) (nds : list (nat * NodeKind))
  : list (nat * NodeKind) :=
  filter (λ p, p.1 ∉ l) nds.

Definition map_of (g : SDFGState E) (entry : nat) : res (Map E) :=
  match node g entry with
  | Some (MapEntry m) =>
    match maps g !! m with Some mp => Ok mp | None => Raise KeyError end
  | _ => Raise TypeError
  end.

(** The loop over the states of the nested SDFG. *)
Fixpoint fission_states (expr_index : nat) (graph : SDFGState E) (nsdfg_node : nat)
    (outer_arrays : gmap string (Array E)) (outer_map : Map E)
    (sts : list (SDFGState E)) (parent_arrays : gmap string (Array E))
  : res (list (list (nat * NodeKind) * gmap nat (Map E)) * gmap string (Array E)) :=
  match sts with
  | [] => Ok ([], parent_arrays)
  | st :: rest =>
    o ← fission_state expr_index graph nsdfg_node outer_arrays outer_map st
                      (state_view st) parent_arrays;
    '(os, registry) ← fission_states expr_index graph nsdfg_node outer_arrays
                                     outer_map rest (o_arrays o);
    Ok ((o_nodes o, o_maps o) :: os, registry)
  end.

(** [MapFission.apply(self, sdfg)] with [self.subgraph = candidate] and
    [graph = sdfg.nodes()[self.state_id]], on nodes, [Map] objects and
    descriptors. *)
Definition apply (graph : SDFGState E) (candidate : Candidate) (expr_index : nat)
    (sdfg : SDFG E) : res Fissioned :=
  let map_entry := _map_entry candidate in
  map_exit ← index (exit_nodes graph map_entry) 0;
  if bool_decide (expr_index = 0%nat) then
    outer_map ← map_of graph map_entry;
    o ← fission_state expr_index graph 0 (arrays sdfg) outer_map graph
                      (scope_subgraph graph map_entry) (arrays sdfg);
    Ok (mkFissioned (remove_nodes_from [map_entry; map_exit] (o_nodes o))
                    (o_maps o) [] (o_arrays o))
  else
    let nsdfg_node := _nested_sdfg candidate in
    nsdfg ← nested_sdfg graph nsdfg_node;
    outer_map ← map_of graph map_entry;
    '(os, registry) ← fission_states expr_index graph nsdfg_node (arrays sdfg)
                                     outer_map (sdfg_states nsdfg) (arrays nsdfg);
    Ok (mkFissioned (remove_nodes_from [map_entry; map_exit] (kinds (nodes graph)))
                    (maps graph) os registry).

(** *** Edges around the nested SDFG *)

(** [s[n:]] on a string. *)
Fixpoint drop_chars (n : nat) (s : string) : string :=
  match n, s with
  | S n', String _ s' => drop_chars n' s'
  | _, _ => s
  end.

(** [edge.data.subset = r] *)
Definition with_subset (r : Range E) (e : Edge E) : Edge E :=
  mkEdge (src e) (src_conn e) (dst e) (dst_conn e) (mkMemlet (data (edata e)) r).

(** The assignment changes the edge object that is in the graph. *)
Definition assign_edge (old new : Edge E) (eds : list (Edge E)) : list (Edge E) :=
  (λ e, if decide (e = old) then new else e) <$> eds.

(** [edge.dst_conn and edge.dst_conn.startswith('IN_')] *)
Definition is_in_connector (c : option string) : bool :=
  match c with Some c => String.prefix "IN_" c | None => false end.

(** [e.src_conn and e.src_conn[4:] == edge.dst_conn[3:]] *)
Definition matches_out (dc : string) (e : Edge E) : bool :=
  match src_conn e with
  | Some sc => negb (bool_decide (sc = "")) && bool_decide (drop_chars 4 sc = drop_chars 3 dc)
  | None => false
  end.

(** The body of the loop over [graph.in_edges(map_entry)], on the edges of
    [graph]. *)
Definition reconnect_input (outer_arrays : gmap string (Array E))
    (map_entry nsdfg_node : nat) (acc : res (list (Edge E))) (edge : Edge E)
  : res (list (Edge E)) :=
  eds ← acc;
  match dst_conn edge with
  | Some dc =>
    if negb (is_in_connector (Some dc)) then Ok eds else
    desc ← getitem outer_arrays (data (edata edge));
    let edge' := with_subset (from_array desc) edge in
    let eds := assign_edge edge edge' eds in
    match filter (λ e, matches_out dc e = true) (out_edges eds map_entry) with
    | inner_edge :: _ =>
      Ok (eds ++ [mkEdge (src edge') (src_conn edge') nsdfg_node
                         (dst_conn inner_edge) (edata edge')])
    | [] => Raise StopIteration
    end
  | None => Ok eds
  end.

(** [next(e for e in graph.in_edges(map_exit)
          if e.dst_conn[3:] == edge.src_conn[4:])] *)
Fixpoint next_into_exit (edge : Edge E) (l : list (Edge E)) : res (Edge E) :=
  match l with
  | [] => Raise StopIteration
  | e :: l' =>
    match dst_conn e, src_conn edge with
    | Some dc, Some sc =>
      if bool_decide (drop_chars 3 dc = drop_chars 4 sc) then Ok e
      else next_into_exit edge l'
    | _, _ => Raise TypeError
    end
  end.

(** The body of the loop over [graph.out_edges(map_exit)]. *)
Definition reconnect_output (outer_arrays : gmap string (Array E))
    (map_exit nsdfg_node : nat) (acc : res (list (Edge E))) (edge : Edge E)
  : res (list (Edge E)) :=
  eds ← acc;
  desc ← getitem outer_arrays (data (edata edge));
  let edge' := with_subset (from_array desc) edge in
  let eds := assign_edge edge edge' eds in
  inner_edge ← next_into_exit edge' (in_edges eds map_exit);
  Ok (eds ++ [mkEdge nsdfg_node (src_conn inner_edge) (dst edge') (dst_conn edge')
                     (edata edge')]).

(** [graph.remove_nodes_from(l)] on the edges. *)
Definition remove_edges_of (l : list nat) (eds : list (Edge E)) : list (Edge E) :=
  filter (λ e, (src e ∉ l) ∧ (dst e ∉ l)) eds.

(** "If nested SDFG, reconnect nodes around map and modify memlets", then
    "Remove outer map": the edges of [graph] after [apply] on a map with a
    nested SDFG (the loops before it change no edge of [graph]). *)
Definition apply_nested_edges (graph : SDFGState E) (candidate : Candidate)
    (sdfg : SDFG E) : res (list (Edge E)) :=
  let map_entry := _map_entry candidate in
  let nsdfg_node := _nested_sdfg candidate in
  map_exit ← index (exit_nodes graph map_entry) 0;
  eds ← foldl (reconnect_input (arrays sdfg) map_entry nsdfg_node)
              (Ok (edges graph)) (in_edges (edges graph) map_entry);
  eds ← foldl (reconnect_output (arrays sdfg) map_exit nsdfg_node)
              (Ok eds) (out_edges eds map_exit);
  Ok (remove_edges_of [map_entry; map_exit] eds).

(** *** Dimension augmentation *)

(** One step of the loop over [reversed(mapsize)], outermost size first. *)
Definition prepend_stride (sz : E) (st : list E * E) : list E * E :=
  (st.2 :: st.1, sym_mul st.2 sz).

Lemma augment_loop (mapsize : list E) (st : list E * E) :
  foldl (λ '(strides, total_size) sz, (total_size :: strides, sym_mul total_size sz))
        st (rev mapsize)
  = foldr prepend_stride st mapsize.
Proof.
  revert st. induction mapsize as [|sz ms IH]; intros st; [done|].
  simpl. rewrite foldl_app. simpl. rewrite IH.
  by destruct (foldr prepend_stride st ms).
Qed.

Lemma augment_eq (mapsize : list E) (desc : Array E) :
  augment mapsize desc =
    mkArray (mapsize ++ shape desc)
            (foldr prepend_stride (strides desc, total_size desc) mapsize).1
            (replicate (length mapsize) sym_zero ++ offset desc)
            (foldr prepend_stride (strides desc, total_size desc) mapsize).2
            (dtype desc) (storage desc) (transient desc).
Proof.
  unfold augment. rewrite augment_loop.
  by destruct (foldr prepend_stride (strides desc, total_size desc) mapsize).
Qed.

Lemma prepend_strides (mapsize : list E) (st : list E * E) :
  ∃ new, (foldr prepend_stride st mapsize).1 = new ++ st.1 ∧
         length new = length mapsize.
Proof.
  induction mapsize as [|sz ms (new & Hnew & Hlen)]; [by exists []|].
  simpl. exists ((foldr prepend_stride st ms).2 :: new). rewrite Hnew. simpl.
  by rewrite Hlen.
Qed.

Lemma prepend_total (mapsize : list E) (st : list E * E) :
  (foldr prepend_stride st mapsize).2 = foldr (λ sz t, sym_mul t sz) st.2 mapsize.
Proof.
  induction mapsize as [|sz ms IH]; [done|]. simpl. by rewrite IH.
Qed.

(** The descriptor after the augmentation: [len(mapsize)] dimensions in
    front of the shape, as many strides and zero offsets in front of the
    strides and the offset, and the total size multiplied by each size. *)
Lemma augment_spec (mapsize : list E) (desc : Array E) :
  shape (augment mapsize desc) = mapsize ++ shape desc ∧
  length (shape (augment mapsize desc)) = (length mapsize + length (shape desc))%nat ∧
  (∃ new, strides (augment mapsize desc) = new ++ strides desc ∧
          length new = length mapsize) ∧
  offset (augment mapsize desc) = replicate (length mapsize) sym_zero ++ offset desc ∧
  total_size (augment mapsize desc)
    = foldr (λ sz t, sym_mul t sz) (total_size desc) mapsize.
Proof.
  rewrite augment_eq. simpl. split; [done|]. split; [by rewrite length_app|].
  split; [apply (prepend_strides mapsize (strides desc, total_size desc))|].
  split; [done|]. apply (prepend_total mapsize (strides desc, total_size desc)).
Qed.

Lemma augment_arrays_spec (mapsize : list E) (l : list string)
    (registry registry' : gmap string (Array E)) :
  NoDup l → augment_arrays mapsize l registry = Ok registry' →
  ∀ d, registry' !! d =
       if bool_decide (d ∈ l) then augment mapsize <$> registry !! d else registry !! d.
Proof.
  revert registry. induction l as [|a l IH]; intros registry Hnd Hrun d.
  - simpl in Hrun. by injection Hrun as <-.
  - apply NoDup_cons in Hnd as [Ha Hnd]. simpl in Hrun.
    apply bind_ok in Hrun as (desc & Hdesc & Hrun).
    rewrite (IH _ Hnd Hrun d).
    unfold getitem in Hdesc. destruct (registry !! a) as [desc'|] eqn:Hra; [|done].
    injection Hdesc as ->.
    destruct (decide (d = a)) as [->|Hne].
    + rewrite (bool_decide_eq_false_2 (a ∈ l)) by done.
      rewrite (bool_decide_eq_true_2 (a ∈ a :: l)) by constructor.
      by rewrite lookup_insert_eq, Hra.
    + rewrite lookup_insert_ne by done.
      case_bool_decide as Hin.
      * by rewrite bool_decide_eq_true_2 by (by constructor).
      * rewrite bool_decide_eq_false_2; [done|].
        intros [?|?]%elem_of_cons; done.
Qed.

Lemma add_scalar_arrays (mapsize : list E) (o o' : Objects)
    (sc : option string * list (Edge E)) :
  (∀ registry, registry !! temp_data_name registry = None) →
  add_scalar mapsize o sc = Ok o' →
  ∀ d desc, o_arrays o !! d = Some desc → o_arrays o' !! d = Some desc.
Proof.
  intros Hfresh Hrun d desc Hd. unfold add_scalar in Hrun.
  apply bind_ok in Hrun as (sdesc & _ & Hrun). injection Hrun as <-.
  match goal with |- o_arrays (foldl ?f ?a ?l) !! _ = _ =>
    assert (∀ l' a', o_arrays (foldl f a' l') = o_arrays a') as Hfold
  end.
  { induction l' as [|x l' IH]; intros a'; [done|]. simpl. by rewrite IH. }
  rewrite Hfold. simpl. rewrite lookup_insert_ne; [done|].
  intros Heq. specialize (Hfresh (o_arrays o)). congruence.
Qed.

Lemma add_scalars_arrays (mapsize : list E) (l : list (option string * list (Edge E)))
    (o o' : Objects) :
  (∀ registry, registry !! temp_data_name registry = None) →
  foldl (λ (acc : res Objects) sc, o ← acc; add_scalar mapsize o sc) (Ok o) l = Ok o' →
  ∀ d desc, o_arrays o !! d = Some desc → o_arrays o' !! d = Some desc.
Proof.
  intros Hfresh. revert o. induction l as [|sc l IH]; intros o Hrun d desc Hd.
  - simpl in Hrun. by injection Hrun as <-.
  - simpl in Hrun. destruct (add_scalar mapsize o sc) as [o1|e] eqn:H1.
    + apply (IH o1 Hrun). by apply (add_scalar_arrays mapsize o o1 sc).
    + exfalso. clear -Hrun. induction l as [|? l IH]; [done|]. by apply IH.
Qed.

Lemma add_maps_arrays (outer_map : Map E) (components : list (nat * nat)) (o : Objects) :
  o_arrays (foldl (λ o _, add_map outer_map o) o components) = o_arrays o.
Proof.
  revert o. induction components as [|c l IH]; intros o; [done|].
  simpl. by rewrite IH.
Qed.

(** For a map with a subgraph (expression 0), every registered border array
    is augmented once by the sizes of the outer range. *)
Lemma apply_subgraph_augments (graph : SDFGState E) (candidate : Candidate)
    (sdfg : SDFG E) (f : Fissioned) :
  (∀ registry, registry !! temp_data_name registry = None) →
  apply graph candidate 0 sdfg = Ok f →
  ∃ outer_map components,
    map_of graph (_map_entry candidate) = Ok outer_map ∧
    _components (scope_subgraph graph (_map_entry candidate)) = Ok components ∧
    ∀ d desc,
      d ∈ border_arrays_of (scope_subgraph graph (_map_entry candidate)) components →
      arrays sdfg !! d = Some desc →
      f_arrays f !! d = Some (augment (size_of (range outer_map)) desc).
Proof.
  intros Hfresh Hrun. unfold apply in Hrun.
  apply bind_ok in Hrun as (map_exit & _ & Hrun).
  rewrite (bool_decide_eq_true_2 (0%nat = 0%nat)) in Hrun by done.
  apply bind_ok in Hrun as (outer_map & Hmap & Hrun).
  apply bind_ok in Hrun as (o & Hstate & Hrun). injection Hrun as <-.
  unfold fission_state in Hstate.
  apply bind_ok in Hstate as (components & Hc & Hstate).
  rewrite (bool_decide_eq_true_2 (0%nat = 0%nat)) in Hstate by done.
  cbn [mbind res_bind] in Hstate.
  apply bind_ok in Hstate as (o1 & Hsc & Hstate).
  apply bind_ok in Hstate as (registry & Haug & Hstate).
  rewrite (bool_decide_eq_false_2 (0%nat = 1%nat)) in Hstate by done.
  injection Hstate as <-.
  exists outer_map, components. split; [done|]. split; [done|].
  intros d desc Hd Hdesc. cbn [f_arrays o_arrays].
  rewrite add_maps_arrays in Haug.
  rewrite (augment_arrays_spec _ _ _ _ (NoDup_remove_dups _) Haug d).
  unfold border_arrays_of in Hd. rewrite bool_decide_eq_true_2 by done.
  by rewrite (add_scalars_arrays _ _ _ _ Hfresh Hsc d desc Hdesc).
Qed.

(** *** New maps *)

(** [new] holds one entry node and one exit node for each component, in
    order; both refer to one [Map] object of [mps] that is [fission_map
    outer_map]; the handles of the nodes are not in [ids] and the handle of
    the [Map] is not in [mps0], and no handle is used twice. *)
Inductive fission_pairs (outer_map : Map E) (mps : gmap nat (Map E))
  : list nat → gmap nat (Map E) → list (nat * nat) → list (nat * NodeKind) → Prop :=
| fission_pairs_nil ids mps0 : fission_pairs outer_map mps ids mps0 [] []
| fission_pairs_cons ids mps0 c components me mx m new :
    me ∉ ids → mx ∉ ids → me ≠ mx →
    mps0 !! m = None →
    mps !! m = Some (fission_map outer_map) →
    fission_pairs outer_map mps (ids ++ [me; mx])
                  (<[m := fission_map outer_map]> mps0) components new →
    fission_pairs outer_map mps ids mps0 (c :: components)
                  ((me, KMapEntry m) :: (mx, KMapExit m) :: new).

Lemma fission_pairs_length (outer_map : Map E) (mps : gmap nat (Map E)) ids mps0
    components new :
  fission_pairs outer_map mps ids mps0 components new →
  length new = (2 * length components)%nat.
Proof. induction 1; simpl; lia. Qed.


Lemma max_ge (l : list nat) (x : nat) : x ∈ l → (x <= foldr Nat.max 0 l)%nat.
Proof.
  induction l as [|y l IH]; intros Hx; [by apply elem_of_nil in Hx|].
  simpl. apply elem_of_cons in Hx as [->|Hx]; [lia|]. specialize (IH Hx). lia.
Qed.

















(** *** Memlets around the nested SDFG *)

(** The memlet of [e] covers the whole array it names: its subset is the
    range derived from the descriptor of that array. *)
Definition whole_array (outer_arrays : gmap string (Array E)) (e : Edge E) : Prop :=
  ∃ desc, getitem outer_arrays (data (edata e)) = Ok desc ∧
          subset (edata e) = from_array desc.

Lemma with_subset_id (e : Edge E) : with_subset (subset (edata e)) e = e.
Proof. by destruct e as [? ? ? ? []]. Qed.

Lemma with_subset_whole (outer_arrays : gmap string (Array E)) (e : Edge E)
    (desc : Array E) :
  getitem outer_arrays (data (edata e)) = Ok desc →
  whole_array outer_arrays (with_subset (from_array desc) e).
Proof. intros Hd. by exists desc. Qed.

(** An assignment of the whole range leaves a whole-array edge as it is. *)
Lemma assign_edge_whole (outer_arrays : gmap string (Array E)) (old e : Edge E)
    (desc : Array E) (eds : list (Edge E)) :
  getitem outer_arrays (data (edata old)) = Ok desc →
  whole_array outer_arrays e → e ∈ eds →
  e ∈ assign_edge old (with_subset (from_array desc) old) eds.
Proof.
  intros Hd (desc' & Hd' & Hs) He. unfold assign_edge.
  apply list_elem_of_fmap. exists e. split; [|done].
  case_decide as Heq; [|done]. subst old.
  assert (desc' = desc) as -> by congruence.
  by rewrite <- Hs, with_subset_id.
Qed.

Lemma assign_edge_other (old new e : Edge E) (eds : list (Edge E)) :
  e ≠ old → e ∈ eds → e ∈ assign_edge old new eds.
Proof.
  intros Hne He. apply list_elem_of_fmap. exists e. by rewrite decide_False.
Qed.

Lemma elem_of_assign_edge (old new e : Edge E) (eds : list (Edge E)) :
  e ∈ assign_edge old new eds → e ∈ eds ∨ e = new.
Proof.
  intros (e' & -> & He')%list_elem_of_fmap. case_decide; [by right|by left].
Qed.

Lemma foldl_raise {A B} (f : res A → B → res A) (l : list B) (e : exn) :
  (∀ x, f (Raise e) x = Raise e) → foldl f (Raise e) l = Raise e.
Proof. intros Hf. induction l as [|x l IH]; [done|]. simpl. by rewrite Hf. Qed.

(** An edge made by [apply]: it covers its whole array, and it is an edge of
    the outer entry or exit with its subset assigned, or a new edge at the
    nested SDFG node. *)
Definition rewritten (outer_arrays : gmap string (Array E))
    (map_entry map_exit nsdfg_node : nat) (e : Edge E) : Prop :=
  whole_array outer_arrays e ∧
  (dst e = map_entry ∨ src e = map_exit ∨ dst e = nsdfg_node ∨ src e = nsdfg_node).

Section Loops.
Variable outer_arrays : gmap string (Array E).
Variables map_entry map_exit nsdfg_node : nat.

(** The new edge for an edge into the map entry, and for an edge out of the
    map exit. *)
Definition input_edge (edge : Edge E) (conn : option string) (desc : Array E) : Edge E :=
  mkEdge (src edge) (src_conn edge) nsdfg_node conn
         (mkMemlet (data (edata edge)) (from_array desc)).


Lemma reconnect_input_step (eds eds' : list (Edge E)) (edge : Edge E) :
  reconnect_input outer_arrays map_entry nsdfg_node (Ok eds) edge = Ok eds' →
  dst edge = map_entry →
  (∀ e, e ∈ eds → whole_array outer_arrays e → e ∈ eds') ∧
  (∀ e, e ∈ eds → dst e ≠ map_entry → e ∈ eds') ∧
  (∀ e, e ∈ eds' → e ∈ eds ∨ rewritten outer_arrays map_entry map_exit nsdfg_node e) ∧
  (is_in_connector (dst_conn edge) = true →
   ∃ conn desc, getitem outer_arrays (data (edata edge)) = Ok desc ∧
                input_edge edge conn desc ∈ eds').
Proof.
  unfold reconnect_input. cbn [mbind res_bind]. intros Hrun Hdst.
  destruct (dst_conn edge) as [dc|] eqn:Hdc.
  2:{ injection Hrun as <-. repeat split; auto. intros; discriminate. }
  destruct (is_in_connector (Some dc)) eqn:Hin; cbn [negb] in Hrun.
  2:{ injection Hrun as <-. repeat split; auto. intros; discriminate. }
  apply bind_ok in Hrun as (desc & Hdesc & Hrun).
  destruct (filter _ _) as [|inner_edge ?] in Hrun; [done|].
  injection Hrun as <-. repeat split.
  - intros e He Hw. apply elem_of_app. left. by apply (assign_edge_whole outer_arrays).
  - intros e He Hne. apply elem_of_app. left. apply assign_edge_other; [|done].
    intros ->. done.
  - intros e [He|He]%elem_of_app.
    + apply elem_of_assign_edge in He as [He| ->]; [by left|]. right. split.
      * by apply with_subset_whole.
      * by left.
    + apply list_elem_of_singleton in He as ->. right. split.
      * by exists desc.
      * right. right. by left.
  - intros _. exists (dst_conn inner_edge), desc. split; [done|].
    apply elem_of_app. right. by apply list_elem_of_singleton.
Qed.

Lemma reconnect_inputs_run (l : list (Edge E)) (eds eds' : list (Edge E)) :
  foldl (reconnect_input outer_arrays map_entry nsdfg_node) (Ok eds) l = Ok eds' →
  Forall (λ edge, dst edge = map_entry) l →
  (∀ e, e ∈ eds → whole_array outer_arrays e → e ∈ eds') ∧
  (∀ e, e ∈ eds → dst e ≠ map_entry → e ∈ eds') ∧
  (∀ e, e ∈ eds' → e ∈ eds ∨ rewritten outer_arrays map_entry map_exit nsdfg_node e) ∧
  (∀ edge, edge ∈ l → is_in_connector (dst_conn edge) = true →
   ∃ conn desc, getitem outer_arrays (data (edata edge)) = Ok desc ∧
                input_edge edge conn desc ∈ eds').
Proof.
  revert eds. induction l as [|edge l IH]; intros eds Hrun Hdst.
  - simpl in Hrun. injection Hrun as <-. repeat split; auto.
    intros edge Hin. by apply elem_of_nil in Hin.
  - cbn [foldl] in Hrun. apply Forall_cons in Hdst as [Hd Hdst].
    destruct (reconnect_input outer_arrays map_entry nsdfg_node (Ok eds) edge)
      as [eds1|e] eqn:Hstep.
    2:{ by rewrite foldl_raise in Hrun. }
    destruct (reconnect_input_step _ _ _ Hstep Hd) as (Hw1 & Ho1 & Hb1 & Hn1).
    destruct (IH eds1 Hrun Hdst) as (Hw & Ho & Hb & Hn).
    repeat split.
    + intros e He Hwe. apply Hw; [by apply Hw1|done].
    + intros e He Hne. apply Ho; [by apply Ho1|done].
    + intros e He. destruct (Hb e He) as [He1|?]; [|by right]. by apply Hb1.
    + intros edge' [->|Hin]%elem_of_cons Hconn.
      * destruct (Hn1 Hconn) as (conn & desc & Hdesc & Hnew).
        exists conn, desc. split; [done|]. apply Hw; [done|]. by exists desc.
      * by apply Hn.
Qed.



End Loops.



End Rewrite.

(** ** Programs on integer sizes *)

Definition size_of_Z (r : Range Z) : list Z := MatMul.range_size <$> r.

Definition temp_name (registry : gmap string (Array Z)) : string :=
  "__tmp" +:+ pretty (size registry).

Definition from_array_Z (desc : Array Z) : Range Z := MatMul.full_range (shape desc).

Definition vector (n : Z) (tr : bool) : Array Z :=
  mkArray [n] [1] [0] n float32 Default tr.

Definition outer_map_10 : Map Z := mkMap "outer" ["i"] [(0, 9, 1)] Sched_Default false.

Definition memlet_at (name : string) (b e : Z) : Memlet Z :=
  mkMemlet (Some name) [(b, e, 1)].

(** [A -> map[i=0:10] { t1 -> tmp -> t2 } -> B]: two tasklets in a map, with
    the array [tmp] between them. *)
Definition two_tasklets : SDFGState Z :=
  mkState
    [(0%nat, AccessNode "A"); (1%nat, MapEntry 0); (2%nat, Tasklet "t1");
     (3%nat, AccessNode "tmp"); (4%nat, Tasklet "t2"); (5%nat, MapExit 0);
     (6%nat, AccessNode "B")]
    [mkEdge 0 None 1 (Some "IN_A") (memlet_at "A" 0 9);
     mkEdge 1 (Some "OUT_A") 2 (Some "a") (memlet_at "A" 0 0);
     mkEdge 2 (Some "out") 3 None (memlet_at "tmp" 0 0);
     mkEdge 3 None 4 (Some "inp") (memlet_at "tmp" 0 0);
     mkEdge 4 (Some "b") 5 (Some "IN_B") (memlet_at "B" 0 0);
     mkEdge 5 (Some "OUT_B") 6 None (memlet_at "B" 0 9)]
    {[ 0%nat := outer_map_10 ]}
    (<[2%nat := 1%nat]> (<[3%nat := 1%nat]> (<[4%nat := 1%nat]> {[ 5%nat := 1%nat ]}))).

Definition two_tasklets_sdfg (tmp_transient : bool) : SDFG Z :=
  mkSDFG [two_tasklets]
    (<["A" := vector 10 false]> (<["B" := vector 10 false]>
     {[ "tmp" := vector 1 tmp_transient ]})).

(** A map with nothing inside. *)
Definition empty_map : SDFGState Z :=
  mkState [(0%nat, MapEntry 0); (1%nat, MapExit 0)]
          [mkEdge 0 None 1 None (mkMemlet None [])]
          {[ 0%nat := outer_map_10 ]}
          {[ 1%nat := 0%nat ]}.

Definition empty_map_sdfg : SDFG Z := mkSDFG [empty_map] ∅.

(** A state of a nested SDFG: [a -> t1 -> X -> t2 -> b]. *)
Definition nested_step : SDFGState Z :=
  mkState
    [(0%nat, AccessNode "a"); (1%nat, Tasklet "t1"); (2%nat, AccessNode "X");
     (3%nat, Tasklet "t2"); (4%nat, AccessNode "b")]
    [mkEdge 0 None 1 (Some "inp") (memlet_at "a" 0 0);
     mkEdge 1 (Some "out") 2 None (memlet_at "X" 0 0);
     mkEdge 2 None 3 (Some "inp") (memlet_at "X" 0 0);
     mkEdge 3 (Some "out") 4 None (memlet_at "b" 0 0)]
    ∅ ∅.

(** A nested SDFG of [n] such states in sequence; the transient [X] is used
    in every state. *)
Definition nested (n : nat) : SDFG Z :=
  mkSDFG (replicate n nested_step)
    (<["a" := vector 1 false]> (<["b" := vector 1 false]> {[ "X" := vector 1 true ]})).

(** [A -> map[i=0:10] { nested SDFG } -> B] *)
Definition map_with_nested (n : nat) : SDFGState Z :=
  mkState
    [(0%nat, AccessNode "A"); (1%nat, MapEntry 0); (2%nat, NestedSDFG "nested" (nested n));
     (3%nat, MapExit 0); (4%nat, AccessNode "B")]
    [mkEdge 0 None 1 (Some "IN_A") (memlet_at "A" 0 9);
     mkEdge 1 (Some "OUT_A") 2 (Some "a") (memlet_at "A" 0 0);
     mkEdge 2 (Some "b") 3 (Some "IN_B") (memlet_at "B" 0 0);
     mkEdge 3 (Some "OUT_B") 4 None (memlet_at "B" 0 9)]
    {[ 0%nat := outer_map_10 ]}
    (<[2%nat := 1%nat]> {[ 3%nat := 1%nat ]}).

Definition map_with_nested_sdfg (n : nat) : SDFG Z :=
  mkSDFG [map_with_nested n]
    (<["A" := vector 10 false]> {[ "B" := vector 10 false ]}).

Example can_be_applied_two_tasklets :
  can_be_applied two_tasklets (mkCandidate 1 0) 0 (two_tasklets_sdfg true) 0 = Ok true.
Proof. vm_compute. reflexivity. Qed.

Example can_be_applied_nested_two_states :
  can_be_applied (map_with_nested 2) (mkCandidate 1 2) 1 (map_with_nested_sdfg 2) 0
  = Ok true.
Proof. vm_compute. reflexivity. Qed.

(** C3, as stated, fails here: the scope of the map is empty, so it has no
    component at all, and the candidate is accepted.  The test on the
    number of components is guarded by [len(snodes) > 0]. *)
Lemma can_be_applied_accepts_empty_scope :
  view_nodes (scope_subgraph empty_map 0) = [] ∧
  _components (scope_subgraph empty_map 0) = Ok [] ∧
  can_be_applied empty_map (mkCandidate 0 0) 0 empty_map_sdfg 0 = Ok true.
Proof. repeat split; vm_compute; reflexivity. Qed.

Lemma can_be_applied_rejects_witness :
  can_be_applied two_tasklets (mkCandidate 1 0) 0 (two_tasklets_sdfg false) 0 = Ok false.
Proof.
  assert (∃ c, _components (scope_subgraph two_tasklets 1) = Ok c ∧
               border_arrays_of (scope_subgraph two_tasklets 1) c = ["tmp"])
    as (c & Hc & Hb) by (eexists; split; vm_compute; reflexivity).
  apply (can_be_applied_rejects two_tasklets (mkCandidate 1 0) 0 (two_tasklets_sdfg false) 0).
  - vm_compute. eauto.
  - intros Hne. by destruct Hne.
  - change (tested two_tasklets (mkCandidate 1 0) 0 (two_tasklets_sdfg false))
      with ([scope_subgraph two_tasklets 1], arrays (two_tasklets_sdfg false)).
    cbn [fst snd]. intros sg Hsg. apply list_elem_of_singleton in Hsg as ->.
    exists c. split; [done|]. rewrite Hb.
    intros d Hd. apply list_elem_of_singleton in Hd as ->. vm_compute. eauto.
  - change (tested two_tasklets (mkCandidate 1 0) 0 (two_tasklets_sdfg false))
      with ([scope_subgraph two_tasklets 1], arrays (two_tasklets_sdfg false)).
    cbn [fst snd].
    right. exists (scope_subgraph two_tasklets 1). split; [by constructor|].
    right. left. exists c, "tmp", (vector 1 false). rewrite Hb.
    split; [done|]. split; [by constructor|]. split; vm_compute; reflexivity.
Defined.

(** C4. A map with a nested SDFG of two states that both use the transient
    [X] between their tasklets: the candidate is accepted, the outer range
    has one dimension, and [apply] augments the descriptor of [X] once for
    each state; its shape grows from [(1,)] to [(10, 10, 1)]. *)
Theorem apply_augments_shared_border_array_per_state :
  let graph := map_with_nested 2 in
  let sdfg := map_with_nested_sdfg 2 in
  let candidate := mkCandidate 1 2 in
  can_be_applied graph candidate 1 sdfg 0 = Ok true ∧
  length (range outer_map_10) = 1%nat ∧
  size_of_Z (range outer_map_10) = [10] ∧
  Forall (λ st, ∃ c, _components (state_view st) = Ok c ∧
                     border_arrays_of (state_view st) c = ["X"])
         (sdfg_states (nested 2)) ∧
  shape <$> arrays (nested 2) !! "X" = Some [1] ∧
  (λ f, shape <$> f_arrays f !! "X") <$> apply size_of_Z temp_name graph candidate 1 sdfg
    = Ok (Some [10; 10; 1]).
Proof.
  cbv zeta. repeat split; try (vm_compute; reflexivity).
  repeat constructor; eexists; split; vm_compute; reflexivity.
Qed.

Example apply_two_tasklets_tmp :
  (λ f, f_arrays f !! "tmp")
    <$> apply size_of_Z temp_name two_tasklets (mkCandidate 1 0) 0 (two_tasklets_sdfg true)
  = Ok (Some (mkArray [10; 1] [1; 1] [0; 0] 10 float32 Default true)).
Proof. vm_compute. reflexivity. Qed.


Example apply_nested_edges_example :
  apply_nested_edges from_array_Z (map_with_nested 2) (mkCandidate 1 2)
                     (map_with_nested_sdfg 2)
  = Ok [mkEdge 0 None 2 (Some "a") (memlet_at "A" 0 9);
        mkEdge 2 (Some "b") 4 None (memlet_at "B" 0 9)].
Proof. vm_compute. reflexivity. Qed.


(** ** What an accepted candidate guarantees *)

Section Accepted.
Context {E : Type}.

Lemma all_transient_true (registry : gmap string (Array E)) (l : list string) :
  all_transient registry l = Ok true →
  ∀ d, d ∈ l → ∃ desc, registry !! d = Some desc ∧ transient desc = true.
Proof.
  induction l as [|a l IH]; intros Hrun d Hd; [by apply elem_of_nil in Hd|].
  simpl in Hrun. apply bind_ok in Hrun as (desc & Hdesc & Hrun).
  unfold getitem in Hdesc. destruct (registry !! a) as [desc'|] eqn:Ha; [|done].
  injection Hdesc as ->. destruct (transient desc) eqn:Ht; [|done].
  apply elem_of_cons in Hd as [->|Hd]; [by exists desc|by apply IH].
Qed.

(** The tests a subgraph has passed when the loop of [can_be_applied] goes
    on after it: it is empty or has two components or more; each border
    array is written by one component and read by another, is registered
    and is transient; for a map with a subgraph (expression 0), no array
    that a component writes has an access node elsewhere. *)
Definition passes (expr_index : nat) (graph : SDFGState E) (sdfg : SDFG E)
    (state_id : nat) (registry : gmap string (Array E)) (sg : @View E) : Prop :=
  ∃ components,
    _components sg = Ok components ∧
    (view_nodes sg = [] ∨ (2 <= length components)%nat) ∧
    (∀ d, d ∈ border_arrays_of sg components →
          d ∈ _internal_border_arrays components sg ∧
          ∃ desc, registry !! d = Some desc ∧ transient desc = true) ∧
    (expr_index = 0%nat →
     ∀ d, d ∈ component_outputs components sg (λ _, true) →
          d ∉ not_subgraph graph (view_nodes sg) sdfg state_id).

Lemma test_subgraph_true (expr_index : nat) (graph : SDFGState E) (sdfg : SDFG E)
    (state_id : nat) (registry : gmap string (Array E)) (sg : @View E) :
  test_subgraph expr_index graph sdfg state_id registry sg = Ok true →
  passes expr_index graph sdfg state_id registry sg.
Proof.
  unfold test_subgraph. intros Hrun.
  apply bind_ok in Hrun as (components & Hc & Hrun).
  exists components. split; [done|].
  destruct (bool_decide (0 < length (view_nodes sg))%nat) eqn:Hnodes;
    destruct (bool_decide (length components <= 1)%nat) eqn:Hfew;
    cbn [andb] in Hrun; try discriminate Hrun.
  all: destruct (bool_decide (0 < length (filter _ _))%nat) eqn:Hext in Hrun;
    [discriminate Hrun|].
  all: apply bind_ok in Hrun as (t & Ht & Hrun); destruct t; [|discriminate Hrun];
    cbn [negb] in Hrun.
  all: assert (∀ d, d ∈ border_arrays_of sg components →
                    d ∈ _internal_border_arrays components sg) as Hint.
  1,3,5: intros d Hd;
    destruct (decide (d ∈ _internal_border_arrays components sg)) as [|Hni]; [done|];
    apply bool_decide_eq_false in Hext; destruct Hext;
    assert (d ∈ filter (λ d, d ∉ _internal_border_arrays components sg)
                       (_border_arrays components sg (source_nodes sg) (sink_nodes sg)))
      as Hin by (by apply list_elem_of_filter);
    destruct (filter _ _); [by apply elem_of_nil in Hin|simpl; lia].
  all: split; [|split].
  all: try (intros d Hd; split; [by apply Hint|by apply (all_transient_true _ _ Ht)]).
  all: try (intros Hexpr; rewrite (bool_decide_eq_true_2 _ Hexpr) in Hrun;
            injection Hrun as Hall; apply bool_decide_eq_true in Hall;
            by apply Forall_forall).
  - right. apply bool_decide_eq_false in Hfew. lia.
  - left. apply bool_decide_eq_false in Hnodes.
    destruct (view_nodes sg); [done|simpl in Hnodes; lia].
  - left. apply bool_decide_eq_false in Hnodes.
    destruct (view_nodes sg); [done|simpl in Hnodes; lia].
Qed.

Lemma test_subgraphs_true (expr_index : nat) (graph : SDFGState E) (sdfg : SDFG E)
    (state_id : nat) (registry : gmap string (Array E)) (l : list (@View E)) :
  test_subgraphs expr_index graph sdfg state_id registry l = Ok true →
  ∀ sg, sg ∈ l → passes expr_index graph sdfg state_id registry sg.
Proof.
  induction l as [|sg' l IH]; intros Hrun sg Hsg; [by apply elem_of_nil in Hsg|].
  simpl in Hrun.
  destruct (test_subgraph expr_index graph sdfg state_id registry sg') as [[]|] eqn:Ht;
    try discriminate Hrun.
  apply elem_of_cons in Hsg as [->|Hsg]; [by apply test_subgraph_true|by apply IH].
Qed.

(** X8.  A candidate that [can_be_applied] accepts has a map without dynamic
    range inputs, and every subgraph it tested (the scope of the map, or
    each state of the nested SDFG) passes the tests above; with a nested
    SDFG, the edges out of the map entry lead to one node at most. *)
Theorem can_be_applied_accepts_only (graph : SDFGState E) (candidate : Candidate)
    (expr_index : nat) (sdfg : SDFG E) (state_id : nat) :
  can_be_applied graph candidate expr_index sdfg state_id = Ok true →
  has_dynamic_map_inputs graph (_map_entry candidate) = false ∧
  (expr_index ≠ 0%nat →
   is_ok (nested_sdfg graph (_nested_sdfg candidate)) = true ∧
   (length (remove_dups (dst <$> out_edges (edges graph) (_map_entry candidate))) <= 1)%nat) ∧
  ∀ sg, sg ∈ (tested graph candidate expr_index sdfg).1 →
        passes expr_index graph sdfg state_id (tested graph candidate expr_index sdfg).2 sg.
Proof.
  unfold can_be_applied, tested. intros Hrun.
  apply bind_ok in Hrun as ([] & _ & Hrun).
  destruct (has_dynamic_map_inputs graph (_map_entry candidate)); [discriminate Hrun|].
  split; [done|]. case_bool_decide as Hexpr.
  - split; [done|]. by apply test_subgraphs_true.
  - apply bind_ok in Hrun as (nsdfg & Hnsdfg & Hrun). rewrite Hnsdfg.
    case_bool_decide as Hdst; [discriminate Hrun|].
    split; [intros _; split; [done|lia]|]. by apply test_subgraphs_true.
Qed.

End Accepted.

Lemma can_be_applied_accepts_only_witness :
  has_dynamic_map_inputs two_tasklets 1 = false ∧
  (0%nat ≠ 0%nat →
   is_ok (nested_sdfg two_tasklets 0) = true ∧
   (length (remove_dups (dst <$> out_edges (edges two_tasklets) 1)) <= 1)%nat) ∧
  ∀ sg, sg ∈ (tested two_tasklets (mkCandidate 1 0) 0 (two_tasklets_sdfg true)).1 →
        passes 0 two_tasklets (two_tasklets_sdfg true) 0
               (tested two_tasklets (mkCandidate 1 0) 0 (two_tasklets_sdfg true)).2 sg.
Proof.
  apply (can_be_applied_accepts_only two_tasklets (mkCandidate 1 0) 0
                                     (two_tasklets_sdfg true) 0).
  vm_compute. reflexivity.
Defined.

(** ** Border arrays *)

Section Borders.
Context {E : Type}.

Lemma elem_of_component_inputs (components : list (nat * nat)) (sg : @View E)
    (use : nat → bool) (d : string) :
  d ∈ component_inputs components sg use ↔
  ∃ c e, c ∈ components ∧ e ∈ view_in_edges sg c.1 ∧
         is_access_node (node (graph_of sg) (src e)) = Some d ∧ use (src e) = true.
Proof.
  unfold component_inputs. rewrite list_elem_of_bind. split.
  - intros ([ci co] & Hd & Hc). apply list_elem_of_bind in Hd as (e & Hd & He).
    exists (ci, co), e. split; [done|]. split; [done|].
    destruct (is_access_node _) as [d'|]; [|by apply elem_of_nil in Hd].
    destruct (use (src e)); [|by apply elem_of_nil in Hd].
    by apply list_elem_of_singleton in Hd as ->.
  - intros ([ci co] & e & Hc & He & Ha & Hu). exists (ci, co). split; [|done].
    apply list_elem_of_bind. exists e. split; [|done].
    rewrite Ha, Hu. by apply list_elem_of_singleton.
Qed.

Lemma elem_of_component_outputs (components : list (nat * nat)) (sg : @View E)
    (use : nat → bool) (d : string) :
  d ∈ component_outputs components sg use ↔
  ∃ c e, c ∈ components ∧ e ∈ view_out_edges sg c.2 ∧
         is_access_node (node (graph_of sg) (dst e)) = Some d ∧ use (dst e) = true.
Proof.
  unfold component_outputs. rewrite list_elem_of_bind. split.
  - intros ([ci co] & Hd & Hc). apply list_elem_of_bind in Hd as (e & Hd & He).
    exists (ci, co), e. split; [done|]. split; [done|].
    destruct (is_access_node _) as [d'|]; [|by apply elem_of_nil in Hd].
    destruct (use (dst e)); [|by apply elem_of_nil in Hd].
    by apply list_elem_of_singleton in Hd as ->.
  - intros ([ci co] & e & Hc & He & Ha & Hu). exists (ci, co). split; [|done].
    apply list_elem_of_bind. exists e. split; [|done].
    rewrite Ha, Hu. by apply list_elem_of_singleton.
Qed.

Lemma elem_of_border_arrays (components : list (nat * nat)) (sg : @View E)
    (sources sinks : list nat) (d : string) :
  d ∈ _border_arrays components sg sources sinks ↔
  d ∈ component_inputs components sg
        (λ n, negb (is_state sg) || bool_decide (n ∉ sources))
  ∨ d ∈ component_outputs components sg
        (λ n, negb (is_state sg) || bool_decide (n ∉ sinks)).
Proof.
  unfold _border_arrays, set_of. rewrite elem_of_remove_dups, list_elem_of_bind.
  rewrite elem_of_component_inputs, elem_of_component_outputs. split.
  - intros ([ci co] & Hd & Hc). apply elem_of_app in Hd as [Hd|Hd].
    + left. apply elem_of_component_inputs in Hd as (c & e & Hc' & He).
      apply list_elem_of_singleton in Hc' as ->. by exists (ci, co), e.
    + right. apply elem_of_component_outputs in Hd as (c & e & Hc' & He).
      apply list_elem_of_singleton in Hc' as ->. by exists (ci, co), e.
  - intros [([ci co] & e & Hc & He)|([ci co] & e & Hc & He)];
      exists (ci, co); (split; [|done]); apply elem_of_app; [left|right].
    + apply elem_of_component_inputs. exists (ci, co), e.
      split; [by apply list_elem_of_singleton|done].
    + apply elem_of_component_outputs. exists (ci, co), e.
      split; [by apply list_elem_of_singleton|done].
Qed.

Lemma component_inputs_weaken (components : list (nat * nat)) (sg : @View E)
    (use : nat → bool) (d : string) :
  d ∈ component_inputs components sg use → d ∈ component_inputs components sg (λ _, true).
Proof.
  rewrite !elem_of_component_inputs. intros (c & e & Hc & He & Ha & _).
  by exists c, e.
Qed.

Lemma component_outputs_weaken (components : list (nat * nat)) (sg : @View E)
    (use : nat → bool) (d : string) :
  d ∈ component_outputs components sg use → d ∈ component_outputs components sg (λ _, true).
Proof.
  rewrite !elem_of_component_outputs. intros (c & e & Hc & He & Ha & _).
  by exists c, e.
Qed.

(** X9.  The two sets of names that [can_be_applied] compares.  The internal
    border arrays are the names that some component reads from an access
    node and some component writes to one.  A border array is read or
    written by a component; in a view of a scope (not a whole state) every
    such name is a border array, so the internal border arrays are among
    the border arrays, and the names that [can_be_applied] calls external
    are those that the components only read or only write. *)
Theorem border_arrays_read_or_written (components : list (nat * nat)) (sg : @View E)
    (sources sinks : list nat) :
  let inputs := component_inputs components sg (λ _, true) in
  let outputs := component_outputs components sg (λ _, true) in
  (∀ d, d ∈ _internal_border_arrays components sg ↔ d ∈ inputs ∧ d ∈ outputs) ∧
  (∀ d, d ∈ _border_arrays components sg sources sinks → d ∈ inputs ∨ d ∈ outputs) ∧
  (is_state sg = false →
   (∀ d, d ∈ _border_arrays components sg sources sinks ↔ d ∈ inputs ∨ d ∈ outputs) ∧
   (∀ d, d ∈ _internal_border_arrays components sg →
         d ∈ _border_arrays components sg sources sinks) ∧
   (∀ d, d ∈ filter (λ d, d ∉ _internal_border_arrays components sg)
                    (_border_arrays components sg sources sinks) ↔
         (d ∈ inputs ∧ d ∉ outputs) ∨ (d ∈ outputs ∧ d ∉ inputs))).
Proof.
  cbv zeta.
  assert (∀ d, d ∈ _internal_border_arrays components sg ↔
               d ∈ component_inputs components sg (λ _, true) ∧
               d ∈ component_outputs components sg (λ _, true)) as Hint.
  { intros d. unfold _internal_border_arrays, set_of. rewrite list_elem_of_filter.
    rewrite !elem_of_remove_dups. tauto. }
  split; [done|]. split.
  - intros d [Hd|Hd]%elem_of_border_arrays.
    + left. by apply component_inputs_weaken in Hd.
    + right. by apply component_outputs_weaken in Hd.
  - intros Hview.
    assert (∀ d, d ∈ _border_arrays components sg sources sinks ↔
                 d ∈ component_inputs components sg (λ _, true) ∨
                 d ∈ component_outputs components sg (λ _, true)) as Hb.
    { intros d. rewrite elem_of_border_arrays, Hview. done. }
    split; [done|]. split.
    + intros d Hd. apply Hb. left. by apply Hint.
    + intros d. rewrite list_elem_of_filter, Hb, Hint. tauto.
Qed.

End Borders.

(** ** Components *)

Section Components.
Context {E : Type}.

(** Whether a node starts a component: a code node or an entry node. *)
Definition starts_component (g : SDFGState E) (n : nat) : bool :=
  is_code_node (node g n) || is_entry_node (node g n).

Lemma mapM_component (g : SDFGState E) (l : list nat) :
  (∀ c, mapM (M := res) (λ n,
            if is_entry_node (node g n)
            then x ← index (exit_nodes g n) 0; Ok (n, x)
            else Ok (n, n)) l = Ok c →
        c.*1 = l ∧
        Forall (λ p, if is_entry_node (node g p.1)
                     then exit_nodes g p.1 !! 0%nat = Some p.2
                     else p.2 = p.1) c) ∧
  (∀ e, mapM (M := res) (λ n,
            if is_entry_node (node g n)
            then x ← index (exit_nodes g n) 0; Ok (n, x)
            else Ok (n, n)) l = Raise e →
        e = IndexError ∧
        ∃ n, n ∈ l ∧ is_entry_node (node g n) = true ∧ exit_nodes g n = []).
Proof.
  induction l as [|n l [IHok IHerr]].
  - split; [intros c [= <-]; by split|intros e Hrun; discriminate Hrun].
  - cbn [mapM mbind res_bind].
    destruct (is_entry_node (node g n)) eqn:Hentry.
    + unfold index at 1 3. destruct (exit_nodes g n) as [|x xs] eqn:Hexit; simpl.
      * split; [discriminate|]. intros e [= <-]. split; [done|].
        exists n. split; [by constructor|done].
      * destruct (mapM _ l) as [c'|e'] eqn:Hl; simpl.
        -- split; [|discriminate]. intros c [= <-].
           destruct (IHok c' eq_refl) as [Hfst Hall]. rewrite fmap_cons, Hfst. cbn [fst].
           split; [done|]. constructor; [|done]. simpl. by rewrite Hentry, Hexit.
        -- split; [discriminate|]. intros e [= <-].
           destruct (IHerr e' eq_refl) as (-> & m & Hm & Hme).
           split; [done|]. exists m. split; [by constructor|done].
    + destruct (mapM _ l) as [c'|e'] eqn:Hl; simpl.
      * split; [|discriminate]. intros c [= <-].
        destruct (IHok c' eq_refl) as [Hfst Hall]. rewrite fmap_cons, Hfst. cbn [fst].
        split; [done|]. constructor; [|done]. simpl. by rewrite Hentry.
      * split; [discriminate|]. intros e [= <-].
        destruct (IHerr e' eq_refl) as (-> & m & Hm & Hme).
        split; [done|]. exists m. split; [by constructor|done].
Qed.

(** X10.  [_components] returns one pair for each code or entry node at the top
    level of the subgraph, in the order of the nodes: a code node stands for
    itself, an entry node comes with its first exit node.  No component
    starts at an access node or at an exit node.  The only way it fails is
    an [IndexError], on an entry node at the top level that has no exit
    node. *)
Theorem _components_spec (sg : @View E) :
  match _components sg with
  | Ok components =>
    components.*1 = filter (λ n, starts_component (graph_of sg) n = true) (toplevel sg) ∧
    Forall (λ p, p.1 ∈ view_nodes sg ∧
                 starts_component (graph_of sg) p.1 = true ∧
                 is_access_node (node (graph_of sg) p.1) = None ∧
                 if is_entry_node (node (graph_of sg) p.1)
                 then exit_nodes (graph_of sg) p.1 !! 0%nat = Some p.2
                 else p.2 = p.1) components
  | Raise e =>
    e = IndexError ∧
    ∃ n, n ∈ toplevel sg ∧ is_entry_node (node (graph_of sg) n) = true ∧
         exit_nodes (graph_of sg) n = []
  end.
Proof.
  unfold _components.
  destruct (mapM_component (graph_of sg)
              (filter (λ n, starts_component (graph_of sg) n = true) (toplevel sg)))
    as [Hok Herr].
  unfold starts_component in *.
  destruct (mapM _ _) as [c|e] eqn:Hrun.
  - destruct (Hok c eq_refl) as [Hfst Hall]. split; [done|].
    apply Forall_forall. intros p Hp.
    assert (p.1 ∈ filter (λ n, is_code_node (node (graph_of sg) n)
                               || is_entry_node (node (graph_of sg) n) = true)
                         (toplevel sg)) as Hin.
    { rewrite <- Hfst. apply list_elem_of_fmap. by exists p. }
    apply list_elem_of_filter in Hin as [Hstart Htop].
    apply list_elem_of_filter in Htop as [_ Hview].
    split; [done|]. split; [done|]. split.
    + destruct (node (graph_of sg) p.1) as [[]|]; simpl in *; done.
    + rewrite Forall_forall in Hall. by apply Hall.
  - destruct (Herr e eq_refl) as (-> & n & Hn & Hentry & Hexit).
    split; [done|]. exists n. apply list_elem_of_filter in Hn as [_ Hn]. done.
Qed.

End Components.

(** ** Scopes *)

Section Scopes.

(** [p] is the scope of [n], or the scope of its scope, and so on. *)
Inductive encloses (scope_dict : gmap nat nat) : nat → nat → Prop :=
| encloses_parent n p : scope_dict !! n = Some p → encloses scope_dict n p
| encloses_outer n p q :
    scope_dict !! n = Some p → encloses scope_dict p q → encloses scope_dict n q.

(** [n] is [d] scopes deep. *)
Inductive scope_depth (scope_dict : gmap nat nat) : nat → nat → Prop :=
| scope_depth_top n : scope_dict !! n = None → scope_depth scope_dict n 0
| scope_depth_in n p d :
    scope_dict !! n = Some p → scope_depth scope_dict p d →
    scope_depth scope_dict n (S d).

(** X11.  On a node that is finitely many scopes deep the loop of [_outside_map]
    ends, and it returns [False] exactly when one of the scopes around the
    node belongs to [entry_nodes]. *)
Theorem _outside_map_spec (scope_dict : gmap nat nat) (entry_nodes : list nat)
    (n d fuel : nat) :
  scope_depth scope_dict n d → (d <= fuel)%nat →
  (_outside_map fuel n scope_dict entry_nodes = false ↔
   ∃ p, encloses scope_dict n p ∧ p ∈ entry_nodes).
Proof.
  intros Hd. revert fuel.
  induction Hd as [n Htop|n p d Hn Hp IH]; intros fuel Hfuel.
  - assert (_outside_map fuel n scope_dict entry_nodes = true) as ->.
    { destruct fuel; [done|]. simpl. by rewrite Htop. }
    split; [done|]. intros (p & Hp & _). inversion Hp; congruence.
  - destruct fuel as [|fuel]; [lia|]. simpl. rewrite Hn.
    case_bool_decide as Hin.
    + split; [|done]. intros _. exists p. split; [by constructor|done].
    + rewrite IH by lia. split.
      * intros (q & Hq & Hqin). exists q. split; [|done].
        by apply (encloses_outer _ n p q).
      * intros (q & Hq & Hqin).
        inversion Hq as [? ? Hn'|? p' ? Hn' Hq']; subst.
        -- assert (q = p) as -> by congruence. done.
        -- assert (p' = p) as -> by congruence. by exists q.
Qed.

End Scopes.

Lemma _outside_map_spec_witness :
  _outside_map 2 3 (<[3%nat := 2%nat]> {[ 2%nat := 1%nat ]}) [1%nat] = false ↔
  ∃ p, encloses (<[3%nat := 2%nat]> {[ 2%nat := 1%nat ]}) 3 p ∧ p ∈ [1%nat].
Proof.
  apply (_outside_map_spec (<[3%nat := 2%nat]> {[ 2%nat := 1%nat ]}) [1%nat] 3 2 2).
  - apply (scope_depth_in _ 3 2 1); [reflexivity|].
    apply (scope_depth_in _ 2 1 0); [reflexivity|].
    apply scope_depth_top. reflexivity.
  - lia.
Defined.

(** ** Descriptors after [apply] on a map with a subgraph *)

Section SubgraphArrays.
Context {E : Type} `{SymExpr E}.

Variable size_of : Range E → list E.
Variable temp_data_name : gmap string (Array E) → string.

Local Abbreviation apply := (apply size_of temp_data_name).
Local Abbreviation fission_state := (fission_state size_of temp_data_name).
Local Abbreviation add_scalar := (add_scalar temp_data_name).

(** [add_temp_transient] picks a name that is not registered. *)
Definition fresh_names : Prop := ∀ registry, registry !! temp_data_name registry = None.

Lemma apply_subgraph_arrays (graph : SDFGState E) (candidate : Candidate)
    (sdfg : SDFG E) (f : Fissioned) :
  fresh_names →
  apply graph candidate 0 sdfg = Ok f →
  ∃ outer_map components,
    map_of graph (_map_entry candidate) = Ok outer_map ∧
    _components (scope_subgraph graph (_map_entry candidate)) = Ok components ∧
    ∀ d desc,
      arrays sdfg !! d = Some desc →
      f_arrays f !! d =
        Some (if bool_decide
                   (d ∈ border_arrays_of (scope_subgraph graph (_map_entry candidate))
                                         components)
              then augment (size_of (range outer_map)) desc else desc).
Proof.
  intros Hfresh Hrun. unfold MapFission.apply in Hrun.
  apply bind_ok in Hrun as (map_exit & _ & Hrun).
  rewrite (bool_decide_eq_true_2 (0%nat = 0%nat)) in Hrun by done.
  apply bind_ok in Hrun as (outer_map & Hmap & Hrun).
  apply bind_ok in Hrun as (o & Hstate & Hrun). injection Hrun as <-.
  unfold MapFission.fission_state in Hstate.
  apply bind_ok in Hstate as (components & Hc & Hstate).
  rewrite (bool_decide_eq_true_2 (0%nat = 0%nat)) in Hstate by done.
  cbn [mbind res_bind] in Hstate.
  apply bind_ok in Hstate as (o1 & Hsc & Hstate).
  apply bind_ok in Hstate as (registry & Haug & Hstate).
  rewrite (bool_decide_eq_false_2 (0%nat = 1%nat)) in Hstate by done.
  injection Hstate as <-.
  exists outer_map, components. split; [done|]. split; [done|].
  intros d desc Hdesc. cbn [f_arrays o_arrays].
  rewrite add_maps_arrays in Haug.
  rewrite (augment_arrays_spec _ _ _ _ (NoDup_remove_dups _) Haug d).
  rewrite (add_scalars_arrays _ _ _ _ _ Hfresh Hsc d desc Hdesc).
  unfold border_arrays_of, _border_arrays. cbv zeta. by destruct (bool_decide _).
Qed.

(** X12.  For a map with a subgraph (expression 0), [apply] gives every border
    array that is registered in the SDFG as many new leading dimensions as
    the outer range has: the sizes of the range in front of the shape, as
    many strides and zero offsets in front of the strides and the offset,
    and the total size multiplied by each size; element type, storage and
    transient flag stay. *)
Theorem apply_subgraph_prepends_map_dimensions (graph : SDFGState E)
    (candidate : Candidate) (sdfg : SDFG E) (f : Fissioned) :
  fresh_names →
  apply graph candidate 0 sdfg = Ok f →
  ∃ outer_map components,
    map_of graph (_map_entry candidate) = Ok outer_map ∧
    _components (scope_subgraph graph (_map_entry candidate)) = Ok components ∧
    let mapsize := size_of (range outer_map) in
    ∀ d desc,
      d ∈ border_arrays_of (scope_subgraph graph (_map_entry candidate)) components →
      arrays sdfg !! d = Some desc →
      ∃ desc',
        f_arrays f !! d = Some desc' ∧
        shape desc' = mapsize ++ shape desc ∧
        length (shape desc') = (length mapsize + length (shape desc))%nat ∧
        (∃ new, strides desc' = new ++ strides desc ∧ length new = length mapsize) ∧
        offset desc' = replicate (length mapsize) sym_zero ++ offset desc ∧
        total_size desc' = foldr (λ sz t, sym_mul t sz) (total_size desc) mapsize ∧
        dtype desc' = dtype desc ∧ storage desc' = storage desc ∧
        transient desc' = transient desc.
Proof.
  intros Hfresh Hrun.
  destruct (apply_subgraph_arrays graph candidate sdfg f Hfresh Hrun)
    as (outer_map & components & Hmap & Hc & Harr).
  exists outer_map, components. split; [done|]. split; [done|].
  intros mapsize d desc Hd Hdesc. exists (augment mapsize desc).
  split.
  - rewrite (Harr d desc Hdesc). by rewrite bool_decide_eq_true_2.
  - destruct (augment_spec mapsize desc) as (Hs & Hl & Hst & Ho & Ht).
    do 5 (split; [done|]). rewrite augment_eq. done.
Qed.

(** X13.  For a map with a subgraph (expression 0), [apply] leaves every
    descriptor of the SDFG that is not a border array exactly as it was,
    and removes none: arrays outside the scope, and the arrays the scope
    reads from and writes to through the map, keep their shape. *)
Theorem apply_subgraph_keeps_other_arrays (graph : SDFGState E)
    (candidate : Candidate) (sdfg : SDFG E) (f : Fissioned) :
  fresh_names →
  apply graph candidate 0 sdfg = Ok f →
  ∃ components,
    _components (scope_subgraph graph (_map_entry candidate)) = Ok components ∧
    (∀ d desc,
       d ∉ border_arrays_of (scope_subgraph graph (_map_entry candidate)) components →
       arrays sdfg !! d = Some desc → f_arrays f !! d = Some desc) ∧
    (∀ d, is_Some (arrays sdfg !! d) → is_Some (f_arrays f !! d)).
Proof.
  intros Hfresh Hrun.
  destruct (apply_subgraph_arrays graph candidate sdfg f Hfresh Hrun)
    as (outer_map & components & Hmap & Hc & Harr).
  exists components. split; [done|]. split.
  - intros d desc Hd Hdesc. rewrite (Harr d desc Hdesc).
    by rewrite bool_decide_eq_false_2.
  - intros d [desc Hdesc]. rewrite (Harr d desc Hdesc). by eexists.
Qed.

End SubgraphArrays.

(** A name longer than every registered name. *)
Fixpoint pad (n : nat) : string :=
  match n with O => "__tmp" | S n' => String (Ascii.ascii_of_nat 95) (pad n') end.

Definition unused_name (registry : gmap string (Array Z)) : string :=
  pad (S (foldr Nat.max 0%nat (String.length <$> (map_to_list registry).*1))).

Lemma length_pad (n : nat) : (n < String.length (pad n))%nat.
Proof. induction n as [|n IH]; simpl; lia. Qed.

Lemma unused_name_fresh : fresh_names unused_name.
Proof.
  intros registry. destruct (registry !! unused_name registry) as [v|] eqn:Hv; [|done].
  exfalso.
  assert (String.length (unused_name registry)
          ∈ String.length <$> (map_to_list registry).*1) as Hin.
  { apply list_elem_of_fmap. exists (unused_name registry). split; [done|].
    apply list_elem_of_fmap. exists (unused_name registry, v). split; [done|].
    by apply elem_of_map_to_list. }
  apply max_ge in Hin. unfold unused_name in Hin at 1.
  pose proof (length_pad (S (foldr Nat.max 0%nat
                               (String.length <$> (map_to_list registry).*1)))).
  lia.
Qed.

(** The state [two_tasklets] after [apply]: the outer entry (1) and exit (5)
    are gone, each tasklet has a map of its own, and [tmp] has one more
    dimension. *)
Definition two_tasklets_fissioned : Fissioned :=
  mkFissioned
    (remove_nodes_from [1%nat; 5%nat]
       (kinds (nodes two_tasklets)
        ++ [(7%nat, KMapEntry 1); (8%nat, KMapExit 1);
            (9%nat, KMapEntry 2); (10%nat, KMapExit 2)]))
    (<[2%nat := fission_map outer_map_10]>
       (<[1%nat := fission_map outer_map_10]> (maps two_tasklets)))
    []
    (<["tmp" := augment [10] (vector 1 true)]> (arrays (two_tasklets_sdfg true))).

Lemma apply_two_tasklets_fissioned :
  apply size_of_Z unused_name two_tasklets (mkCandidate 1 0) 0 (two_tasklets_sdfg true)
  = Ok two_tasklets_fissioned.
Proof. vm_compute. reflexivity. Qed.

Lemma apply_subgraph_prepends_map_dimensions_witness :
  ∃ outer_map components,
    map_of two_tasklets 1 = Ok outer_map ∧
    _components (scope_subgraph two_tasklets 1) = Ok components ∧
    let mapsize := size_of_Z (range outer_map) in
    ∀ d desc,
      d ∈ border_arrays_of (scope_subgraph two_tasklets 1) components →
      arrays (two_tasklets_sdfg true) !! d = Some desc →
      ∃ desc',
        f_arrays two_tasklets_fissioned !! d = Some desc' ∧
        shape desc' = mapsize ++ shape desc ∧
        length (shape desc') = (length mapsize + length (shape desc))%nat ∧
        (∃ new, strides desc' = new ++ strides desc ∧ length new = length mapsize) ∧
        offset desc' = replicate (length mapsize) sym_zero ++ offset desc ∧
        total_size desc' = foldr (λ sz t, sym_mul t sz) (total_size desc) mapsize ∧
        dtype desc' = dtype desc ∧ storage desc' = storage desc ∧
        transient desc' = transient desc.
Proof.
  apply (apply_subgraph_prepends_map_dimensions size_of_Z unused_name two_tasklets
           (mkCandidate 1 0) (two_tasklets_sdfg true)).
  - exact unused_name_fresh.
  - vm_compute. reflexivity.
Defined.

Lemma apply_subgraph_keeps_other_arrays_witness :
  ∃ components,
    _components (scope_subgraph two_tasklets 1) = Ok components ∧
    (∀ d desc,
       d ∉ border_arrays_of (scope_subgraph two_tasklets 1) components →
       arrays (two_tasklets_sdfg true) !! d = Some desc →
       f_arrays two_tasklets_fissioned !! d = Some desc) ∧
    (∀ d, is_Some (arrays (two_tasklets_sdfg true) !! d) →
          is_Some (f_arrays two_tasklets_fissioned !! d)).
Proof.
  apply (apply_subgraph_keeps_other_arrays size_of_Z unused_name two_tasklets
           (mkCandidate 1 0) (two_tasklets_sdfg true)).
  - exact unused_name_fresh.
  - vm_compute. reflexivity.
Defined.

(** ** Packed descriptors *)

Definition product (l : list Z) : Z := foldr Z.mul 1 l.

(** A descriptor of integer sizes that is stored contiguously in row-major
    order: the stride of a dimension is the product of the sizes of the
    dimensions after it, and the total size is the product of all sizes. *)
Definition packed (desc : Array Z) : Prop :=
  strides desc = MatMul.default_strides (shape desc) ∧
  total_size desc = product (shape desc).

Lemma default_strides_cons (sz : Z) (l : list Z) :
  MatMul.default_strides (sz :: l) = product l :: MatMul.default_strides l.
Proof.
  unfold MatMul.default_strides. cbn [length seq fmap list_fmap drop].
  f_equal. rewrite <- fmap_S_seq, <- list_fmap_compose.
  apply list_fmap_ext. intros i x _. reflexivity.
Qed.

Lemma prepend_packed (mapsize shp : list Z) :
  foldr prepend_stride (MatMul.default_strides shp, product shp) mapsize
  = (MatMul.default_strides (mapsize ++ shp), product (mapsize ++ shp)).
Proof.
  induction mapsize as [|sz ms IH]; [done|].
  cbn [foldr app]. rewrite IH. unfold prepend_stride. cbn [fst snd].
  rewrite default_strides_cons. f_equal.
  change (product (sz :: ms ++ shp)) with (sz * product (ms ++ shp)).
  apply Z.mul_comm.
Qed.

(** X15.  The augmentation of [apply] keeps a packed descriptor packed: the new
    strides are those of a row-major array of the new shape, and the new
    total size is the product of the new shape; the numbers of strides and
    of offsets follow the number of dimensions. *)
Theorem augment_keeps_packed (mapsize : list Z) (desc : Array Z) :
  packed desc →
  packed (augment mapsize desc) ∧
  length (strides (augment mapsize desc)) = length (shape (augment mapsize desc)) ∧
  (length (offset desc) = length (shape desc) →
   length (offset (augment mapsize desc)) = length (shape (augment mapsize desc))).
Proof.
  intros [Hs Ht]. rewrite augment_eq. unfold packed. cbn [strides total_size shape offset].
  rewrite Hs, Ht, prepend_packed. cbn [fst snd]. split; [done|]. split.
  - unfold MatMul.default_strides. by rewrite length_fmap, length_seq.
  - intros Ho. by rewrite !length_app, length_replicate, Ho.
Qed.

Lemma augment_keeps_packed_witness :
  packed (augment [10; 4] (vector 3 true)) ∧
  length (strides (augment [10; 4] (vector 3 true)))
  = length (shape (augment [10; 4] (vector 3 true))) ∧
  (length (offset (vector 3 true)) = length (shape (vector 3 true)) →
   length (offset (augment [10; 4] (vector 3 true)))
   = length (shape (augment [10; 4] (vector 3 true)))).
Proof.
  apply (augment_keeps_packed [10; 4] (vector 3 true)).
  split; vm_compute; reflexivity.
Defined.

(** ** Edges of the state after [apply] on a map with a nested SDFG *)

Section NestedEdges.
Context {E : Type} `{SymExpr E}.

Variable from_array : Array E → Range E.

Local Abbreviation apply_nested_edges := (apply_nested_edges from_array).
Local Abbreviation reconnect_input := (reconnect_input from_array).
Local Abbreviation reconnect_output := (reconnect_output from_array).

Lemma reconnect_output_keeps (outer_arrays : gmap string (Array E))
    (map_exit nsdfg_node : nat) (l eds eds' : list (Edge E)) :
  foldl (reconnect_output outer_arrays map_exit nsdfg_node) (Ok eds) l = Ok eds' →
  Forall (λ edge, src edge = map_exit) l →
  ∀ e, e ∈ eds → src e ≠ map_exit → e ∈ eds'.
Proof.
  revert eds. induction l as [|edge l IH]; intros eds Hrun Hsrc e He Hne.
  - simpl in Hrun. by injection Hrun as <-.
  - cbn [foldl] in Hrun. apply Forall_cons in Hsrc as [Hs Hsrc].
    destruct (MapFission.reconnect_output from_array outer_arrays map_exit nsdfg_node
                (Ok eds) edge) as [eds1|err] eqn:Hstep.
    2:{ by rewrite foldl_raise in Hrun. }
    apply (IH eds1 Hrun Hsrc e); [|done].
    unfold MapFission.reconnect_output in Hstep. cbn [mbind res_bind] in Hstep.
    apply bind_ok in Hstep as (desc & _ & Hstep).
    apply bind_ok in Hstep as (inner_edge & _ & Hstep). injection Hstep as <-.
    apply elem_of_app. left. apply assign_edge_other; [|done].
    intros ->. done.
Qed.

(** X16.  [apply] on a map with a nested SDFG keeps every edge of the state that
    touches neither the outer map entry nor its exit, with its memlet
    unchanged. *)
Theorem apply_nested_edges_keeps_other_edges (graph : SDFGState E)
    (candidate : Candidate) (sdfg : SDFG E) (final : list (Edge E)) :
  apply_nested_edges graph candidate sdfg = Ok final →
  ∃ map_exit,
    index (exit_nodes graph (_map_entry candidate)) 0 = Ok map_exit ∧
    ∀ e, e ∈ edges graph →
         src e ∉ [_map_entry candidate; map_exit] →
         dst e ∉ [_map_entry candidate; map_exit] →
         e ∈ final.
Proof.
  unfold MapFission.apply_nested_edges. intros Hrun.
  apply bind_ok in Hrun as (map_exit & Hexit & Hrun).
  apply bind_ok in Hrun as (eds1 & Hin & Hrun).
  apply bind_ok in Hrun as (eds2 & Hout & Hrun).
  injection Hrun as <-.
  destruct (reconnect_inputs_run from_array (arrays sdfg) (_map_entry candidate) map_exit
              (_nested_sdfg candidate) _ _ _ Hin) as (_ & Ho1 & _ & _).
  { apply Forall_forall. by intros e [? _]%list_elem_of_filter. }
  exists map_exit. split; [done|]. intros e He Hsrc Hdst.
  apply list_elem_of_filter. split; [done|].
  apply (reconnect_output_keeps _ _ _ _ _ _ Hout).
  - apply Forall_forall. by intros e' [? _]%list_elem_of_filter.
  - apply Ho1; [done|]. intros Heq. apply Hdst. rewrite Heq. by constructor.
  - intros Heq. apply Hsrc. rewrite Heq. by repeat constructor.
Qed.

(** *** [apply] on a well-formed scope *)

(** Two edges between the same nodes and connectors, for the same data. *)
Definition same_ends (e e' : Edge E) : Prop :=
  src e' = src e ∧ src_conn e' = src_conn e ∧ dst e' = dst e ∧
  dst_conn e' = dst_conn e ∧ data (edata e') = data (edata e).

Lemma same_ends_refl (e : Edge E) : same_ends e e.
Proof. by repeat split. Qed.

Lemma same_ends_with_subset (r : Range E) (e : Edge E) : same_ends e (with_subset r e).
Proof. by repeat split. Qed.

Lemma same_ends_trans (e1 e2 e3 : Edge E) :
  same_ends e1 e2 → same_ends e2 e3 → same_ends e1 e3.
Proof.
  intros (? & ? & ? & ? & ?) (? & ? & ? & ? & ?). repeat split; congruence.
Qed.

Lemma assign_edge_same_ends (r : Range E) (old : Edge E) (eds : list (Edge E)) :
  (∀ e, e ∈ eds → ∃ e', e' ∈ assign_edge old (with_subset r old) eds ∧ same_ends e e') ∧
  (∀ e', e' ∈ assign_edge old (with_subset r old) eds → ∃ e, e ∈ eds ∧ same_ends e e').
Proof.
  unfold assign_edge. split.
  - intros e He. exists (if decide (e = old) then with_subset r old else e). split.
    + apply list_elem_of_fmap. by exists e.
    + case_decide as Heq; [subst; apply same_ends_with_subset|apply same_ends_refl].
  - intros e' (e & -> & He)%list_elem_of_fmap. exists e. split; [done|].
    case_decide as Heq; [subst; apply same_ends_with_subset|apply same_ends_refl].
Qed.

(** What [apply] relies on around the outer map: the entry has an exit node,
    which is not the nested SDFG node; no edge leads from the exit back to
    the entry or to the exit itself; each edge into an [IN_] connector of the
    entry names a registered array and has a matching edge out of the
    entry; each edge out of the exit names a registered array, leaves a
    connector, and has a matching edge into the exit; the edges into the
    exit arrive at connectors. *)
Definition scope_connected (graph : SDFGState E) (candidate : Candidate)
    (sdfg : SDFG E) : Prop :=
  let map_entry := _map_entry candidate in
  ∃ map_exit,
    index (exit_nodes graph map_entry) 0 = Ok map_exit ∧
    _nested_sdfg candidate ≠ map_exit ∧
    (∀ edge, edge ∈ in_edges (edges graph) map_entry →
       src edge ≠ map_exit ∧
       ∀ dc, dst_conn edge = Some dc → is_in_connector (Some dc) = true →
             is_ok (getitem (arrays sdfg) (data (edata edge))) = true ∧
             ∃ inner, inner ∈ out_edges (edges graph) map_entry ∧
                      matches_out dc inner = true) ∧
    (∀ edge, edge ∈ out_edges (edges graph) map_exit →
       dst edge ≠ map_exit ∧
       is_ok (getitem (arrays sdfg) (data (edata edge))) = true ∧
       ∃ sc inner dc,
         src_conn edge = Some sc ∧ inner ∈ in_edges (edges graph) map_exit ∧
         dst_conn inner = Some dc ∧ drop_chars 3 dc = drop_chars 4 sc) ∧
    (∀ inner, inner ∈ in_edges (edges graph) map_exit → is_Some (dst_conn inner)).

Lemma matches_out_same_ends (dc : string) (e e' : Edge E) :
  same_ends e e' → matches_out dc e = true → matches_out dc e' = true.
Proof. intros (_ & Hsc & _). unfold matches_out. by rewrite Hsc. Qed.

Section Run.
Variable outer_arrays : gmap string (Array E).
Variables map_entry map_exit nsdfg_node : nat.
Variable original : list (Edge E).

(** The edges so far: every original edge is still there, up to its
    subset, and every other edge was added at the nested SDFG node for an
    edge into the entry. *)
Definition inputs_done (eds : list (Edge E)) : Prop :=
  (∀ e, e ∈ original → ∃ e', e' ∈ eds ∧ same_ends e e') ∧
  (∀ e', e' ∈ eds →
     (∃ e, e ∈ original ∧ same_ends e e')
     ∨ (dst e' = nsdfg_node ∧ ∃ edge, edge ∈ in_edges original map_entry ∧
                                      src e' = src edge)).

Lemma inputs_done_assign (r : Range E) (old : Edge E) (eds : list (Edge E)) :
  inputs_done eds → inputs_done (assign_edge old (with_subset r old) eds).
Proof.
  intros [Ha Hb]. destruct (assign_edge_same_ends r old eds) as [Hfw Hbw]. split.
  - intros e He. destruct (Ha e He) as (e1 & He1 & Hs1).
    destruct (Hfw e1 He1) as (e2 & He2 & Hs2). exists e2. split; [done|].
    by apply (same_ends_trans e e1 e2).
  - intros e' He'. destruct (Hbw e' He') as (e1 & He1 & Hs1).
    destruct (Hb e1 He1) as [(e & He & Hs)|(Hd & edge & Hedge & Hsrc)].
    + left. exists e. split; [done|]. by apply (same_ends_trans e e1 e').
    + right. destruct Hs1 as (Hs & _ & Hd' & _). split; [congruence|].
      exists edge. split; [done|congruence].
Qed.

Lemma reconnect_inputs_ok (l : list (Edge E)) (eds : list (Edge E)) :
  (∀ edge, edge ∈ l →
     edge ∈ in_edges original map_entry ∧
     ∀ dc, dst_conn edge = Some dc → is_in_connector (Some dc) = true →
           is_ok (getitem outer_arrays (data (edata edge))) = true ∧
           ∃ inner, inner ∈ out_edges original map_entry ∧ matches_out dc inner = true) →
  inputs_done eds →
  ∃ eds', foldl (reconnect_input outer_arrays map_entry nsdfg_node) (Ok eds) l = Ok eds' ∧
          inputs_done eds'.
Proof.
  revert eds. induction l as [|edge l IH]; intros eds Hl Hinv; [by exists eds|].
  destruct (Hl edge) as [Hedge Hconn]; [by constructor|].
  assert (∃ eds1, MapFission.reconnect_input from_array outer_arrays map_entry nsdfg_node
                    (Ok eds) edge = Ok eds1 ∧ inputs_done eds1) as (eds1 & Hstep & Hinv1).
  { unfold MapFission.reconnect_input. cbn [mbind res_bind].
    destruct (dst_conn edge) as [dc|] eqn:Hdc; [|by exists eds].
    destruct (is_in_connector (Some dc)) eqn:Hin; cbn [negb]; [|by exists eds].
    destruct (Hconn dc eq_refl Hin) as (Hdesc & inner & Hinner & Hmatch).
    destruct (getitem outer_arrays (data (edata edge))) as [desc|] eqn:Hd; [|done].
    cbn [mbind res_bind].
    pose proof (inputs_done_assign (from_array desc) edge eds Hinv) as [Ha Hb].
    apply list_elem_of_filter in Hinner as [Hsrc Hinner].
    destruct (Ha inner Hinner) as (inner' & Hinner' & Hsame).
    assert (inner' ∈ filter (λ e, matches_out dc e = true)
                       (out_edges (assign_edge edge (with_subset (from_array desc) edge) eds)
                                  map_entry)) as Hfound.
    { apply list_elem_of_filter. split; [by apply (matches_out_same_ends dc inner)|].
      apply list_elem_of_filter. split; [|done]. destruct Hsame as (-> & _). done. }
    destruct (filter _ _) as [|first rest]; [by apply elem_of_nil in Hfound|].
    eexists. split; [done|]. split.
    - intros e He. destruct (Ha e He) as (e' & He' & Hs). exists e'. split; [|done].
      apply elem_of_app. by left.
    - intros e' [He'|He']%elem_of_app; [by apply Hb|].
      apply list_elem_of_singleton in He' as ->. right. split; [done|].
      by exists edge. }
  cbn [foldl]. rewrite Hstep. apply IH; [|done].
  intros edge' Hedge'. apply Hl. by constructor.
Qed.

(** The edges during the loop over the edges out of the exit. *)
Definition outputs_pending (eds : list (Edge E)) : Prop :=
  (∀ e, e ∈ original → ∃ e', e' ∈ eds ∧ same_ends e e') ∧
  (∀ e', e' ∈ in_edges eds map_exit → ∃ e, e ∈ in_edges original map_exit ∧ same_ends e e').

Lemma outputs_pending_assign (r : Range E) (old : Edge E) (eds : list (Edge E)) :
  outputs_pending eds → outputs_pending (assign_edge old (with_subset r old) eds).
Proof.
  intros [Ha Hb]. destruct (assign_edge_same_ends r old eds) as [Hfw Hbw]. split.
  - intros e He. destruct (Ha e He) as (e1 & He1 & Hs1).
    destruct (Hfw e1 He1) as (e2 & He2 & Hs2). exists e2. split; [done|].
    by apply (same_ends_trans e e1 e2).
  - intros e' [Hdst He']%list_elem_of_filter.
    destruct (Hbw e' He') as (e1 & He1 & Hs1).
    destruct (Hb e1) as (e & He & Hs).
    { apply list_elem_of_filter. split; [|done]. destruct Hs1 as (_ & _ & Hd & _). congruence. }
    exists e. split; [done|]. by apply (same_ends_trans e e1 e').
Qed.

Lemma next_into_exit_ok (edge : Edge E) (sc : string) (l : list (Edge E)) :
  src_conn edge = Some sc →
  (∀ e, e ∈ l → is_Some (dst_conn e)) →
  (∃ e dc, e ∈ l ∧ dst_conn e = Some dc ∧ drop_chars 3 dc = drop_chars 4 sc) →
  ∃ inner, next_into_exit edge l = Ok inner.
Proof.
  intros Hsc. induction l as [|e l IH]; intros Hconn (e0 & dc0 & He0 & Hdc0 & Hm).
  - by apply elem_of_nil in He0.
  - simpl. destruct (Hconn e) as [dc Hdc]; [by constructor|]. rewrite Hdc, Hsc.
    case_bool_decide as Hmatch; [by exists e|].
    apply IH.
    + intros e' He'. apply Hconn. by constructor.
    + apply elem_of_cons in He0 as [->|He0]; [|by exists e0, dc0].
      assert (dc0 = dc) as -> by congruence. done.
Qed.

Lemma reconnect_outputs_ok (l : list (Edge E)) (eds : list (Edge E)) :
  (∀ edge, edge ∈ l →
     dst edge ≠ map_exit ∧
     is_ok (getitem outer_arrays (data (edata edge))) = true ∧
     ∃ sc inner dc,
       src_conn edge = Some sc ∧ inner ∈ in_edges original map_exit ∧
       dst_conn inner = Some dc ∧ drop_chars 3 dc = drop_chars 4 sc) →
  (∀ inner, inner ∈ in_edges original map_exit → is_Some (dst_conn inner)) →
  outputs_pending eds →
  ∃ eds', foldl (reconnect_output outer_arrays map_exit nsdfg_node) (Ok eds) l = Ok eds'.
Proof.
  intros Hl Hconn. revert eds Hl. induction l as [|edge l IH]; intros eds Hl Hinv;
    [by exists eds|].
  destruct (Hl edge) as (Hdst & Hdesc & sc & inner & dc & Hsc & Hinner & Hdc & Hm);
    [by constructor|].
  assert (∃ eds1, MapFission.reconnect_output from_array outer_arrays map_exit nsdfg_node
                    (Ok eds) edge = Ok eds1 ∧ outputs_pending eds1)
    as (eds1 & Hstep & Hinv1).
  { unfold MapFission.reconnect_output. cbn [mbind res_bind].
    destruct (getitem outer_arrays (data (edata edge))) as [desc|] eqn:Hd; [|done].
    cbn [mbind res_bind].
    pose proof (outputs_pending_assign (from_array desc) edge eds Hinv) as [Ha Hb].
    destruct (next_into_exit_ok (with_subset (from_array desc) edge) sc
                (in_edges (assign_edge edge (with_subset (from_array desc) edge) eds)
                          map_exit)) as [found Hfound].
    - done.
    - intros e' He'. destruct (Hb e' He') as (e & He & Hs).
      destruct Hs as (_ & _ & _ & Hc & _). rewrite Hc. by apply Hconn.
    - apply list_elem_of_filter in Hinner as [Hd' Hinner].
      destruct (Ha inner Hinner) as (inner' & Hinner' & Hs).
      exists inner', dc. split; [|split; [|done]].
      + apply list_elem_of_filter. split; [|done]. destruct Hs as (_ & _ & -> & _). done.
      + destruct Hs as (_ & _ & _ & -> & _). done.
    - rewrite Hfound. cbn [mbind res_bind]. eexists. split; [done|]. split.
      + intros e He. destruct (Ha e He) as (e' & He' & Hs). exists e'. split; [|done].
        apply elem_of_app. by left.
      + intros e' [Hd' He']%list_elem_of_filter.
        apply elem_of_app in He' as [He'|He'].
        * apply Hb. by apply list_elem_of_filter.
        * apply list_elem_of_singleton in He' as ->. simpl in Hd'. done. }
  cbn [foldl]. rewrite Hstep. apply IH; [|done].
  intros edge' Hedge'. apply Hl. by constructor.
Qed.

End Run.

(** X17.  On a scope that is connected as [apply] expects, the rewiring of the
    edges around the nested SDFG raises nothing: every lookup of an array
    and every search for a matching edge finds what it looks for. *)
Theorem apply_nested_edges_succeeds (graph : SDFGState E) (candidate : Candidate)
    (sdfg : SDFG E) :
  scope_connected graph candidate sdfg →
  ∃ final, apply_nested_edges graph candidate sdfg = Ok final.
Proof.
  intros (map_exit & Hexit & Hns & Hin & Hout & Hconn).
  unfold MapFission.apply_nested_edges. rewrite Hexit. cbn [mbind res_bind].
  destruct (reconnect_inputs_ok (arrays sdfg) (_map_entry candidate)
              (_nested_sdfg candidate) (edges graph)
              (in_edges (edges graph) (_map_entry candidate)) (edges graph))
    as (eds1 & Hrun1 & [Ha Hb]).
  { intros edge Hedge. split; [done|]. intros dc Hdc Hconn'.
    by apply (Hin edge Hedge). }
  { split.
    - intros e He. exists e. split; [done|apply same_ends_refl].
    - intros e He. left. exists e. split; [done|apply same_ends_refl]. }
  rewrite Hrun1. cbn [mbind res_bind].
  destruct (reconnect_outputs_ok (arrays sdfg) map_exit (_nested_sdfg candidate)
              (edges graph) (out_edges eds1 map_exit) eds1) as [eds2 Hrun2].
  - intros edge [Hsrc Hedge]%list_elem_of_filter.
    destruct (Hb edge Hedge) as [(e & He & Hs)|(Hd & edge' & Hedge' & Hsrc')].
    + destruct Hs as (Hs & Hsc & Hd & Hdc & Hdata).
      destruct (Hout e) as (Hne & Hdesc & sc & inner & dc & Hsc' & Hinner & Hm).
      { apply list_elem_of_filter. split; [congruence|done]. }
      split; [congruence|]. split; [by rewrite Hdata|].
      exists sc, inner, dc. split; [congruence|done].
    + destruct (Hin edge' Hedge') as [Hne _]. congruence.
  - done.
  - split; [done|]. intros e' [Hdst He']%list_elem_of_filter.
    destruct (Hb e' He') as [(e & He & Hs)|(Hd & _)].
    + exists e. split; [|done]. apply list_elem_of_filter. split; [|done].
      destruct Hs as (_ & _ & Hd & _). congruence.
    + congruence.
  - rewrite Hrun2. cbn [mbind res_bind]. by eexists.
Qed.

End NestedEdges.

(** The state [map_with_nested n] with a copy from [A] to [B] beside the
    map. *)
Definition map_with_nested_beside (n : nat) : SDFGState Z :=
  mkState
    (nodes (map_with_nested n) ++ [(5%nat, AccessNode "A"); (6%nat, AccessNode "B")])
    (edges (map_with_nested n) ++ [mkEdge 5 None 6 None (memlet_at "A" 3 4)])
    (maps (map_with_nested n))
    (scope (map_with_nested n)).

Lemma apply_nested_edges_keeps_other_edges_witness :
  ∃ map_exit,
    index (exit_nodes (map_with_nested_beside 2) 1) 0 = Ok map_exit ∧
    ∀ e, e ∈ edges (map_with_nested_beside 2) →
         src e ∉ [1%nat; map_exit] → dst e ∉ [1%nat; map_exit] →
         e ∈ [mkEdge 5 None 6 None (memlet_at "A" 3 4);
              mkEdge 0 None 2 (Some "a") (memlet_at "A" 0 9);
              mkEdge 2 (Some "b") 4 None (memlet_at "B" 0 9)].
Proof.
  apply (apply_nested_edges_keeps_other_edges from_array_Z (map_with_nested_beside 2)
           (mkCandidate 1 2) (map_with_nested_sdfg 2)).
  vm_compute. reflexivity.
Defined.

Lemma apply_nested_edges_succeeds_witness :
  ∃ final, apply_nested_edges from_array_Z (map_with_nested 2) (mkCandidate 1 2)
                              (map_with_nested_sdfg 2) = Ok final.
Proof.
  apply (apply_nested_edges_succeeds from_array_Z (map_with_nested 2) (mkCandidate 1 2)
                                     (map_with_nested_sdfg 2)).
  exists 3%nat. split; [vm_compute; reflexivity|]. split; [done|].
  split; [|split].
  - intros edge Hedge. vm_compute in Hedge.
    apply list_elem_of_singleton in Hedge as ->.
    split; [done|]. intros dc [= <-] _. split; [vm_compute; reflexivity|].
    exists (mkEdge 1 (Some "OUT_A") 2 (Some "a") (memlet_at "A" 0 0)).
    split; [vm_compute; by constructor|vm_compute; reflexivity].
  - intros edge Hedge. vm_compute in Hedge.
    apply list_elem_of_singleton in Hedge as ->.
    split; [done|]. split; [vm_compute; reflexivity|].
    exists "OUT_B", (mkEdge 2 (Some "b") 3 (Some "IN_B") (memlet_at "B" 0 0)), "IN_B".
    split; [done|]. split; [vm_compute; by constructor|]. split; [done|].
    vm_compute. reflexivity.
  - intros inner Hinner. vm_compute in Hinner.
    apply list_elem_of_singleton in Hinner as ->. by eexists.
Defined.

(** ** Descriptors after [apply] on a map with a nested SDFG of one state *)

Section NestedArrays.
Context {E : Type} `{SymExpr E}.

Variable size_of : Range E → list E.
Variable temp_data_name : gmap string (Array E) → string.

Local Abbreviation apply := (apply size_of temp_data_name).

Lemma match_outer_keeps (outer_arrays : gmap string (Array E))
    (outer_edge : nat → res (Edge E)) (st : SDFGState E) (l : list nat)
    (acc acc' : gmap string (Array E) * list string) (d : string) :
  foldl (match_outer outer_arrays outer_edge st) (Ok acc) l = Ok acc' →
  (∀ n, n ∈ l → is_access_node (node st n) ≠ Some d) →
  acc'.1 !! d = acc.1 !! d.
Proof.
  revert acc. induction l as [|n l IH]; intros acc Hrun Hd.
  - simpl in Hrun. by injection Hrun as <-.
  - cbn [foldl] in Hrun.
    destruct (match_outer outer_arrays outer_edge st (Ok acc) n) as [acc1|err] eqn:Hstep.
    2:{ rewrite foldl_raise in Hrun; [done|]. by intros x. }
    rewrite (IH acc1 Hrun); [|intros n' Hn'; apply Hd; by constructor].
    unfold match_outer in Hstep. destruct acc as [registry mods].
    cbn [mbind res_bind] in Hstep.
    destruct (is_access_node (node st n)) as [d'|] eqn:Hn; [|by injection Hstep as <-].
    apply bind_ok in Hstep as (oe & _ & Hstep).
    apply bind_ok in Hstep as (desc & _ & Hstep).
    case_bool_decide; [|by injection Hstep as <-].
    apply bind_ok in Hstep as (od & _ & Hstep). injection Hstep as <-.
    cbn [fst]. rewrite lookup_insert_ne; [done|].
    intros ->. apply (Hd n); [by constructor|done].
Qed.

(** X24.  For a map with a nested SDFG of one state (expression 1), [apply] gives
    every registered border array of that state its new leading dimensions
    once: the descriptor becomes the augmentation of the one it was,
    provided no source or sink access node of the state carries its name
    (the descriptors of those are matched with the outer arrays). *)
Theorem apply_nested_single_state_augments (graph : SDFGState E)
    (candidate : Candidate) (sdfg nsdfg : SDFG E) (st : SDFGState E) (f : Fissioned) :
  fresh_names temp_data_name →
  nested_sdfg graph (_nested_sdfg candidate) = Ok nsdfg →
  sdfg_states nsdfg = [st] →
  apply graph candidate 1 sdfg = Ok f →
  ∃ outer_map components,
    map_of graph (_map_entry candidate) = Ok outer_map ∧
    _components (state_view st) = Ok components ∧
    ∀ d desc,
      d ∈ border_arrays_of (state_view st) components →
      (∀ n, n ∈ source_nodes (state_view st) ++ sink_nodes (state_view st) →
            is_access_node (node st n) ≠ Some d) →
      arrays nsdfg !! d = Some desc →
      f_arrays f !! d = Some (augment (size_of (range outer_map)) desc).
Proof.
  intros Hfresh Hnested Hstates Hrun. unfold MapFission.apply in Hrun.
  apply bind_ok in Hrun as (map_exit & _ & Hrun).
  rewrite (bool_decide_eq_false_2 (1%nat = 0%nat)) in Hrun by done.
  rewrite Hnested in Hrun. cbn [mbind res_bind] in Hrun.
  apply bind_ok in Hrun as (outer_map & Hmap & Hrun).
  rewrite Hstates in Hrun. cbn [fission_states] in Hrun.
  apply bind_ok in Hrun as ([os registry] & Hloop & Hrun). injection Hrun as <-.
  apply bind_ok in Hloop as (o & Hstate & Hloop).
  cbn [mbind res_bind] in Hloop. injection Hloop as <- <-.
  unfold fission_state in Hstate.
  apply bind_ok in Hstate as (components & Hc & Hstate).
  rewrite (bool_decide_eq_false_2 (1%nat = 0%nat)) in Hstate by done.
  apply bind_ok in Hstate as (table & _ & Hstate).
  apply bind_ok in Hstate as (o1 & Hsc & Hstate).
  apply bind_ok in Hstate as (registry & Haug & Hstate).
  rewrite (bool_decide_eq_true_2 (1%nat = 1%nat)) in Hstate by done.
  apply bind_ok in Hstate as ([registry' mods] & Hmatch & Hstate).
  injection Hstate as <-.
  exists outer_map, components. split; [done|]. split; [done|].
  intros d desc Hd Hnot Hdesc. cbn [f_arrays o_arrays].
  change registry' with (registry', mods).1.
  rewrite (match_outer_keeps _ _ _ _ _ _ d Hmatch Hnot). cbn [fst].
  rewrite add_maps_arrays in Haug.
  rewrite (augment_arrays_spec _ _ _ _ (NoDup_remove_dups _) Haug d).
  unfold border_arrays_of in Hd. rewrite bool_decide_eq_true_2 by done.
  by rewrite (add_scalars_arrays _ _ _ _ _ Hfresh Hsc d desc Hdesc).
Qed.

End NestedArrays.

Lemma apply_nested_single_state_augments_witness :
  ∃ outer_map components,
    map_of (map_with_nested 1) 1 = Ok outer_map ∧
    _components (state_view nested_step) = Ok components ∧
    ∀ d desc,
      d ∈ border_arrays_of (state_view nested_step) components →
      (∀ n, n ∈ source_nodes (state_view nested_step) ++ sink_nodes (state_view nested_step) →
            is_access_node (node nested_step n) ≠ Some d) →
      arrays (nested 1) !! d = Some desc →
      f_arrays (default (mkFissioned [] ∅ [] ∅)
                  (match apply size_of_Z unused_name (map_with_nested 1) (mkCandidate 1 2)
                               1 (map_with_nested_sdfg 1)
                   with Ok f => Some f | Raise _ => None end)) !! d
      = Some (augment (size_of_Z (range outer_map)) desc).
Proof.
  assert (∃ f, apply size_of_Z unused_name (map_with_nested 1) (mkCandidate 1 2) 1
                     (map_with_nested_sdfg 1) = Ok f) as [f Hf].
  { eexists. vm_compute. reflexivity. }
  rewrite Hf. cbn [default].
  apply (apply_nested_single_state_augments size_of_Z unused_name (map_with_nested 1)
           (mkCandidate 1 2) (map_with_nested_sdfg 1) (nested 1) nested_step f).
  - exact unused_name_fresh.
  - reflexivity.
  - reflexivity.
  - exact Hf.
Defined.

(** ** Edges through the new maps *)

Section Enclose.
Context {E : Type} `{EqDecision E}.

(** [state.remove_edge(e)]: the edge object leaves the graph. *)
Fixpoint remove_edge (e : Edge E) (eds : list (Edge E)) : list (Edge E) :=
  match eds with
  | [] => []
  | x :: xs => if decide (x = e) then xs else x :: remove_edge e xs
  end.

(** [mm.EmptyMemlet()] *)
Definition empty_memlet : Memlet E := mkMemlet None [].

(** [edge_to_outer[e]] for an edge [e] at a source or sink of the subgraph
    of a map (expression 0). *)
Variable edge_to_outer : Edge E → res (Edge E).

(** "Reconnect edges through new map": the body of the loop over
    [state.in_edges(component_in)]; [at_source] is [component_in in
    sources]. *)
Definition through_entry (me : nat) (at_source : bool)
    (acc : res (list (Edge E))) (e : Edge E) : res (list (Edge E)) :=
  eds ← acc;
  let eds := eds ++ [mkEdge me None (dst e) (dst_conn e) (edata e)] in
  eds ← (if at_source then
           outer ← edge_to_outer e;
           Ok (eds ++ [mkEdge (src outer) (src_conn outer) me None (edata outer)])
         else Ok (eds ++ [mkEdge (src e) (src_conn e) me None (edata e)]));
  Ok (remove_edge e eds).

(** The body of the loop over [state.out_edges(component_out)]; [at_sink]
    is [component_out in sinks]. *)
Definition through_exit (mx : nat) (at_sink : bool)
    (acc : res (list (Edge E))) (e : Edge E) : res (list (Edge E)) :=
  eds ← acc;
  let eds := eds ++ [mkEdge (src e) (src_conn e) mx None (edata e)] in
  eds ← (if at_sink then
           outer ← edge_to_outer e;
           Ok (eds ++ [mkEdge mx None (dst outer) (dst_conn outer) (edata outer)])
         else Ok (eds ++ [mkEdge mx None (dst e) (dst_conn e) (edata e)]));
  Ok (remove_edge e eds).

(** The edges of the state after the body of the loop "Add extra maps
    around components" for one component, where [(me, mx)] are the nodes
    that [state.add_map] returned. *)
Definition reconnect_component (sources sinks : list nat) (eds : list (Edge E))
    (c : nat * nat) (h : nat * nat) : res (list (Edge E)) :=
  let '(component_in, component_out) := c in
  let '(me, mx) := h in
  eds ← foldl (through_entry me (bool_decide (component_in ∈ sources)))
              (Ok eds) (in_edges eds component_in);
  let eds := if bool_decide (length (in_edges eds component_in) = 0%nat)
             then eds ++ [mkEdge me None component_in None empty_memlet] else eds in
  eds ← foldl (through_exit mx (bool_decide (component_out ∈ sinks)))
              (Ok eds) (out_edges eds component_out);
  let eds := if bool_decide (length (out_edges eds component_out) = 0%nat)
             then eds ++ [mkEdge component_out None mx None empty_memlet] else eds in
  Ok eds.

(** The loop over the components, each with its new pair of map nodes. *)
Definition reconnect_components (sources sinks : list nat) (eds : list (Edge E))
    (l : list ((nat * nat) * (nat * nat))) : res (list (Edge E)) :=
  foldl (λ (acc : res (list (Edge E))) ch,
           eds ← acc; reconnect_component sources sinks eds ch.1 ch.2)
        (Ok eds) l.

(** *** One component *)

Lemma elem_of_remove_edge (e x : Edge E) (l : list (Edge E)) :
  x ∈ remove_edge e l → x ∈ l.
Proof.
  induction l as [|y l IH]; [done|]. simpl. case_decide.
  - intros Hx. by constructor.
  - intros [->|Hx]%elem_of_cons; [by constructor|]. constructor. by apply IH.
Qed.

Lemma remove_edge_other (e x : Edge E) (l : list (Edge E)) :
  x ∈ l → x ≠ e → x ∈ remove_edge e l.
Proof.
  induction l as [|y l IH]; [done|]. simpl. intros [->|Hx]%elem_of_cons Hne.
  - rewrite decide_False by done. by constructor.
  - case_decide; [done|]. constructor. by apply IH.
Qed.

Lemma filter_remove_edge (P : Edge E → Prop) `{∀ x, Decision (P x)} (e : Edge E)
    (l : list (Edge E)) :
  P e → filter P (remove_edge e l) = remove_edge e (filter P l).
Proof.
  intros He. induction l as [|y l IH]; [done|]. simpl. case_decide as Hy.
  - subst y. rewrite filter_cons_True by done. simpl. by rewrite decide_True.
  - rewrite !filter_cons. destruct (decide (P y)); [|done].
    simpl. rewrite decide_False by done. by rewrite IH.
Qed.

Lemma foldl_raise_edges {A B} (f : res A → B → res A) (l : list B) (e : exn) :
  (∀ x, f (Raise e) x = Raise e) → foldl f (Raise e) l = Raise e.
Proof. intros Hf. induction l as [|x l IH]; [done|]. simpl. by rewrite Hf. Qed.

Lemma through_entry_run (me n : nat) (at_source : bool) (l cur cur' news : list (Edge E)) :
  me ≠ n →
  in_edges cur n = l ++ news →
  foldl (through_entry me at_source) (Ok cur) l = Ok cur' →
  ∃ news',
    in_edges cur' n = news ++ news' ∧ length news' = length l ∧
    (∀ x, x ∈ news' → src x = me) ∧
    (∀ x, x ∈ cur' →
          x ∈ cur ∨ (src x = me ∧ dst x = n)
          ∨ (dst x = me ∧ ((∃ e, e ∈ l ∧ src e = src x)
                           ∨ ∃ e o, edge_to_outer e = Ok o ∧ src o = src x))) ∧
    (∀ x, x ∈ cur → dst x ≠ n → x ∈ cur').
Proof.
  intros Hme. revert cur news. induction l as [|e l IH]; intros cur news Hin Hrun.
  - simpl in Hrun. injection Hrun as <-. exists []. rewrite app_nil_r.
    repeat split; auto. intros x Hx. by apply elem_of_nil in Hx.
  - cbn [foldl] in Hrun.
    assert (dst e = n) as Hdst.
    { assert (e ∈ in_edges cur n) as He by (rewrite Hin; by constructor).
      by apply list_elem_of_filter in He as [? _]. }
    destruct (through_entry me at_source (Ok cur) e) as [cur1|err] eqn:Hstep.
    2:{ rewrite foldl_raise_edges in Hrun; [done|]. by intros x. }
    unfold through_entry in Hstep. cbn [mbind res_bind] in Hstep.
    set (a := mkEdge me None (dst e) (dst_conn e) (edata e)) in *.
    assert (∃ b, cur1 = remove_edge e ((cur ++ [a]) ++ [b]) ∧ dst b = me ∧
                 (src b = src e ∨ ∃ o, edge_to_outer e = Ok o ∧ src o = src b))
      as (b & -> & Hb & Hbsrc).
    { destruct at_source.
      - apply bind_ok in Hstep as (cur2 & Hcur2 & Hstep).
        apply bind_ok in Hcur2 as (o & Ho & Hcur2).
        injection Hcur2 as <-. injection Hstep as <-.
        eexists. split; [done|]. split; [done|]. right. by exists o.
      - cbn [mbind res_bind] in Hstep. injection Hstep as <-.
        eexists. split; [done|]. split; [done|]. by left. }
    destruct (IH (remove_edge e ((cur ++ [a]) ++ [b])) (news ++ [a]))
      as (news' & Hin' & Hlen & Hsrc & Hprov & Hkept); [|done|].
    { unfold in_edges. rewrite (filter_remove_edge (λ x, dst x = n)) by done.
      rewrite !filter_app. fold (in_edges cur n). rewrite Hin.
      rewrite (filter_cons_True _ a) by done.
      rewrite (filter_cons_False _ b) by (rewrite Hb; done).
      rewrite !filter_nil, app_nil_r. simpl. rewrite decide_True by done.
      by rewrite <- app_assoc. }
    exists (a :: news'). split; [|split; [|split; [|split]]].
    + rewrite Hin'. by rewrite <- app_assoc.
    + simpl. by rewrite Hlen.
    + intros x [->|Hx]%elem_of_cons; [done|by apply Hsrc].
    + intros x Hx. destruct (Hprov x Hx) as [Hx1|[Hnew|(Hd & Hfrom)]].
      * apply elem_of_remove_edge in Hx1.
        apply elem_of_app in Hx1 as [Hx1|Hx1].
        -- apply elem_of_app in Hx1 as [Hx1|Hx1]; [by left|].
           apply list_elem_of_singleton in Hx1 as ->. right. left. done.
        -- apply list_elem_of_singleton in Hx1 as ->. right. right.
           split; [done|]. destruct Hbsrc as [Hs|(o & Ho & Hs)].
           ++ left. exists e. split; [by constructor|done].
           ++ right. by exists e, o.
      * right. by left.
      * right. right. split; [done|]. destruct Hfrom as [(e' & He' & Hs)|?]; [|by right].
        left. exists e'. split; [by constructor|done].
    + intros x Hx Hne. apply Hkept; [|done]. apply remove_edge_other.
      * apply elem_of_app. left. apply elem_of_app. by left.
      * intros ->. done.
Qed.

Lemma through_exit_run (mx n : nat) (at_sink : bool) (l cur cur' news : list (Edge E)) :
  mx ≠ n →
  out_edges cur n = l ++ news →
  foldl (through_exit mx at_sink) (Ok cur) l = Ok cur' →
  ∃ news',
    out_edges cur' n = news ++ news' ∧ length news' = length l ∧
    (∀ x, x ∈ news' → dst x = mx) ∧
    (∀ x, x ∈ cur' →
          x ∈ cur ∨ (src x = n ∧ dst x = mx)
          ∨ (src x = mx ∧ ((∃ e, e ∈ l ∧ dst e = dst x)
                           ∨ ∃ e o, edge_to_outer e = Ok o ∧ dst o = dst x))) ∧
    (∀ x, x ∈ cur → src x ≠ n → x ∈ cur').
Proof.
  intros Hmx. revert cur news. induction l as [|e l IH]; intros cur news Hout Hrun.
  - simpl in Hrun. injection Hrun as <-. exists []. rewrite app_nil_r.
    repeat split; auto. intros x Hx. by apply elem_of_nil in Hx.
  - cbn [foldl] in Hrun.
    assert (src e = n) as Hsrc.
    { assert (e ∈ out_edges cur n) as He by (rewrite Hout; by constructor).
      by apply list_elem_of_filter in He as [? _]. }
    destruct (through_exit mx at_sink (Ok cur) e) as [cur1|err] eqn:Hstep.
    2:{ rewrite foldl_raise_edges in Hrun; [done|]. by intros x. }
    unfold through_exit in Hstep. cbn [mbind res_bind] in Hstep.
    set (a := mkEdge (src e) (src_conn e) mx None (edata e)) in *.
    assert (∃ b, cur1 = remove_edge e ((cur ++ [a]) ++ [b]) ∧ src b = mx ∧
                 (dst b = dst e ∨ ∃ o, edge_to_outer e = Ok o ∧ dst o = dst b))
      as (b & -> & Hb & Hbdst).
    { destruct at_sink.
      - apply bind_ok in Hstep as (cur2 & Hcur2 & Hstep).
        apply bind_ok in Hcur2 as (o & Ho & Hcur2).
        injection Hcur2 as <-. injection Hstep as <-.
        eexists. split; [done|]. split; [done|]. right. by exists o.
      - cbn [mbind res_bind] in Hstep. injection Hstep as <-.
        eexists. split; [done|]. split; [done|]. by left. }
    destruct (IH (remove_edge e ((cur ++ [a]) ++ [b])) (news ++ [a]))
      as (news' & Hout' & Hlen & Hdst & Hprov & Hkept); [|done|].
    { unfold out_edges. rewrite (filter_remove_edge (λ x, src x = n)) by done.
      rewrite !filter_app. fold (out_edges cur n). rewrite Hout.
      rewrite (filter_cons_True _ a) by done.
      rewrite (filter_cons_False _ b) by (rewrite Hb; done).
      rewrite !filter_nil, app_nil_r. simpl. rewrite decide_True by done.
      by rewrite <- app_assoc. }
    exists (a :: news'). split; [|split; [|split; [|split]]].
    + rewrite Hout'. by rewrite <- app_assoc.
    + simpl. by rewrite Hlen.
    + intros x [->|Hx]%elem_of_cons; [done|by apply Hdst].
    + intros x Hx. destruct (Hprov x Hx) as [Hx1|[Hnew|(Hs & Hfrom)]].
      * apply elem_of_remove_edge in Hx1.
        apply elem_of_app in Hx1 as [Hx1|Hx1].
        -- apply elem_of_app in Hx1 as [Hx1|Hx1]; [by left|].
           apply list_elem_of_singleton in Hx1 as ->. right. left. done.
        -- apply list_elem_of_singleton in Hx1 as ->. right. right.
           split; [done|]. destruct Hbdst as [Hd|(o & Ho & Hd)].
           ++ left. exists e. split; [by constructor|done].
           ++ right. by exists e, o.
      * right. by left.
      * right. right. split; [done|]. destruct Hfrom as [(e' & He' & Hd)|?]; [|by right].
        left. exists e'. split; [by constructor|done].
    + intros x Hx Hne. apply Hkept; [|done]. apply remove_edge_other.
      * apply elem_of_app. left. apply elem_of_app. by left.
      * intros ->. done.
Qed.

(** The component [c] is enclosed by the map nodes [h]: it has edges into
    its first node and they all come from the entry, and it has edges out
    of its last node and they all go to the exit. *)
Definition enclosed (eds : list (Edge E)) (ch : (nat * nat) * (nat * nat)) : Prop :=
  in_edges eds ch.1.1 ≠ [] ∧ (∀ x, x ∈ in_edges eds ch.1.1 → src x = ch.2.1) ∧
  out_edges eds ch.1.2 ≠ [] ∧ (∀ x, x ∈ out_edges eds ch.1.2 → dst x = ch.2.2).

(** An edge that the loop body for [c] and [h] adds to [eds]. *)
Definition added (eds : list (Edge E)) (c h : nat * nat) (x : Edge E) : Prop :=
  (src x = h.1 ∧ dst x = c.1)
  ∨ (dst x = h.1 ∧ ((∃ e, e ∈ eds ∧ dst e = c.1 ∧ src e = src x)
                    ∨ ∃ e o, edge_to_outer e = Ok o ∧ src o = src x))
  ∨ (src x = c.2 ∧ dst x = h.2)
  ∨ (src x = h.2 ∧ ((∃ e, (e ∈ eds ∨ dst e = h.1) ∧ src e = c.2 ∧ dst e = dst x)
                    ∨ ∃ e o, edge_to_outer e = Ok o ∧ dst o = dst x)).

Lemma length_zero_nil {A} (l : list A) : length l = 0%nat ↔ l = [].
Proof. destruct l; simpl; split; intros; (done || lia). Qed.

Lemma nonempty_elem {A} (l : list A) : l ≠ [] → ∃ x, x ∈ l.
Proof. destruct l as [|x l]; [done|]. intros _. exists x. by constructor. Qed.

Lemma reconnect_component_spec (sources sinks : list nat) (eds eds' : list (Edge E))
    (c h : nat * nat) :
  h.1 ≠ c.1 → h.1 ≠ c.2 → h.2 ≠ c.1 → h.2 ≠ c.2 →
  (∀ e o, edge_to_outer e = Ok o → dst o ≠ c.1) →
  reconnect_component sources sinks eds c h = Ok eds' →
  enclosed eds' (c, h) ∧
  (∀ x, x ∈ eds' → x ∈ eds ∨ added eds c h x) ∧
  (∀ x, x ∈ eds → dst x ≠ c.1 → src x ≠ c.2 → x ∈ eds').
Proof.
  destruct c as [cin cout], h as [me mx]. cbn [fst snd].
  intros Hme1 Hme2 Hmx1 Hmx2 Houter Hrun. unfold reconnect_component in Hrun.
  apply bind_ok in Hrun as (eds1 & Hin & Hrun).
  destruct (through_entry_run me cin (bool_decide (cin ∈ sources))
              (in_edges eds cin) eds eds1 [] Hme1)
    as (news1 & Hin1 & Hlen1 & Hsrc1 & Hprov1 & Hkept1); [by rewrite app_nil_r|done|].
  cbn [app] in Hin1.
  set (eds2 := if bool_decide (length (in_edges eds1 cin) = 0%nat)
               then eds1 ++ [mkEdge me None cin None empty_memlet] else eds1) in *.
  assert ((in_edges eds1 cin = [] ∧
           eds2 = eds1 ++ [mkEdge me None cin None empty_memlet])
          ∨ (in_edges eds1 cin ≠ [] ∧ eds2 = eds1)) as Heds2.
  { unfold eds2. destruct (decide (length (in_edges eds1 cin) = 0%nat)) as [Hz|Hz].
    - rewrite (bool_decide_eq_true_2 _ Hz). left. by apply length_zero_nil in Hz.
    - rewrite (bool_decide_eq_false_2 _ Hz). right. split; [|done].
      by intros Hnil%length_zero_nil. }
  clearbody eds2.
  assert (in_edges eds2 cin ≠ [] ∧ (∀ x, x ∈ in_edges eds2 cin → src x = me)) as [Hne2 Hsrc2].
  { destruct Heds2 as [[Hzero ->]|[Hzero ->]].
    - unfold in_edges. rewrite filter_app. fold (in_edges eds1 cin).
      rewrite Hzero. rewrite filter_cons_True by done. split; [done|].
      intros x Hx. by apply list_elem_of_singleton in Hx as ->.
    - split; [done|]. rewrite Hin1. done. }
  assert (∀ x, x ∈ eds2 → x ∈ eds1 ∨ (src x = me ∧ dst x = cin)) as Hprov2.
  { intros x Hx. destruct Heds2 as [[_ ->]|[_ ->]]; [|by left].
    apply elem_of_app in Hx as [Hx|Hx]; [by left|].
    apply list_elem_of_singleton in Hx as ->. by right. }
  assert (∀ x, x ∈ eds1 → x ∈ eds2) as Hkept2.
  { intros x Hx. destruct Heds2 as [[_ ->]|[_ ->]]; [|done]. apply elem_of_app. by left. }
  apply bind_ok in Hrun as (eds3 & Hout & Hrun). injection Hrun as <-.
  destruct (through_exit_run mx cout (bool_decide (cout ∈ sinks))
              (out_edges eds2 cout) eds2 eds3 [] Hmx2)
    as (news3 & Hout3 & Hlen3 & Hdst3 & Hprov3 & Hkept3); [by rewrite app_nil_r|done|].
  cbn [app] in Hout3.
  set (eds4 := if bool_decide (length (out_edges eds3 cout) = 0%nat)
               then eds3 ++ [mkEdge cout None mx None empty_memlet] else eds3).
  assert ((out_edges eds3 cout = [] ∧
           eds4 = eds3 ++ [mkEdge cout None mx None empty_memlet])
          ∨ (out_edges eds3 cout ≠ [] ∧ eds4 = eds3)) as Heds4.
  { unfold eds4. destruct (decide (length (out_edges eds3 cout) = 0%nat)) as [Hz|Hz].
    - rewrite (bool_decide_eq_true_2 _ Hz). left. by apply length_zero_nil in Hz.
    - rewrite (bool_decide_eq_false_2 _ Hz). right. split; [|done].
      by intros Hnil%length_zero_nil. }
  clearbody eds4.
  assert (∀ x, x ∈ eds3 → dst x = cin → x ∈ eds2) as Hback.
  { intros x Hx Hd. destruct (Hprov3 x Hx) as [?|[[_ Hd']|(Hs & Hfrom)]]; [done|congruence|].
    exfalso. destruct Hfrom as [(e & He & Hde)|(e & o & Ho & Hdo)].
    - apply list_elem_of_filter in He as [Hse He].
      assert (src e = me) as Hsme.
      { apply Hsrc2. apply list_elem_of_filter. split; [congruence|done]. }
      congruence.
    - apply (Houter e o Ho). congruence. }
  assert (∀ x, x ∈ eds4 → x ∈ eds3 ∨ (src x = cout ∧ dst x = mx)) as Hprov4.
  { intros x Hx. destruct Heds4 as [[_ ->]|[_ ->]]; [|by left].
    apply elem_of_app in Hx as [Hx|Hx]; [by left|].
    apply list_elem_of_singleton in Hx as ->. by right. }
  assert (∀ x, x ∈ eds3 → x ∈ eds4) as Hkept4.
  { intros x Hx. destruct Heds4 as [[_ ->]|[_ ->]]; [|done]. apply elem_of_app. by left. }
  split; [|split].
  - unfold enclosed. cbn [fst snd]. split; [|split; [|split]].
    + destruct (nonempty_elem _ Hne2) as [x0 Hx0'].
      assert (x0 ∈ in_edges eds4 cin) as Hx0in.
      { pose proof (Hsrc2 x0 Hx0') as Hs0.
        apply list_elem_of_filter in Hx0' as [Hd0 Hx0'].
        apply list_elem_of_filter. split; [done|]. apply Hkept4, Hkept3; [done|].
        congruence. }
      intros Hnil. rewrite Hnil in Hx0in. by apply elem_of_nil in Hx0in.
    + intros x [Hd Hx]%list_elem_of_filter.
      destruct (Hprov4 x Hx) as [Hx3|[_ Hd']]; [|congruence].
      apply Hsrc2. apply list_elem_of_filter. split; [done|]. by apply Hback.
    + destruct Heds4 as [[Hzero ->]|[Hzero ->]]; [|done].
      unfold out_edges. rewrite filter_app.
      rewrite (filter_cons_True _ (mkEdge cout None mx None empty_memlet)) by done.
      intros Hnil. by apply app_eq_nil in Hnil as [_ ?].
    + intros x [Hs Hx]%list_elem_of_filter.
      destruct (Hprov4 x Hx) as [Hx3|[_ Hd']]; [|done].
      apply Hdst3. rewrite <- Hout3. by apply list_elem_of_filter.
  - intros x Hx. unfold added. cbn [fst snd].
    destruct (Hprov4 x Hx) as [Hx3|Hnew]; [|right; right; right; by left].
    destruct (Hprov3 x Hx3) as [Hx2|[Hnew|(Hs & Hfrom)]].
    + destruct (Hprov2 x Hx2) as [Hx1|Hnew]; [|right; by left].
      destruct (Hprov1 x Hx1) as [?|[Hnew|(Hd & Hfrom)]]; [by left|right; by left|].
      right. right. left. split; [done|].
      destruct Hfrom as [(e & He & Hse)|?]; [|by right].
      left. exists e. apply list_elem_of_filter in He as [Hde He]. done.
    + right. right. right. by left.
    + right. right. right. right. split; [done|].
      destruct Hfrom as [(e & He & Hde)|?]; [|by right].
      left. exists e. apply list_elem_of_filter in He as [Hse He].
      split; [|done].
      destruct (Hprov2 e He) as [He1|[Hsme _]]; [|congruence].
      destruct (Hprov1 e He1) as [?|[[Hsme _]|[Hdme _]]]; [by left|congruence|by right].
  - intros x Hx Hd Hs. apply Hkept4, Hkept3; [|done]. apply Hkept2. by apply Hkept1.
Qed.

(** *** All components *)

(** The new map nodes are no nodes of a component, the components start at
    different nodes and end at different nodes, and no edge outside the
    scope that [edge_to_outer] gives starts or ends at a node of a
    component. *)
Definition new_maps_apart (l : list ((nat * nat) * (nat * nat))) : Prop :=
  NoDup (l.*1.*1) ∧ NoDup (l.*1.*2) ∧
  (∀ ch ch', ch ∈ l → ch' ∈ l →
     ch.2.1 ≠ ch'.1.1 ∧ ch.2.1 ≠ ch'.1.2 ∧ ch.2.2 ≠ ch'.1.1 ∧ ch.2.2 ≠ ch'.1.2) ∧
  (∀ e o ch, edge_to_outer e = Ok o → ch ∈ l → dst o ≠ ch.1.1 ∧ src o ≠ ch.1.2).

Lemma enclosed_kept (eds eds' : list (Edge E)) (A B : (nat * nat) * (nat * nat)) :
  enclosed eds A →
  A.1.1 ≠ B.1.1 → A.1.2 ≠ B.1.2 →
  B.2.1 ≠ A.1.1 → B.2.1 ≠ A.1.2 → B.2.2 ≠ A.1.1 → B.2.2 ≠ A.1.2 →
  A.2.1 ≠ B.1.1 → A.2.1 ≠ B.1.2 → A.2.2 ≠ B.1.1 → A.2.2 ≠ B.1.2 →
  (∀ e o, edge_to_outer e = Ok o → dst o ≠ A.1.1 ∧ src o ≠ A.1.2) →
  (∀ x, x ∈ eds' → x ∈ eds ∨ added eds B.1 B.2 x) →
  (∀ x, x ∈ eds → dst x ≠ B.1.1 → src x ≠ B.1.2 → x ∈ eds') →
  enclosed eds' A.
Proof.
  destruct A as [[ain aout] [ame amx]], B as [[bin bout] [bme bmx]]. cbn [fst snd].
  intros (Hne1 & Hsrc & Hne2 & Hdst) Hin Hout Hb1 Hb2 Hb3 Hb4 Ha1 Ha2 Ha3 Ha4 Houter
    Hprov Hkept.
  unfold enclosed in *. cbn [fst snd] in *.
  assert (∀ x, x ∈ in_edges eds ain → x ∈ in_edges eds' ain) as Hkin.
  { intros x Hx. pose proof (Hsrc x Hx) as Hs.
    apply list_elem_of_filter in Hx as [Hd Hx]. apply list_elem_of_filter.
    split; [done|]. apply Hkept; [done|congruence|congruence]. }
  assert (∀ x, x ∈ out_edges eds aout → x ∈ out_edges eds' aout) as Hkout.
  { intros x Hx. pose proof (Hdst x Hx) as Hd.
    apply list_elem_of_filter in Hx as [Hs Hx]. apply list_elem_of_filter.
    split; [done|]. apply Hkept; [done|congruence|congruence]. }
  split; [|split; [|split]].
  - destruct (nonempty_elem _ Hne1) as [x0 Hx0].
    intros Hnil. specialize (Hkin x0 Hx0). rewrite Hnil in Hkin.
    by apply elem_of_nil in Hkin.
  - intros x [Hd Hx]%list_elem_of_filter.
    destruct (Hprov x Hx) as [Hx0|Hnew].
    { apply Hsrc. by apply list_elem_of_filter. }
    exfalso. unfold added in Hnew. cbn [fst snd] in Hnew.
    destruct Hnew as [[_ Hd']|[[Hd' _]|[[_ Hd']|[Hs Hfrom]]]]; try congruence.
    destruct Hfrom as [(e & [He|He] & Hse & Hde)|(e & o & Ho & Hdo)].
    + assert (src e = ame) as Hsa.
      { apply Hsrc. apply list_elem_of_filter. split; [congruence|done]. }
      congruence.
    + congruence.
    + destruct (Houter e o Ho) as [Hno _]. congruence.
  - destruct (nonempty_elem _ Hne2) as [x0 Hx0].
    intros Hnil. specialize (Hkout x0 Hx0). rewrite Hnil in Hkout.
    by apply elem_of_nil in Hkout.
  - intros x [Hs Hx]%list_elem_of_filter.
    destruct (Hprov x Hx) as [Hx0|Hnew].
    { apply Hdst. by apply list_elem_of_filter. }
    exfalso. unfold added in Hnew. cbn [fst snd] in Hnew.
    destruct Hnew as [[Hs' _]|[[Hd' Hfrom]|[[Hs' _]|[Hs' _]]]]; try congruence.
    destruct Hfrom as [(e & He & Hde & Hse)|(e & o & Ho & Hso)].
    + assert (dst e = amx) as Hda.
      { apply Hdst. apply list_elem_of_filter. split; [congruence|done]. }
      congruence.
    + destruct (Houter e o Ho) as [_ Hno]. congruence.
Qed.

Lemma reconnect_components_run (sources sinks : list nat)
    (done' todo : list ((nat * nat) * (nat * nat))) (eds eds' : list (Edge E)) :
  new_maps_apart (done' ++ todo) →
  Forall (enclosed eds) done' →
  reconnect_components sources sinks eds todo = Ok eds' →
  Forall (enclosed eds') (done' ++ todo).
Proof.
  revert done' eds. induction todo as [|B todo IH]; intros done' eds Hapart Hdone Hrun.
  - simpl in Hrun. injection Hrun as <-. by rewrite app_nil_r.
  - unfold reconnect_components in Hrun. cbn [foldl mbind res_bind] in Hrun.
    destruct (reconnect_component sources sinks eds B.1 B.2) as [eds1|err] eqn:Hstep.
    2:{ rewrite foldl_raise_edges in Hrun; [done|]. by intros x. }
    destruct Hapart as (Hnd1 & Hnd2 & Hnew & Houter).
    assert (B ∈ done' ++ B :: todo) as HB by (apply elem_of_app; right; by constructor).
    destruct (Hnew B B HB HB) as (H1 & H2 & H3 & H4).
    destruct (reconnect_component_spec sources sinks eds eds1 B.1 B.2)
      as (Henc & Hprov & Hkept); try done.
    { intros e o Ho. by apply (Houter e o B). }
    replace (done' ++ B :: todo) with ((done' ++ [B]) ++ todo) by (by rewrite <- app_assoc).
    apply (IH (done' ++ [B]) eds1).
    + rewrite <- app_assoc. done.
    + apply Forall_app. split.
      * apply Forall_forall. intros A HA.
        assert (A ∈ done' ++ B :: todo) as HA' by (apply elem_of_app; by left).
        destruct (Hnew A B HA' HB) as (? & ? & ? & ?).
        destruct (Hnew B A HB HA') as (? & ? & ? & ?).
        apply list_elem_of_lookup in HA as [i Hi].
        assert ((done' ++ B :: todo) !! i = Some A) as Hi1.
        { by apply lookup_app_l_Some. }
        assert ((done' ++ B :: todo) !! length done' = Some B) as Hi2.
        { rewrite lookup_app_r by lia. by rewrite Nat.sub_diag. }
        assert (i ≠ length done') as Hneq.
        { apply lookup_lt_Some in Hi. lia. }
        apply (enclosed_kept eds eds1 A B); try done.
        -- rewrite Forall_forall in Hdone. apply Hdone.
           by apply list_elem_of_lookup_2 in Hi.
        -- intros Heq. apply Hneq.
           apply (NoDup_lookup _ i (length done') A.1.1 Hnd1);
             rewrite !list_lookup_fmap; [by rewrite Hi1|by rewrite Hi2, Heq].
        -- intros Heq. apply Hneq.
           apply (NoDup_lookup _ i (length done') A.1.2 Hnd2);
             rewrite !list_lookup_fmap; [by rewrite Hi1|by rewrite Hi2, Heq].
        -- intros e o Ho. by apply (Houter e o A).
      * constructor; [|done]. by destruct B as [[? ?] [? ?]].
    + done.
Qed.

(** X25.  When the loop "Add extra maps around components" has run, every
    component is enclosed by its own new map: its first node has input
    edges and they all come from its new entry node, and its last node has
    output edges and they all go to its new exit node.  (The new map nodes
    are nodes of no component, and the edges outside the scope that
    [edge_to_outer] gives touch no node of a component.) *)
Theorem reconnect_components_enclose (sources sinks : list nat) (eds : list (Edge E))
    (l : list ((nat * nat) * (nat * nat))) :
  new_maps_apart l →
  match reconnect_components sources sinks eds l with
  | Ok eds' => Forall (enclosed eds') l
  | Raise _ => True
  end.
Proof.
  intros Hapart.
  destruct (reconnect_components sources sinks eds l) as [eds'|err] eqn:Hrun; [|done].
  by apply (reconnect_components_run sources sinks [] l eds eds' Hapart).
Qed.

End Enclose.

(** [edge_to_outer] of [two_tasklets]: the edge into the outer entry for the
    input of [t1], the edge out of the outer exit for the output of [t2]. *)
Definition two_tasklets_outer (e : Edge Z) : res (Edge Z) :=
  if decide (dst e = 2%nat) then Ok (mkEdge 0 None 1 (Some "IN_A") (memlet_at "A" 0 9))
  else if decide (src e = 4%nat)
       then Ok (mkEdge 5 (Some "OUT_B") 6 None (memlet_at "B" 0 9))
       else Raise KeyError.

(** The components of [two_tasklets] with the map nodes of
    [two_tasklets_fissioned]. *)
Definition two_tasklets_maps : list ((nat * nat) * (nat * nat)) :=
  [((2%nat, 2%nat), (7%nat, 8%nat)); ((4%nat, 4%nat), (9%nat, 10%nat))].

Lemma two_tasklets_maps_apart : new_maps_apart two_tasklets_outer two_tasklets_maps.
Proof.
  unfold new_maps_apart, two_tasklets_maps. split; [|split; [|split]].
  - simpl. apply NoDup_cons. split; [|apply NoDup_singleton].
    intros Hin%list_elem_of_singleton. lia.
  - simpl. apply NoDup_cons. split; [|apply NoDup_singleton].
    intros Hin%list_elem_of_singleton. lia.
  - intros ch ch' Hch Hch'.
    repeat (apply elem_of_cons in Hch as [->|Hch]);
      repeat (apply elem_of_cons in Hch' as [->|Hch']);
      try (by apply elem_of_nil in Hch); try (by apply elem_of_nil in Hch');
      simpl; repeat split; lia.
  - intros e o ch Ho Hch. unfold two_tasklets_outer in Ho.
    repeat case_decide; try done; injection Ho as <-;
      repeat (apply elem_of_cons in Hch as [->|Hch]);
      try (by apply elem_of_nil in Hch); simpl; split; lia.
Qed.

Lemma reconnect_components_enclose_witness :
  new_maps_apart two_tasklets_outer two_tasklets_maps ∧
  is_ok (reconnect_components two_tasklets_outer [2%nat] [4%nat] (edges two_tasklets)
           two_tasklets_maps) = true ∧
  match reconnect_components two_tasklets_outer [2%nat] [4%nat] (edges two_tasklets)
          two_tasklets_maps with
  | Ok eds' => Forall (enclosed eds') two_tasklets_maps
  | Raise _ => True
  end.
Proof.
  split; [exact two_tasklets_maps_apart|]. split; [vm_compute; reflexivity|].
  exact (reconnect_components_enclose two_tasklets_outer [2%nat] [4%nat]
           (edges two_tasklets) two_tasklets_maps two_tasklets_maps_apart).
Defined.

End MapFission.

(** * Matching *)

